(** * MFlow compiler: lexer, parser, semantic analyzer, code generator, façade

    A shallow embedding of the TypeScript sources under [src/compiler]
    (lexer/tokens.ts, lexer/lexer.ts, ast/nodes.ts, parser/parser.ts,
    semantic/analyzer.ts, codegen/generator.ts, index.ts) together with the
    properties of the pipeline that are checked against them.

    Conventions.
    - A class becomes a module holding a record of its fields and one
      function per method; a method that mutates [this] takes the record
      and returns the new one.
    - A [while] loop becomes a [Fixpoint] on a fuel argument; running out of
      fuel is reported ([None], [Diverged]) and is shown not to happen.
    - A thrown exception is an explicit outcome carrying the state the
      object was left in, since [Parser.parse] resumes from it.
    - Source characters are [ascii]; every character outside the classes the
      lexer tests for is treated alike by the source. *)

From Stdlib Require Import String Ascii List Arith Lia DecimalString.
From stdpp Require Import gmap strings list option.

Set Warnings "-register-all".

Local Open Scope string_scope.
Local Open Scope list_scope.
Local Open Scope nat_scope.

(** ** The host runtime

    The values of type [number], their parsing and printing, and the wording
    of the runtime's own exceptions belong to the JavaScript host and not to
    the repository. *)

Inductive HostException : Type :=
| TypeErrorUndefined (property : string).

Class Host : Type := {
  Number : Type;
  parseFloat : string -> Number;
  numberToString : Number -> string;
  hostMessage : HostException -> string
}.

(** Keys every object literal inherits from [Object.prototype]; [o[k]] is
    truthy for each of them whatever the own properties of [o]. *)
Definition objectPrototypeKeys : list string :=
  [ "constructor"; "__defineGetter__"; "__defineSetter__"; "hasOwnProperty";
    "__lookupGetter__"; "__lookupSetter__"; "isPrototypeOf";
    "propertyIsEnumerable"; "toString"; "valueOf"; "__proto__";
    "toLocaleString" ].

Definition inheritedKey (k : string) : bool :=
  existsb (String.eqb k) objectPrototypeKeys.

Definition numberText (n : nat) : string :=
  NilZero.string_of_uint (Nat.to_uint n).

(** ** lexer/tokens.ts *)

Inductive TokenType : Type :=
| NUMBER | STRING | COLOR | IDENTIFIER
| LET | FN | RETURN | IF | ELSE | REPEAT | ANIMATE | SCENE
| CIRCLE | RECT | LINE | TRIANGLE
| MOVE | ROTATE | SCALE | FADE
| UP | DOWN | LEFT | RIGHT
| AT | SIZE | WIDTH | HEIGHT | COLOR_PROP | SPEED
| PLUS | MINUS | MULTIPLY | DIVIDE | MODULO | ASSIGN
| EQUAL | NOT_EQUAL | LESS_THAN | GREATER_THAN | LESS_EQUAL | GREATER_EQUAL
| LPAREN | RPAREN | LBRACE | RBRACE | COMMA | DOT | NEWLINE
| EOF | ILLEGAL
(** not a member of the enum: the value [KEYWORDS[key]] finds on
    [Object.prototype] for an identifier spelled like an inherited key *)
| INHERITED (key : string).

#[global] Instance TokenType_eq_dec : EqDecision TokenType.
Proof. solve_decision. Defined.

Definition sameType (a b : TokenType) : bool := bool_decide (a = b).

Module Token.
Record t : Type := mk { type : TokenType; value : string; line : nat; column : nat }.
End Token.

Definition KEYWORDS : list (string * TokenType) :=
  [ ("let", LET); ("fn", FN); ("return", RETURN); ("if", IF); ("else", ELSE);
    ("repeat", REPEAT); ("animate", ANIMATE); ("scene", SCENE);
    ("circle", CIRCLE); ("rect", RECT); ("line", LINE); ("triangle", TRIANGLE);
    ("move", MOVE); ("rotate", ROTATE); ("scale", SCALE); ("fade", FADE);
    ("up", UP); ("down", DOWN); ("left", LEFT); ("right", RIGHT);
    ("at", AT); ("size", SIZE); ("width", WIDTH); ("height", HEIGHT);
    ("color", COLOR_PROP); ("speed", SPEED) ].

Fixpoint ownKeyword (table : list (string * TokenType)) (k : string) : option TokenType :=
  match table with
  | [] => None
  | (k', ty) :: rest => if String.eqb k k' then Some ty else ownKeyword rest k
  end.

(** [KEYWORDS[k] || TokenType.IDENTIFIER] *)
Definition keywordOrIdentifier (k : string) : TokenType :=
  match ownKeyword KEYWORDS k with
  | Some ty => ty
  | None => if inheritedKey k then INHERITED k else IDENTIFIER
  end.

(** ** Character classes of the regular expressions in lexer.ts *)

Definition code (c : ascii) : nat := nat_of_ascii c.

Definition between (lo hi : nat) (c : ascii) : bool :=
  (lo <=? code c) && (code c <=? hi).

(** [/\d/] *)
Definition isDigit (c : ascii) : bool := between 48 57 c.
(** [/[ \t\r]/] *)
Definition isBlank (c : ascii) : bool :=
  (code c =? 32) || (code c =? 9) || (code c =? 13).
(** [/[0-9A-Fa-f]/] *)
Definition isHexDigit (c : ascii) : bool :=
  between 48 57 c || between 65 70 c || between 97 102 c.
(** [/[a-zA-Z_]/] *)
Definition isIdentStart (c : ascii) : bool :=
  between 97 122 c || between 65 90 c || (code c =? 95).
(** [/[a-zA-Z0-9_]/] *)
Definition isIdentPart (c : ascii) : bool :=
  isIdentStart c || between 48 57 c.

Definition isChar (c : ascii) (o : option ascii) : bool :=
  match o with
  | Some d => Ascii.eqb c d
  | None => false
  end.

Definition newline : ascii := "010"%char.
Definition quote : ascii := "034"%char.

Definition lowerChar (c : ascii) : ascii :=
  if between 65 90 c then ascii_of_nat (code c + 32) else c.

Fixpoint toLowerCase (s : string) : string :=
  match s with
  | EmptyString => EmptyString
  | String c rest => String (lowerChar c) (toLowerCase rest)
  end.

Definition appendChar (s : string) (c : ascii) : string :=
  s +:+ String c EmptyString.

(** ** lexer/lexer.ts *)

Module Lexer.

Record t : Type := mk {
  input : string;
  position : nat;
  line : nat;
  column : nat;
  currentChar : option ascii
}.

Definition new (input : string) : t :=
  {| input := input; position := 0; line := 1; column := 1;
     currentChar := String.get 0 input |}.

Definition advance (l : t) : t :=
  let position' := S (position l) in
  let column' := S (column l) in
  if String.length (input l) <=? position' then
    {| input := input l; position := position'; line := line l;
       column := column'; currentChar := None |}
  else
    let c := String.get position' (input l) in
    if isChar newline c then
      {| input := input l; position := position'; line := S (line l);
         column := 1; currentChar := c |}
    else
      {| input := input l; position := position'; line := line l;
         column := column'; currentChar := c |}.

(** [peek(offset = 1)]; the index test of the source is the one
    [String.get] makes. *)
Definition peek (l : t) : option ascii :=
  String.get (position l + 1) (input l).

Fixpoint skipWhitespace (fuel : nat) (l : t) : option t :=
  match currentChar l with
  | Some c =>
      if isBlank c then
        match fuel with
        | O => None
        | S fuel' => skipWhitespace fuel' (advance l)
        end
      else Some l
  | None => Some l
  end.

Fixpoint skipToEndOfLine (fuel : nat) (l : t) : option t :=
  match currentChar l with
  | Some c =>
      if Ascii.eqb c newline then Some l
      else
        match fuel with
        | O => None
        | S fuel' => skipToEndOfLine fuel' (advance l)
        end
  | None => Some l
  end.

Definition skipComment (fuel : nat) (l : t) : option t :=
  let isComment := isChar "/" (currentChar l) && isChar "/" (peek l) in
  if negb isComment then Some l else skipToEndOfLine fuel l.

Fixpoint readNumberLoop (fuel : nat) (numStr : string) (hasDot : bool) (l : t)
  : option (string * t) :=
  match currentChar l with
  | Some c =>
      if isDigit c || Ascii.eqb c "." then
        if Ascii.eqb c "." && hasDot then Some (numStr, l)
        else
          let hasDot' := if Ascii.eqb c "." then true else hasDot in
          match fuel with
          | O => None
          | S fuel' => readNumberLoop fuel' (appendChar numStr c) hasDot' (advance l)
          end
      else Some (numStr, l)
  | None => Some (numStr, l)
  end.

Definition readNumber (fuel : nat) (l : t) : option (Token.t * t) :=
  let startColumn := column l in
  '(numStr, l') ← readNumberLoop fuel EmptyString false l;
  Some (Token.mk NUMBER numStr (line l') startColumn, l').

Fixpoint readStringLoop (fuel : nat) (str : string) (l : t) : option (string * t) :=
  match currentChar l with
  | Some c =>
      if Ascii.eqb c quote then Some (str, l)
      else
        match fuel with
        | O => None
        | S fuel' =>
            if Ascii.eqb c "\" && isChar quote (peek l) then
              readStringLoop fuel' (appendChar str quote) (advance (advance l))
            else
              readStringLoop fuel' (appendChar str c) (advance l)
        end
  | None => Some (str, l)
  end.

Definition readString (fuel : nat) (l : t) : option (Token.t * t) :=
  let startColumn := column l in
  let l1 := advance l in
  '(str, l2) ← readStringLoop fuel EmptyString l1;
  let l3 := if isChar quote (currentChar l2) then advance l2 else l2 in
  Some (Token.mk STRING str (line l3) startColumn, l3).

Fixpoint readColorLoop (fuel : nat) (colorStr : string) (l : t) : option (string * t) :=
  match currentChar l with
  | Some c =>
      if isHexDigit c then
        match fuel with
        | O => None
        | S fuel' => readColorLoop fuel' (appendChar colorStr c) (advance l)
        end
      else Some (colorStr, l)
  | None => Some (colorStr, l)
  end.

Definition readColor (fuel : nat) (l : t) : option (Token.t * t) :=
  let startColumn := column l in
  let l1 := advance l in
  '(colorStr, l2) ← readColorLoop fuel "#" l1;
  Some (Token.mk COLOR colorStr (line l2) startColumn, l2).

Fixpoint readIdentifierLoop (fuel : nat) (identifier : string) (l : t)
  : option (string * t) :=
  match currentChar l with
  | Some c =>
      if isIdentPart c then
        match fuel with
        | O => None
        | S fuel' => readIdentifierLoop fuel' (appendChar identifier c) (advance l)
        end
      else Some (identifier, l)
  | None => Some (identifier, l)
  end.

Definition readIdentifier (fuel : nat) (l : t) : option (Token.t * t) :=
  let startColumn := column l in
  '(identifier, l') ← readIdentifierLoop fuel EmptyString l;
  let tokenType := keywordOrIdentifier (toLowerCase identifier) in
  Some (Token.mk tokenType identifier (line l') startColumn, l').

(** One- and two-character operators: the [switch (char)] of
    [nextToken]. *)
Definition single (ty : TokenType) (text : string) (startColumn : nat) (l : t)
  : Token.t * t :=
  let l1 := advance l in
  (Token.mk ty text (line l1) startColumn, l1).

Definition withEquals (two one : TokenType) (text : string) (startColumn : nat) (l : t)
  : Token.t * t :=
  let l1 := advance l in
  if isChar "=" (currentChar l1) then
    let l2 := advance l1 in
    (Token.mk two (text +:+ "=") (line l2) startColumn, l2)
  else (Token.mk one text (line l1) startColumn, l1).

Definition readOperator (char : ascii) (l : t) : Token.t * t :=
  let startColumn := column l in
  if Ascii.eqb char "+" then single PLUS "+" startColumn l
  else if Ascii.eqb char "-" then single MINUS "-" startColumn l
  else if Ascii.eqb char "*" then single MULTIPLY "*" startColumn l
  else if Ascii.eqb char "/" then single DIVIDE "/" startColumn l
  else if Ascii.eqb char "%" then single MODULO "%" startColumn l
  else if Ascii.eqb char "=" then withEquals EQUAL ASSIGN "=" startColumn l
  else if Ascii.eqb char "!" then withEquals NOT_EQUAL ILLEGAL "!" startColumn l
  else if Ascii.eqb char "<" then withEquals LESS_EQUAL LESS_THAN "<" startColumn l
  else if Ascii.eqb char ">" then withEquals GREATER_EQUAL GREATER_THAN ">" startColumn l
  else if Ascii.eqb char "(" then single LPAREN "(" startColumn l
  else if Ascii.eqb char ")" then single RPAREN ")" startColumn l
  else if Ascii.eqb char "{" then single LBRACE "{" startColumn l
  else if Ascii.eqb char "}" then single RBRACE "}" startColumn l
  else if Ascii.eqb char "," then single COMMA "," startColumn l
  else if Ascii.eqb char "." then single DOT "." startColumn l
  else single ILLEGAL (String char EmptyString) startColumn l.

Definition eofToken (l : t) : Token.t :=
  Token.mk EOF EmptyString (line l) (column l).

Fixpoint nextToken (fuel : nat) (l : t) : option (Token.t * t) :=
  match currentChar l with
  | None => Some (eofToken l, l)
  | Some _ =>
      l1 ← skipWhitespace fuel l;
      match currentChar l1 with
      | None => Some (eofToken l1, l1)
      | Some c =>
          if Ascii.eqb c "/" && isChar "/" (peek l1) then
            match fuel with
            | O => None
            | S fuel' => l2 ← skipComment fuel l1; nextToken fuel' l2
            end
          else if Ascii.eqb c newline then
            Some (Token.mk NEWLINE (String newline EmptyString) (line l1) (column l1),
                  advance l1)
          else if isDigit c then readNumber fuel l1
          else if Ascii.eqb c quote then readString fuel l1
          else if Ascii.eqb c "#" then readColor fuel l1
          else if isIdentStart c then readIdentifier fuel l1
          else Some (readOperator c l1)
      end
  end.

Fixpoint tokenizeLoop (fuel budget : nat) (tokens : list Token.t) (token : Token.t) (l : t)
  : option (list Token.t * t) :=
  if negb (sameType (Token.type token) EOF) then
    let tokens' :=
      if negb (sameType (Token.type token) NEWLINE) then tokens ++ [token] else tokens in
    match fuel with
    | O => None
    | S fuel' =>
        '(token', l') ← nextToken budget l;
        tokenizeLoop fuel' budget tokens' token' l'
    end
  else Some (tokens ++ [token], l).

(** The fuel handed to every loop: one more than the characters left. *)
Definition budget (l : t) : nat := S (String.length (input l) - position l).

Definition tokenize (l : t) : option (list Token.t) :=
  '(token, l1) ← nextToken (budget l) l;
  '(tokens, _) ← tokenizeLoop (budget l) (budget l) [] token l1;
  Some tokens.

(** *** Notions used to state the properties of the scan *)

(** Characters not yet passed. *)
Definition rest (l : t) : nat := String.length (input l) - position l.

(** [currentChar] is the character at [position]. *)
Definition synced (l : t) : Prop := currentChar l = String.get (position l) (input l).

(** [l'] is a later state of a scan of the same input. *)
Definition later (l l' : t) : Prop :=
  synced l' /\ input l' = input l /\ rest l' <= rest l.

Definition strictlyLater (l l' : t) : Prop :=
  synced l' /\ input l' = input l /\ rest l' < rest l.


(** A token the loop of [tokenize] keeps. *)
Definition kept (token : Token.t) : Prop :=
  Token.type token <> EOF /\ Token.type token <> NEWLINE.

(** *** Notions used to state what the tokens are like *)

(** How [nextToken] makes a token: the branch that returns it. *)
Inductive Scanned : Token.t -> Prop :=
| ScannedEnd (l : t) : Scanned (eofToken l)
| ScannedNewline (l : t) :
    Scanned (Token.mk NEWLINE (String newline EmptyString) (line l) (column l))
| ScannedNumber (fuel : nat) (l l' : t) (c : ascii) (token : Token.t) :
    currentChar l = Some c -> isDigit c = true ->
    readNumber fuel l = Some (token, l') -> Scanned token
| ScannedString (fuel : nat) (l l' : t) (token : Token.t) :
    readString fuel l = Some (token, l') -> Scanned token
| ScannedColor (fuel : nat) (l l' : t) (token : Token.t) :
    readColor fuel l = Some (token, l') -> Scanned token
| ScannedWord (fuel : nat) (l l' : t) (c : ascii) (token : Token.t) :
    currentChar l = Some c -> isIdentStart c = true ->
    readIdentifier fuel l = Some (token, l') -> Scanned token
| ScannedOperator (l : t) (c : ascii) : Scanned (fst (readOperator c l)).

Definition chars (s : string) : list ascii := list_ascii_of_string s.

Definition firstIs (test : ascii -> bool) (s : string) : bool :=
  match s with
  | String c _ => test c
  | EmptyString => false
  end.

(** Digits with at most one dot among them, a digit first. *)
Definition numberShape (s : string) : bool :=
  firstIs isDigit s
  && forallb (fun c => isDigit c || Ascii.eqb c ".") (chars s)
  && (length (List.filter (fun c => Ascii.eqb c ".") (chars s)) <=? 1).

(** [#] and then hexadecimal digits, any number of them. *)
Definition colorShape (s : string) : bool :=
  match s with
  | String c rest => Ascii.eqb c "#" && forallb isHexDigit (chars rest)
  | EmptyString => false
  end.

(** A letter or an underscore, then letters, digits and underscores. *)
Definition wordShape (s : string) : bool :=
  firstIs isIdentStart s && forallb isIdentPart (chars s).

(** The types of the tokens that are no words, and the text of the
    operators and delimiters. *)
Definition symbolTypes : list TokenType :=
  [ NUMBER; STRING; COLOR; PLUS; MINUS; MULTIPLY; DIVIDE; MODULO; ASSIGN; EQUAL;
    NOT_EQUAL; LESS_THAN; GREATER_THAN; LESS_EQUAL; GREATER_EQUAL; LPAREN; RPAREN;
    LBRACE; RBRACE; COMMA; DOT; NEWLINE; EOF; ILLEGAL ].

Definition operatorText (type : TokenType) : option string :=
  match type with
  | PLUS => Some "+" | MINUS => Some "-" | MULTIPLY => Some "*" | DIVIDE => Some "/"
  | MODULO => Some "%" | ASSIGN => Some "=" | EQUAL => Some "=="
  | NOT_EQUAL => Some "!=" | LESS_THAN => Some "<" | GREATER_THAN => Some ">"
  | LESS_EQUAL => Some "<=" | GREATER_EQUAL => Some ">=" | LPAREN => Some "("
  | RPAREN => Some ")" | LBRACE => Some "{" | RBRACE => Some "}" | COMMA => Some ","
  | DOT => Some "."
  | _ => None
  end.

Definition isWordType (type : TokenType) : bool :=
  negb (existsb (sameType type) symbolTypes).

(** What the text of a token is like, by the type of the token. *)
Definition tokenShape (token : Token.t) : bool :=
  match Token.type token with
  | NUMBER => numberShape (Token.value token)
  | COLOR => colorShape (Token.value token)
  | STRING | NEWLINE | EOF | ILLEGAL => true
  | type =>
      match operatorText type with
      | Some text => String.eqb (Token.value token) text
      | None =>
          wordShape (Token.value token)
          && sameType type (keywordOrIdentifier (toLowerCase (Token.value token)))
      end
  end.

(** The places [1 .. k] of [input] that hold a newline. *)
Definition newlinesThrough (input : string) (k : nat) : list nat :=
  List.filter (fun i => isChar newline (String.get i input)) (seq 1 k).

End Lexer.



(** ** Exceptions and outcomes *)

Inductive Exception : Type :=
| ParseError (message : string) (line column : nat)
| HostError (e : HostException).

(** [super(`Parse error at line ${line}, column ${column}: ${message}`)] *)
Definition parseErrorMessage (message : string) (line column : nat) : string :=
  "Parse error at line " +:+ numberText line +:+ ", column " +:+ numberText column
    +:+ ": " +:+ message.

Definition exceptionMessage `{Host} (e : Exception) : string :=
  match e with
  | ParseError message line column => parseErrorMessage message line column
  | HostError e => hostMessage e
  end.

Inductive Outcome (A : Type) : Type :=
| Returned (a : A)
| Thrown (e : Exception)
(** the fuel of the model ran out; the source has no such outcome *)
| Diverged.
Arguments Returned {A} a.
Arguments Thrown {A} e.
Arguments Diverged {A}.

(** ** ast/nodes.ts

    Every node carries [line] and [column]; the [type] tag is the
    constructor. [Move.direction] is the string the parser stores (one of
    the four literals of its declared type whenever the token comes from
    the lexer). The union [Expression] of the source also lists
    [AnimationCommand], which the parser never builds as an expression and
    for which neither [switch] over expressions has a case; it is left out
    of [Expression] here. *)

Module AST.

Record Identifier : Type := mkIdentifier {
  name : string; idLine : nat; idColumn : nat
}.

Section Nodes.
Context `{Host}.

Inductive Expression : Type :=
| IdentifierExpr (id : Identifier)
| NumberLiteral (value : Number) (line column : nat)
| StringLiteral (value : string) (line column : nat)
| ColorLiteral (value : string) (line column : nat)
| BinaryExpression (operator : string) (left right : Expression) (line column : nat)
| CallExpression (callee : Expression) (arguments : list Expression) (line column : nat)
| Circle (x y size color : Expression) (line column : nat)
| Rect (x y width height color : Expression) (line column : nat)
| Line (startX startY endX endY color : Expression) (line column : nat)
| Triangle (points : list (Expression * Expression)) (color : Expression)
    (line column : nat).

Inductive AnimationCommand : Type :=
| Move (amount : Expression) (direction : string) (line column : nat)
| Rotate (angle : Expression) (line column : nat)
| Scale (factor : Expression) (line column : nat)
| Fade (amount : Expression) (line column : nat).

Inductive Statement : Type :=
| LetStatement (identifier : Identifier) (value : Expression) (line column : nat)
| FunctionDeclaration (name : Identifier) (parameters : list Identifier)
    (body : list Statement) (line column : nat)
| ReturnStatement (value : option Expression) (line column : nat)
| IfStatement (condition : Expression) (thenBranch : list Statement)
    (elseBranch : option (list Statement)) (line column : nat)
| RepeatStatement (times : Expression) (body : list Statement) (line column : nat)
| AnimateBlock (animations : list AnimationCommand) (line column : nat)
| SceneBlock (name : string) (body : list Statement) (line column : nat)
| ExpressionStatement (expression : Expression) (line column : nat).

Record Program : Type := mkProgram {
  body : list Statement; line : nat; column : nat
}.

Definition exprLine (e : Expression) : nat :=
  match e with
  | IdentifierExpr id => idLine id
  | NumberLiteral _ l _ | StringLiteral _ l _ | ColorLiteral _ l _
  | BinaryExpression _ _ _ l _ | CallExpression _ _ l _
  | Circle _ _ _ _ l _ | Rect _ _ _ _ _ l _ | Line _ _ _ _ _ l _
  | Triangle _ _ l _ => l
  end.

Definition exprColumn (e : Expression) : nat :=
  match e with
  | IdentifierExpr id => idColumn id
  | NumberLiteral _ _ c | StringLiteral _ _ c | ColorLiteral _ _ c
  | BinaryExpression _ _ _ _ c | CallExpression _ _ _ c
  | Circle _ _ _ _ _ c | Rect _ _ _ _ _ _ c | Line _ _ _ _ _ _ c
  | Triangle _ _ _ c => c
  end.
End Nodes.

End AST.

(** ** Induction over the nodes *)

(** Induction over expressions, with the hypothesis for every operand of a
    call and every vertex of a triangle. *)
Section ExpressionInduction.
Context `{Host}.
Variable P : AST.Expression -> Prop.
Hypothesis identifier_case : forall id, P (AST.IdentifierExpr id).
Hypothesis number_case : forall value l c, P (AST.NumberLiteral value l c).
Hypothesis string_case : forall value l c, P (AST.StringLiteral value l c).
Hypothesis color_case : forall value l c, P (AST.ColorLiteral value l c).
Hypothesis binary_case : forall operator lhs rhs l c,
  P lhs -> P rhs -> P (AST.BinaryExpression operator lhs rhs l c).
Hypothesis call_case : forall callee arguments l c,
  P callee -> Forall P arguments -> P (AST.CallExpression callee arguments l c).
Hypothesis circle_case : forall x y size color l c,
  P x -> P y -> P size -> P color -> P (AST.Circle x y size color l c).
Hypothesis rect_case : forall x y width height color l c,
  P x -> P y -> P width -> P height -> P color -> P (AST.Rect x y width height color l c).
Hypothesis line_case : forall startX startY endX endY color l c,
  P startX -> P startY -> P endX -> P endY -> P color ->
  P (AST.Line startX startY endX endY color l c).
Hypothesis triangle_case : forall points color l c,
  Forall (fun point => P (fst point) /\ P (snd point)) points -> P color ->
  P (AST.Triangle points color l c).

Fixpoint Expression_induction (expr : AST.Expression) : P expr :=
  match expr with
  | AST.IdentifierExpr id => identifier_case id
  | AST.NumberLiteral value l c => number_case value l c
  | AST.StringLiteral value l c => string_case value l c
  | AST.ColorLiteral value l c => color_case value l c
  | AST.BinaryExpression operator lhs rhs l c =>
      binary_case operator lhs rhs l c (Expression_induction lhs) (Expression_induction rhs)
  | AST.CallExpression callee arguments l c =>
      call_case callee arguments l c (Expression_induction callee)
        ((fix all (args : list AST.Expression) : Forall P args :=
            match args with
            | [] => Forall_nil P
            | arg :: rest => Forall_cons P arg rest (Expression_induction arg) (all rest)
            end) arguments)
  | AST.Circle x y size color l c =>
      circle_case x y size color l c (Expression_induction x) (Expression_induction y)
        (Expression_induction size) (Expression_induction color)
  | AST.Rect x y width height color l c =>
      rect_case x y width height color l c (Expression_induction x) (Expression_induction y)
        (Expression_induction width) (Expression_induction height)
        (Expression_induction color)
  | AST.Line startX startY endX endY color l c =>
      line_case startX startY endX endY color l c (Expression_induction startX)
        (Expression_induction startY) (Expression_induction endX)
        (Expression_induction endY) (Expression_induction color)
  | AST.Triangle points color l c =>
      triangle_case points color l c
        ((fix all (pts : list (AST.Expression * AST.Expression))
            : Forall (fun point => P (fst point) /\ P (snd point)) pts :=
            match pts with
            | [] => Forall_nil _
            | pt :: rest =>
                Forall_cons _ pt rest
                  (conj (Expression_induction (fst pt)) (Expression_induction (snd pt)))
                  (all rest)
            end) points)
        (Expression_induction color)
  end.
End ExpressionInduction.

(** Induction over statements, with the hypothesis for every statement of
    a nested block. *)
Section StatementInduction.
Context `{Host}.
Variable P : AST.Statement -> Prop.
Hypothesis let_case : forall identifier value l c, P (AST.LetStatement identifier value l c).
Hypothesis function_case : forall name parameters body l c,
  Forall P body -> P (AST.FunctionDeclaration name parameters body l c).
Hypothesis return_case : forall value l c, P (AST.ReturnStatement value l c).
Hypothesis if_case : forall condition thenBranch elseBranch l c,
  Forall P thenBranch ->
  match elseBranch with Some stmts => Forall P stmts | None => True end ->
  P (AST.IfStatement condition thenBranch elseBranch l c).
Hypothesis repeat_case : forall times body l c,
  Forall P body -> P (AST.RepeatStatement times body l c).
Hypothesis animate_case : forall animations l c, P (AST.AnimateBlock animations l c).
Hypothesis scene_case : forall name body l c,
  Forall P body -> P (AST.SceneBlock name body l c).
Hypothesis expression_case : forall expression l c,
  P (AST.ExpressionStatement expression l c).

Fixpoint Statement_induction (stmt : AST.Statement) : P stmt :=
  let all :=
    fix all (stmts : list AST.Statement) : Forall P stmts :=
      match stmts with
      | [] => Forall_nil P
      | s :: rest => Forall_cons P s rest (Statement_induction s) (all rest)
      end in
  match stmt with
  | AST.LetStatement identifier value l c => let_case identifier value l c
  | AST.FunctionDeclaration name parameters body l c =>
      function_case name parameters body l c (all body)
  | AST.ReturnStatement value l c => return_case value l c
  | AST.IfStatement condition thenBranch elseBranch l c =>
      if_case condition thenBranch elseBranch l c (all thenBranch)
        (match elseBranch
           return match elseBranch with Some stmts => Forall P stmts | None => True end
         with
         | Some stmts => all stmts
         | None => I
         end)
  | AST.RepeatStatement times body l c => repeat_case times body l c (all body)
  | AST.AnimateBlock animations l c => animate_case animations l c
  | AST.SceneBlock name body l c => scene_case name body l c (all body)
  | AST.ExpressionStatement expression l c => expression_case expression l c
  end.
End StatementInduction.

(** ** parser/parser.ts *)

Module Parser.

Record t : Type := mk { tokens : list Token.t; current : nat }.

Definition new (tokens : list Token.t) : t := {| tokens := tokens; current := 0 |}.

(** A method body: the outcome and the parser as the call leaves it. *)
Definition M (A : Type) : Type := t -> Outcome A * t.

Definition ret {A} (a : A) : M A := fun p => (Returned a, p).
Definition throw {A} (e : Exception) : M A := fun p => (Thrown e, p).
Definition diverge {A} : M A := fun p => (Diverged, p).
Definition bind {A B} (m : M A) (k : A -> M B) : M B :=
  fun p =>
    match m p with
    | (Returned a, p') => k a p'
    | (Thrown e, p') => (Thrown e, p')
    | (Diverged, p') => (Diverged, p')
    end.

Declare Scope parser_scope.
Delimit Scope parser_scope with parser.
Notation "x <- m ;; k" := (bind m (fun x => k))
  (at level 100, m at next level, right associativity) : parser_scope.
Notation "m ;;; k" := (bind m (fun _ => k))
  (at level 100, right associativity) : parser_scope.
Local Open Scope parser_scope.

(** Reading a property of [undefined] raises the host's TypeError. *)
Definition defined {A} (property : string) (o : option A) : M A :=
  match o with
  | Some a => ret a
  | None => throw (HostError (TypeErrorUndefined property))
  end.

(** [tokens[current]]; every caller reads [.type] of the result first. *)
Definition peek : M Token.t :=
  fun p => defined "type" (nth_error (tokens p) (current p)) p.

(** [tokens[current - 1]], [undefined] when there is no such element. *)
Definition previousToken (p : t) : option Token.t :=
  match current p with
  | O => None
  | S i => nth_error (tokens p) i
  end.

(** [previous()] where the caller goes on to read a field of the token. *)
Definition previous : M Token.t :=
  fun p => defined "type" (previousToken p) p.

Definition isAtEnd : M bool :=
  token <- peek ;; ret (sameType (Token.type token) EOF).

Definition advance : M (option Token.t) :=
  atEnd <- isAtEnd ;;
  fun p =>
    let p' := if atEnd then p else {| tokens := tokens p; current := S (current p) |} in
    (Returned (previousToken p'), p').

Definition check (type : TokenType) : M bool :=
  atEnd <- isAtEnd ;;
  if atEnd then ret false
  else token <- peek ;; ret (sameType (Token.type token) type).

Fixpoint match_ (types : list TokenType) : M bool :=
  match types with
  | [] => ret false
  | type :: rest =>
      found <- check type ;;
      if found then advance ;;; ret true else match_ rest
  end.

Definition consume (type : TokenType) (message : string) : M Token.t :=
  found <- check type ;;
  if found then token <- advance ;; defined "value" token
  else
    token <- peek ;;
    throw (ParseError message (Token.line token) (Token.column token)).

Section Grammar.
Context `{Host}.

Definition identifierOf (token : Token.t) : AST.Identifier :=
  AST.mkIdentifier (Token.value token) (Token.line token) (Token.column token).

(** *** Expressions

    The methods [expression], [comparison], [additive],
    [multiplicative], [call], [shape], the four shape readers and
    [primary] call each other; each is written over the parser
    [expression] it calls for a nested expression, and the knot is
    tied by [expression] below. *)

Section Level.
Variable expression : M AST.Expression.

Definition primary : M AST.Expression :=
  isNumber <- match_ [NUMBER] ;;
  if isNumber then
    token <- previous ;;
    ret (AST.NumberLiteral (parseFloat (Token.value token))
           (Token.line token) (Token.column token))
  else
  isString <- match_ [STRING] ;;
  if isString then
    token <- previous ;;
    ret (AST.StringLiteral (Token.value token) (Token.line token) (Token.column token))
  else
  isColor <- match_ [COLOR] ;;
  if isColor then
    token <- previous ;;
    ret (AST.ColorLiteral (Token.value token) (Token.line token) (Token.column token))
  else
  isIdentifier <- match_ [IDENTIFIER] ;;
  if isIdentifier then
    token <- previous ;;
    ret (AST.IdentifierExpr (identifierOf token))
  else
  isParen <- match_ [LPAREN] ;;
  if isParen then
    expr <- expression ;;
    consume RPAREN "Expected ) after expression" ;;;
    ret expr
  else
    token <- peek ;;
    throw (ParseError ("Unexpected token: " +:+ Token.value token)
             (Token.line token) (Token.column token)).

Definition position (openMessage closeMessage : string)
  : M (AST.Expression * AST.Expression) :=
  consume LPAREN openMessage ;;;
  x <- expression ;;
  consume COMMA "Expected , in position" ;;;
  y <- expression ;;
  consume RPAREN closeMessage ;;;
  ret (x, y).

Definition circle : M AST.Expression :=
  token <- previous ;;
  consume AT ("Expected " +:+ String quote "at" +:+ String quote " after circle") ;;;
  xy <- position "Expected ( for position" "Expected ) after position" ;;
  consume SIZE ("Expected " +:+ String quote "size" +:+ String quote " keyword") ;;;
  size <- expression ;;
  consume COLOR_PROP
    ("Expected " +:+ String quote "color" +:+ String quote " keyword") ;;;
  color <- expression ;;
  ret (AST.Circle (fst xy) (snd xy) size color (Token.line token) (Token.column token)).

Definition rect : M AST.Expression :=
  token <- previous ;;
  consume AT ("Expected " +:+ String quote "at" +:+ String quote " after rect") ;;;
  xy <- position "Expected ( for position" "Expected ) after position" ;;
  consume WIDTH ("Expected " +:+ String quote "width" +:+ String quote " keyword") ;;;
  width <- expression ;;
  consume HEIGHT
    ("Expected " +:+ String quote "height" +:+ String quote " keyword") ;;;
  height <- expression ;;
  consume COLOR_PROP
    ("Expected " +:+ String quote "color" +:+ String quote " keyword") ;;;
  color <- expression ;;
  ret (AST.Rect (fst xy) (snd xy) width height color
         (Token.line token) (Token.column token)).

Definition line : M AST.Expression :=
  token <- previous ;;
  p1 <- position "Expected ( for start position" "Expected ) after start position" ;;
  p2 <- position "Expected ( for end position" "Expected ) after end position" ;;
  consume COLOR_PROP
    ("Expected " +:+ String quote "color" +:+ String quote " keyword") ;;;
  color <- expression ;;
  ret (AST.Line (fst p1) (snd p1) (fst p2) (snd p2) color
         (Token.line token) (Token.column token)).

Definition point : M (AST.Expression * AST.Expression) :=
  consume LPAREN "Expected ( for point" ;;;
  x <- expression ;;
  consume COMMA "Expected , in point" ;;;
  y <- expression ;;
  consume RPAREN "Expected ) after point" ;;;
  ret (x, y).

(** [for (let i = 0; i < 3; i++)] *)
Fixpoint trianglePoints (count : nat) (points : list (AST.Expression * AST.Expression))
  : M (list (AST.Expression * AST.Expression)) :=
  match count with
  | O => ret points
  | S count' => xy <- point ;; trianglePoints count' (points ++ [xy])
  end.

Definition triangle : M AST.Expression :=
  token <- previous ;;
  points <- trianglePoints 3 [] ;;
  consume COLOR_PROP
    ("Expected " +:+ String quote "color" +:+ String quote " keyword") ;;;
  color <- expression ;;
  ret (AST.Triangle points color (Token.line token) (Token.column token)).

Definition shape : M AST.Expression :=
  isCircle <- match_ [CIRCLE] ;;
  if isCircle then circle else
  isRect <- match_ [RECT] ;;
  if isRect then rect else
  isLine <- match_ [LINE] ;;
  if isLine then line else
  isTriangle <- match_ [TRIANGLE] ;;
  if isTriangle then triangle else
  primary.

(** [do { args.push(this.expression()) } while (this.match(COMMA))] *)
Fixpoint argumentsLoop (fuel : nat) (args : list AST.Expression)
  : M (list AST.Expression) :=
  arg <- expression ;;
  more <- match_ [COMMA] ;;
  if more then
    match fuel with
    | O => diverge
    | S fuel' => argumentsLoop fuel' (args ++ [arg])
    end
  else ret (args ++ [arg]).

Definition call (fuel : nat) : M AST.Expression :=
  expr <- shape ;;
  isCall <- match_ [LPAREN] ;;
  if isCall then
    closes <- check RPAREN ;;
    args <- (if negb closes then argumentsLoop fuel [] else ret []) ;;
    consume RPAREN "Expected ) after arguments" ;;;
    ret (AST.CallExpression expr args (AST.exprLine expr) (AST.exprColumn expr))
  else ret expr.

(** The loop shared, up to the operator set and the operand method,
    by [comparison], [additive] and [multiplicative]:
    [while (this.match(...ops)) { operator = previous(); right = operand(); expr = {...} }] *)
Fixpoint binaryLoop (fuel : nat) (ops : list TokenType) (operand : M AST.Expression)
  (expr : AST.Expression) : M AST.Expression :=
  found <- match_ ops ;;
  if found then
    match fuel with
    | O => diverge
    | S fuel' =>
        operator <- previous ;;
        right <- operand ;;
        binaryLoop fuel' ops operand
          (AST.BinaryExpression (Token.value operator) expr right
             (Token.line operator) (Token.column operator))
    end
  else ret expr.

Definition multiplicative (fuel : nat) : M AST.Expression :=
  expr <- call fuel ;;
  binaryLoop fuel [MULTIPLY; DIVIDE; MODULO] (call fuel) expr.

Definition additive (fuel : nat) : M AST.Expression :=
  expr <- multiplicative fuel ;;
  binaryLoop fuel [PLUS; MINUS] (multiplicative fuel) expr.

Definition comparison (fuel : nat) : M AST.Expression :=
  expr <- additive fuel ;;
  binaryLoop fuel
    [GREATER_THAN; GREATER_EQUAL; LESS_THAN; LESS_EQUAL; EQUAL; NOT_EQUAL]
    (additive fuel) expr.
End Level.

(** [fuel] bounds the nesting of expressions and the iterations of each
    loop of the expression grammar. *)
Fixpoint expression (fuel : nat) : M AST.Expression :=
  match fuel with
  | O => diverge
  | S fuel' => comparison (expression fuel') fuel'
  end.

(** *** Statements

    [n] is the fuel handed to the expression grammar. *)

Section Statements.
Variable n : nat.

Definition letStatement : M AST.Statement :=
  token <- previous ;;
  name <- consume IDENTIFIER "Expected variable name" ;;
  consume ASSIGN "Expected = after variable name" ;;;
  value <- expression n ;;
  ret (AST.LetStatement (identifierOf name) value
         (Token.line token) (Token.column token)).

Definition returnStatement : M AST.Statement :=
  token <- previous ;;
  atEnd <- isAtEnd ;;
  next <- peek ;;
  value <- (if negb atEnd && negb (sameType (Token.type next) RBRACE)
            then e <- expression n ;; ret (Some e)
            else ret None) ;;
  ret (AST.ReturnStatement value (Token.line token) (Token.column token)).

Definition moveCommand : M AST.AnimationCommand :=
  token <- previous ;;
  amount <- primary (expression n) ;;
  found <- match_ [UP; DOWN; LEFT; RIGHT] ;;
  direction <- (if found
                then word <- previous ;; ret (toLowerCase (Token.value word))
                else ret "right") ;;
  ret (AST.Move amount direction (Token.line token) (Token.column token)).

Definition rotateCommand : M AST.AnimationCommand :=
  token <- previous ;;
  angle <- primary (expression n) ;;
  ret (AST.Rotate angle (Token.line token) (Token.column token)).

Definition scaleCommand : M AST.AnimationCommand :=
  token <- previous ;;
  factor <- primary (expression n) ;;
  ret (AST.Scale factor (Token.line token) (Token.column token)).

Definition fadeCommand : M AST.AnimationCommand :=
  token <- previous ;;
  amount <- primary (expression n) ;;
  ret (AST.Fade amount (Token.line token) (Token.column token)).

(** [!this.check(RBRACE) && !this.isAtEnd()] *)
Definition insideBlock : M bool :=
  closes <- check RBRACE ;;
  if closes then ret false else atEnd <- isAtEnd ;; ret (negb atEnd).

Fixpoint animateLoop (fuel : nat) (animations : list AST.AnimationCommand)
  : M (list AST.AnimationCommand) :=
  inside <- insideBlock ;;
  if inside then
    match fuel with
    | O => diverge
    | S fuel' =>
        isMove <- match_ [MOVE] ;;
        if isMove then
          cmd <- moveCommand ;; animateLoop fuel' (animations ++ [cmd])
        else
        isRotate <- match_ [ROTATE] ;;
        if isRotate then
          cmd <- rotateCommand ;; animateLoop fuel' (animations ++ [cmd])
        else
        isScale <- match_ [SCALE] ;;
        if isScale then
          cmd <- scaleCommand ;; animateLoop fuel' (animations ++ [cmd])
        else
        isFade <- match_ [FADE] ;;
        if isFade then
          cmd <- fadeCommand ;; animateLoop fuel' (animations ++ [cmd])
        else
          advance ;;; animateLoop fuel' animations
    end
  else ret animations.

Definition animateBlock (fuel : nat) : M AST.Statement :=
  token <- previous ;;
  consume LBRACE "Expected { after animate" ;;;
  animations <- animateLoop fuel [] ;;
  consume RBRACE "Expected } after animate block" ;;;
  ret (AST.AnimateBlock animations (Token.line token) (Token.column token)).

Definition expressionStatement : M AST.Statement :=
  expr <- expression n ;;
  ret (AST.ExpressionStatement expr (AST.exprLine expr) (AST.exprColumn expr)).

(** [do { param = consume(IDENTIFIER); parameters.push(...) } while (match(COMMA))] *)
Fixpoint parametersLoop (fuel : nat) (parameters : list AST.Identifier)
  : M (list AST.Identifier) :=
  param <- consume IDENTIFIER "Expected parameter name" ;;
  more <- match_ [COMMA] ;;
  if more then
    match fuel with
    | O => diverge
    | S fuel' => parametersLoop fuel' (parameters ++ [identifierOf param])
    end
  else ret (parameters ++ [identifierOf param]).

Section Nested.
(** [statement] as called for the statements of a block; it always
    returns a node, so [if (stmt) body.push(stmt)] always pushes. *)
Variable statement : M AST.Statement.

Fixpoint blockLoop (fuel : nat) (body : list AST.Statement)
  : M (list AST.Statement) :=
  inside <- insideBlock ;;
  if inside then
    match fuel with
    | O => diverge
    | S fuel' => stmt <- statement ;; blockLoop fuel' (body ++ [stmt])
    end
  else ret body.

Definition functionDeclaration (fuel : nat) : M AST.Statement :=
  token <- previous ;;
  name <- consume IDENTIFIER "Expected function name" ;;
  consume LPAREN "Expected ( after function name" ;;;
  closes <- check RPAREN ;;
  parameters <- (if negb closes then parametersLoop fuel [] else ret []) ;;
  consume RPAREN "Expected ) after parameters" ;;;
  consume LBRACE "Expected { before function body" ;;;
  body <- blockLoop fuel [] ;;
  consume RBRACE "Expected } after function body" ;;;
  ret (AST.FunctionDeclaration (identifierOf name) parameters body
         (Token.line token) (Token.column token)).

Definition ifStatement (fuel : nat) : M AST.Statement :=
  token <- previous ;;
  condition <- expression n ;;
  consume LBRACE "Expected { after if condition" ;;;
  thenBranch <- blockLoop fuel [] ;;
  consume RBRACE "Expected } after if body" ;;;
  hasElse <- match_ [ELSE] ;;
  elseBranch <- (if hasElse then
                   consume LBRACE "Expected { after else" ;;;
                   stmts <- blockLoop fuel [] ;;
                   consume RBRACE "Expected } after else body" ;;;
                   ret (Some stmts)
                 else ret None) ;;
  ret (AST.IfStatement condition thenBranch elseBranch
         (Token.line token) (Token.column token)).

Definition repeatStatement (fuel : nat) : M AST.Statement :=
  token <- previous ;;
  times <- expression n ;;
  consume LBRACE "Expected { after repeat count" ;;;
  body <- blockLoop fuel [] ;;
  consume RBRACE "Expected } after repeat body" ;;;
  ret (AST.RepeatStatement times body (Token.line token) (Token.column token)).

Definition sceneBlock (fuel : nat) : M AST.Statement :=
  token <- previous ;;
  name <- consume IDENTIFIER "Expected scene name" ;;
  consume LBRACE "Expected { after scene name" ;;;
  body <- blockLoop fuel [] ;;
  consume RBRACE "Expected } after scene body" ;;;
  ret (AST.SceneBlock (Token.value name) body
         (Token.line token) (Token.column token)).

Definition dispatch (fuel : nat) : M AST.Statement :=
  isLet <- match_ [LET] ;;
  if isLet then letStatement else
  isFn <- match_ [FN] ;;
  if isFn then functionDeclaration fuel else
  isReturn <- match_ [RETURN] ;;
  if isReturn then returnStatement else
  isIf <- match_ [IF] ;;
  if isIf then ifStatement fuel else
  isRepeat <- match_ [REPEAT] ;;
  if isRepeat then repeatStatement fuel else
  isAnimate <- match_ [ANIMATE] ;;
  if isAnimate then animateBlock fuel else
  isScene <- match_ [SCENE] ;;
  if isScene then sceneBlock fuel else
  expressionStatement.
End Nested.

(** [fuel] bounds the nesting of blocks and the iterations of each
    loop over statements, parameters and animation commands. *)
Fixpoint statement (fuel : nat) : M AST.Statement :=
  match fuel with
  | O => diverge
  | S fuel' => dispatch (statement fuel') fuel'
  end.

Definition startsStatement (type : TokenType) : bool :=
  existsb (sameType type) [LET; FN; IF; REPEAT; ANIMATE; SCENE; RETURN].

Fixpoint synchronizeLoop (fuel : nat) : M unit :=
  atEnd <- isAtEnd ;;
  if atEnd then ret tt
  else
    last <- previous ;;
    if sameType (Token.type last) NEWLINE then ret tt
    else
      next <- peek ;;
      if startsStatement (Token.type next) then ret tt
      else
        match fuel with
        | O => diverge
        | S fuel' => advance ;;; synchronizeLoop fuel'
        end.

Definition synchronize (fuel : nat) : M unit :=
  advance ;;; synchronizeLoop fuel.

(** [console] collects what [console.error] printed. The [catch]
    handles a [ParseError] and rethrows anything else. *)
Fixpoint parseLoop (fuel : nat) (statements : list AST.Statement)
  (console : list string) (p : t)
  : Outcome (list AST.Statement) * list string * t :=
  match isAtEnd p with
  | (Returned false, _) =>
      match fuel with
      | O => (Diverged, console, p)
      | S fuel' =>
          match statement n p with
          | (Returned stmt, p1) => parseLoop fuel' (statements ++ [stmt]) console p1
          | (Thrown (ParseError message line column), p1) =>
              let console' := console ++ [parseErrorMessage message line column] in
              match synchronize n p1 with
              | (Returned _, p2) => parseLoop fuel' statements console' p2
              | (Thrown e, p2) => (Thrown e, console', p2)
              | (Diverged, p2) => (Diverged, console', p2)
              end
          | (Thrown e, p1) => (Thrown e, console, p1)
          | (Diverged, p1) => (Diverged, console, p1)
          end
      end
  | (Returned true, _) => (Returned statements, console, p)
  | (Thrown e, _) => (Thrown e, console, p)
  | (Diverged, _) => (Diverged, console, p)
  end.
End Statements.

(** One more than the number of tokens is enough fuel for every loop
    and every nesting: each of them consumes a token per round. *)
Definition budget (p : t) : nat := S (length (tokens p)).

Definition parse (p : t) : Outcome AST.Program * list string :=
  match parseLoop (budget p) (budget p) [] [] p with
  | (Returned statements, console, _) =>
      (Returned (AST.mkProgram statements 1 1), console)
  | (Thrown e, console, _) => (Thrown e, console)
  | (Diverged, console, _) => (Diverged, console)
  end.
End Grammar.

(** *** Notions used to state the properties of the parser *)

(** The token under the cursor. *)
Definition facing (p : t) (token : Token.t) : Prop :=
  nth_error (tokens p) (current p) = Some token.

(** The parser with the cursor [k] tokens further. *)
Definition moved (k : nat) (p : t) : t :=
  {| tokens := tokens p; current := k + current p |}.

Definition oneOf (types : list TokenType) (token : Token.t) : bool :=
  existsb (sameType (Token.type token)) types.


(** Tokens after which an operand goes on: a call's parenthesis or an
    operator that binds tighter than a comparison. *)
Definition continuesOperand : list TokenType :=
  [LPAREN; MULTIPLY; DIVIDE; MODULO; PLUS; MINUS].

(** The tokens from the cursor on start with [ts]. *)
Fixpoint ahead (ts : list Token.t) (p : t) : Prop :=
  match ts with
  | [] => True
  | token :: rest => facing p token /\ ahead rest (moved 1 p)
  end.

(** A chain [first op1 x1 op2 x2 ...] of identifiers joined by operators:
    its tokens after the first, and the tree that nests every operator
    application to the left. *)
Fixpoint chainTokens (links : list (Token.t * Token.t)) : list Token.t :=
  match links with
  | [] => []
  | (operator, operand) :: rest => operator :: operand :: chainTokens rest
  end.

Definition chainTree `{Host} (first : Token.t) (links : list (Token.t * Token.t))
  : AST.Expression :=
  fold_left
    (fun expr link =>
       AST.BinaryExpression (Token.value (fst link)) expr
         (AST.IdentifierExpr (identifierOf (snd link)))
         (Token.line (fst link)) (Token.column (fst link)))
    links (AST.IdentifierExpr (identifierOf first)).

(** The cursor of [p] is at or after [c] and at or before [e], the place
    of the first end-of-input token of [T]. *)
Definition inside (T : list Token.t) (e c : nat) (p : t) : Prop :=
  tokens p = T /\ c <= current p /\ current p <= e.

(** [m], started in [p], returns with [Q], or throws a [ParseError] with
    the cursor still inside; it neither throws anything else nor runs out
    of fuel. *)
Definition safe (T : list Token.t) (e c : nat) {A : Type} (m : M A) (p : t)
  (Q : A -> t -> Prop) : Prop :=
  match m p with
  | (Returned a, p') => Q a p'
  | (Thrown (ParseError _ _ _), p') => inside T e c p'
  | (Thrown (HostError _), _) => False
  | (Diverged, _) => False
  end.

(** The cursor after a call is past, or not before, the cursor before it. *)
Definition advances (T : list Token.t) (e : nat) {A : Type} (p : t) : A -> t -> Prop :=
  fun _ p' => inside T e (S (current p)) p'.
Definition keeps (T : list Token.t) (e : nat) {A : Type} (p : t) : A -> t -> Prop :=
  fun _ p' => inside T e (current p) p'.

(** The cursor stands at the end of input or at the first token of a
    statement: where recovery stops when it has not just passed a newline
    token. *)
Definition resumes (p : t) : Prop :=
  exists next, facing p next /\
    (sameType (Token.type next) EOF || startsStatement (Token.type next)) = true.

(** [m] throws no [ParseError]. *)
Definition quiet {A : Type} (m : M A) : Prop :=
  forall p, match m p with
            | (Thrown (ParseError _ _ _), _) => False
            | _ => True
            end.

(** *** Notions used to state how the levels of the expression grammar nest *)

Section Levels.
Context `{Host}.

(** [operand] reads the tokens [ts] as [tree] whenever the token after
    them is none of [continues]. *)
Definition reads (continues : list TokenType) (operand : M AST.Expression)
  (ts : list Token.t) (tree : AST.Expression) : Prop :=
  forall (p : t) (next : Token.t),
    ahead (ts ++ [next]) p -> oneOf continues next = false ->
    operand p = (Returned tree, moved (length ts) p).

(** Operands joined by operators: each link is an operator token with the
    tokens and the tree of the operand after it. *)
Definition Link : Type := Token.t * (list Token.t * AST.Expression).

Definition linkTokens (links : list Link) : list Token.t :=
  flat_map (fun link => fst link :: fst (snd link)) links.

Definition linkTree (first : AST.Expression) (links : list Link) : AST.Expression :=
  fold_left
    (fun expr link =>
       AST.BinaryExpression (Token.value (fst link)) expr (snd (snd link))
         (Token.line (fst link)) (Token.column (fst link)))
    links first.

(** A product [x0 * x1 / x2 ...] of identifiers and a sum of products. *)
Definition Product : Type := Token.t * list (Token.t * Token.t).

Definition productTokens (product : Product) : list Token.t :=
  fst product :: chainTokens (snd product).

Definition productTree (product : Product) : AST.Expression :=
  chainTree (fst product) (snd product).

Definition isProduct (product : Product) : Prop :=
  Token.type (fst product) = IDENTIFIER /\
  Forall (fun link => oneOf [MULTIPLY; DIVIDE; MODULO] (fst link) = true /\
                      Token.type (snd link) = IDENTIFIER) (snd product).

Definition sumTokens (first : Product) (terms : list (Token.t * Product)) : list Token.t :=
  productTokens first ++ flat_map (fun term => fst term :: productTokens (snd term)) terms.

Definition sumTree (first : Product) (terms : list (Token.t * Product)) : AST.Expression :=
  fold_left
    (fun expr term =>
       AST.BinaryExpression (Token.value (fst term)) expr (productTree (snd term))
         (Token.line (fst term)) (Token.column (fst term)))
    terms (productTree first).

(** The links of a product and of a sum. *)
Definition productLinks (links : list (Token.t * Token.t)) : list Link :=
  map (fun link => (fst link, ([snd link], AST.IdentifierExpr (identifierOf (snd link)))))
    links.

Definition sumLinks (terms : list (Token.t * Product)) : list Link :=
  map (fun term => (fst term, (productTokens (snd term), productTree (snd term)))) terms.
End Levels.
End Parser.

(** ** semantic/analyzer.ts *)

Module SemanticError.
(** [message] is the text the constructor hands to [Error]. *)
Record t : Type := mk { message : string; line : nat; column : nat }.

Definition new (message : string) (line column : nat) : t :=
  {| message := "Semantic error at line " +:+ numberText line +:+ ", column "
                  +:+ numberText column +:+ ": " +:+ message;
     line := line; column := column |}.
End SemanticError.

Module Symbol.
Record t : Type := mk { type : string; line : nat; column : nat }.
End Symbol.

Module SemanticAnalyzer.

Record t : Type := mk {
  scopes : list (gmap string Symbol.t);
  errors : list SemanticError.t
}.

Definition enterScope (a : t) : t :=
  {| scopes := scopes a ++ [∅]; errors := errors a |}.

Definition exitScope (a : t) : t :=
  {| scopes := removelast (scopes a); errors := errors a |}.

(** [scopes[scopes.length - 1]], [undefined] on an empty stack. *)
Definition currentScope (a : t) : option (gmap string Symbol.t) :=
  scopes a !! (length (scopes a) - 1).

(** The constructor: an analyzer with the global scope entered. *)
Definition new : t := enterScope {| scopes := []; errors := [] |}.

(** Truthiness of [scope[name]]: an own entry is an object, and a name
    inherited from [Object.prototype] is found as well. *)
Definition has (scope : gmap string Symbol.t) (name : string) : bool :=
  bool_decide (is_Some (scope !! name)) || inheritedKey name.

Definition pushError (message : string) (line column : nat) (a : t) : t :=
  {| scopes := scopes a;
     errors := errors a ++ [SemanticError.new message line column] |}.

(** [scope[name] = {...}] on the innermost scope. *)
Definition setCurrent (scope : gmap string Symbol.t) (a : t) : t :=
  {| scopes := removelast (scopes a) ++ [scope]; errors := errors a |}.

Definition declare (name type : string) (line column : nat) (a : t) : Outcome t :=
  match currentScope a with
  | None => Thrown (HostError (TypeErrorUndefined name))
  | Some scope =>
      if has scope name then
        Returned (pushError ("Variable '" +:+ name +:+ "' is already declared in this scope")
                    line column a)
      else
        Returned (setCurrent (<[name := Symbol.mk type line column]> scope) a)
  end.

(** [for (let i = scopes.length - 1; i >= 0; i--)]; the value found is
    dropped by the only caller, so the result is the analyzer. *)
Definition resolve (name : string) (line column : nat) (a : t) : t :=
  if existsb (fun scope => has scope name) (rev (scopes a)) then a
  else pushError ("Undefined variable '" +:+ name +:+ "'") line column a.

Definition andThen (r : Outcome t) (k : t -> Outcome t) : Outcome t :=
  match r with
  | Returned a => k a
  | Thrown e => Thrown e
  | Diverged => Diverged
  end.

(** [for (const item of items) f(item)] over the analyzer; an exception
    ends the loop. *)
Fixpoint forEach {A : Type} (f : A -> t -> Outcome t) (items : list A) (a : t)
  : Outcome t :=
  match items with
  | [] => Returned a
  | item :: rest => andThen (f item a) (forEach f rest)
  end.

Section Analysis.
Context `{Host}.

Fixpoint analyzeExpression (expr : AST.Expression) (a : t) : t :=
  match expr with
  | AST.IdentifierExpr id => resolve (AST.name id) (AST.idLine id) (AST.idColumn id) a
  | AST.BinaryExpression _ lhs rhs _ _ =>
      analyzeExpression rhs (analyzeExpression lhs a)
  | AST.CallExpression callee arguments _ _ =>
      fold_left (fun a arg => analyzeExpression arg a) arguments
        (analyzeExpression callee a)
  | AST.Circle x y size color _ _ =>
      analyzeExpression color (analyzeExpression size
        (analyzeExpression y (analyzeExpression x a)))
  | AST.Rect x y width height color _ _ =>
      analyzeExpression color (analyzeExpression height (analyzeExpression width
        (analyzeExpression y (analyzeExpression x a))))
  | AST.Line startX startY endX endY color _ _ =>
      analyzeExpression color (analyzeExpression endY (analyzeExpression endX
        (analyzeExpression startY (analyzeExpression startX a))))
  | AST.Triangle points color _ _ =>
      analyzeExpression color
        (fold_left (fun a point =>
                      analyzeExpression (snd point) (analyzeExpression (fst point) a))
           points a)
  | AST.NumberLiteral _ _ _ | AST.StringLiteral _ _ _ | AST.ColorLiteral _ _ _ => a
  end.

Definition analyzeLetStatement (identifier : AST.Identifier) (value : AST.Expression)
  (a : t) : Outcome t :=
  declare (AST.name identifier) "variable" (AST.idLine identifier)
    (AST.idColumn identifier) (analyzeExpression value a).

Definition declareParameters (parameters : list AST.Identifier) (a : t) : Outcome t :=
  forEach
    (fun param => declare (AST.name param) "parameter" (AST.idLine param) (AST.idColumn param))
    parameters a.

Fixpoint analyzeStatement (stmt : AST.Statement) (a : t) : Outcome t :=
  let analyzeAll := forEach analyzeStatement in
  match stmt with
  | AST.LetStatement identifier value _ _ => analyzeLetStatement identifier value a
  | AST.FunctionDeclaration name parameters body _ _ =>
      (* analyzeFunctionDeclaration *)
      andThen (declare (AST.name name) "function" (AST.idLine name) (AST.idColumn name) a)
        (fun a1 =>
           andThen (declareParameters parameters (enterScope a1))
             (fun a2 => andThen (analyzeAll body a2) (fun a3 => Returned (exitScope a3))))
  | AST.ReturnStatement value _ _ =>
      match value with
      | Some e => Returned (analyzeExpression e a)
      | None => Returned a
      end
  | AST.IfStatement condition thenBranch elseBranch _ _ =>
      andThen (analyzeAll thenBranch (analyzeExpression condition a))
        (fun a1 =>
           match elseBranch with
           | Some stmts => analyzeAll stmts a1
           | None => Returned a1
           end)
  | AST.RepeatStatement times body _ _ =>
      analyzeAll body (analyzeExpression times a)
  | AST.AnimateBlock _ _ _ => Returned a
  | AST.SceneBlock _ body _ _ =>
      andThen (analyzeAll body (enterScope a)) (fun a1 => Returned (exitScope a1))
  | AST.ExpressionStatement expression _ _ => Returned (analyzeExpression expression a)
  end.

Definition analyzeStatements (stmts : list AST.Statement) (a : t) : Outcome t :=
  forEach analyzeStatement stmts a.

(** [this.errors = []] and then the statements in order; the result is
    the error list together with the analyzer it leaves. *)
Definition analyze (program : AST.Program) (a : t)
  : Outcome (list SemanticError.t * t) :=
  match analyzeStatements (AST.body program) {| scopes := scopes a; errors := [] |} with
  | Returned a' => Returned (errors a', a')
  | Thrown e => Thrown e
  | Diverged => Diverged
  end.
End Analysis.

(** *** Notions used to state the properties of the analysis *)

Definition depth (a : t) : nat := length (scopes a).

(** [f] returns whenever the scope stack is not empty, and leaves it as
    deep as it was. *)
Definition steady (f : t -> Outcome t) : Prop :=
  forall a, 0 < depth a -> exists a', f a = Returned a' /\ depth a' = depth a.

(** [a'] holds the errors of [a], in their order, and possibly more after
    them. *)
Definition extends (a a' : t) : Prop := errors a `prefix_of` errors a'.

(** [f] removes no error. *)
Definition growing (f : t -> Outcome t) : Prop :=
  forall a a', f a = Returned a' -> extends a a'.
(** *** Notions used to state what the analysis reports *)

Section Notions.
Context `{Host}.

(** The test of [resolve]: some scope of the stack holds [name]. *)
Definition visible (a : t) (name : string) : bool :=
  existsb (fun scope => has scope name) (rev (scopes a)).

(** The identifier nodes of an expression, in the order [analyzeExpression]
    visits them. *)
Fixpoint identifiersOf (expr : AST.Expression) : list AST.Identifier :=
  match expr with
  | AST.IdentifierExpr id => [id]
  | AST.BinaryExpression _ lhs rhs _ _ => identifiersOf lhs ++ identifiersOf rhs
  | AST.CallExpression callee arguments _ _ =>
      identifiersOf callee ++ flat_map identifiersOf arguments
  | AST.Circle x y size color _ _ =>
      identifiersOf x ++ identifiersOf y ++ identifiersOf size ++ identifiersOf color
  | AST.Rect x y width height color _ _ =>
      identifiersOf x ++ identifiersOf y ++ identifiersOf width ++ identifiersOf height
        ++ identifiersOf color
  | AST.Line startX startY endX endY color _ _ =>
      identifiersOf startX ++ identifiersOf startY ++ identifiersOf endX
        ++ identifiersOf endY ++ identifiersOf color
  | AST.Triangle points color _ _ =>
      flat_map (fun point => identifiersOf (fst point) ++ identifiersOf (snd point)) points
        ++ identifiersOf color
  | AST.NumberLiteral _ _ _ | AST.StringLiteral _ _ _ | AST.ColorLiteral _ _ _ => []
  end.

Definition undefinedVariable (id : AST.Identifier) : SemanticError.t :=
  SemanticError.new ("Undefined variable '" +:+ AST.name id +:+ "'")
    (AST.idLine id) (AST.idColumn id).

Definition alreadyDeclared (id : AST.Identifier) : SemanticError.t :=
  SemanticError.new ("Variable '" +:+ AST.name id +:+ "' is already declared in this scope")
    (AST.idLine id) (AST.idColumn id).

(** The errors the use of [ids] adds in [a]. *)
Definition unresolved (a : t) (ids : list AST.Identifier) : list SemanticError.t :=
  map undefinedVariable (List.filter (fun id => negb (visible a (AST.name id))) ids).

(** An error the analyzer can report: one of its two kinds, at an
    identifier. *)
Definition known (e : SemanticError.t) : Prop :=
  exists id : AST.Identifier, e = undefinedVariable id \/ e = alreadyDeclared id.

(** [f] returns whenever the scope stack is not empty; it leaves the stack
    as deep as it was and every scope under the innermost one as it was, and
    it adds errors of the two kinds after those already there. *)
Definition orderly (f : t -> Outcome t) : Prop :=
  forall a, 0 < depth a ->
    exists a' more,
      f a = Returned a' /\ depth a' = depth a /\
      removelast (scopes a') = removelast (scopes a) /\
      errors a' = errors a ++ more /\ Forall known more.

(** The errors a new analyzer reports for the statements [body]. *)
Definition diagnostics (body : list AST.Statement) : option (list SemanticError.t) :=
  match analyze (AST.mkProgram body 1 1) new with
  | Returned (semanticErrors, _) => Some semanticErrors
  | _ => None
  end.

(** [reports expr]: analysing [expr] adds the errors of its unresolved
    identifiers and changes nothing else. *)
Definition reports (expr : AST.Expression) : Prop :=
  forall a, analyzeExpression expr a =
            {| scopes := scopes a; errors := errors a ++ unresolved a (identifiersOf expr) |}.
End Notions.
End SemanticAnalyzer.

(** ** codegen/generator.ts *)

Definition nl : string := String newline EmptyString.
Definition dq : string := String quote EmptyString.

(** [s.repeat(n)] *)
Fixpoint repeatText (s : string) (n : nat) : string :=
  match n with
  | O => EmptyString
  | S n' => s +:+ repeatText s n'
  end.

(** [names.join(', ')] *)
Fixpoint join (separator : string) (parts : list string) : string :=
  match parts with
  | [] => EmptyString
  | [part] => part
  | part :: rest => part +:+ separator +:+ join separator rest
  end.

Module CodeGenerator.

Record t : Type := mk { indent : nat; output : string }.

Definition new : t := {| indent := 0; output := EmptyString |}.

Definition emit (code : string) (g : t) : t :=
  {| indent := indent g; output := output g +:+ code |}.

Definition emitLine (code : string) (g : t) : t :=
  emit (repeatText "  " (indent g) +:+ code +:+ nl) g.

Definition emitIndent (g : t) : t :=
  emit (repeatText "  " (indent g)) g.

(** [this.indent++] and [this.indent--] *)
Definition indentMore (g : t) : t := {| indent := S (indent g); output := output g |}.
Definition indentLess (g : t) : t := {| indent := pred (indent g); output := output g |}.

(** [for (const item of items) f(item)] and
    [items.forEach((item, i) => f(i, item))] over the generator. *)
Fixpoint forEach {A : Type} (f : A -> t -> t) (items : list A) (g : t) : t :=
  match items with
  | [] => g
  | item :: rest => forEach f rest (f item g)
  end.

Fixpoint forEachIndexed {A : Type} (f : nat -> A -> t -> t) (i : nat) (items : list A)
  (g : t) : t :=
  match items with
  | [] => g
  | item :: rest => forEachIndexed f (S i) rest (f i item g)
  end.

(** Method calls in program order: [g |> f |> h] is [h (f g)]. *)
Notation "g |> f" := (f g) (at level 45, left associativity, only parsing).

Section Generation.
Context `{Host}.

Fixpoint generateExpression (expr : AST.Expression) (g : t) : t :=
  let binding (keyword : string) (value : AST.Expression) (g : t) : t :=
    g |> emitIndent |> emit keyword |> generateExpression value
      |> emit (";" +:+ nl) in
  let pathTo (call : string) (x y : AST.Expression) (g : t) : t :=
    g |> emitIndent |> emit call |> generateExpression x |> emit ", "
      |> generateExpression y |> emit (");" +:+ nl) in
  match expr with
  | AST.NumberLiteral value _ _ => g |> emit (numberToString value)
  | AST.StringLiteral value _ _ => g |> emit (dq +:+ value +:+ dq)
  | AST.ColorLiteral value _ _ => g |> emit (dq +:+ value +:+ dq)
  | AST.IdentifierExpr id => g |> emit (AST.name id)
  | AST.BinaryExpression operator lhs rhs _ _ =>
      g |> emit "(" |> generateExpression lhs |> emit (" " +:+ operator +:+ " ")
        |> generateExpression rhs |> emit ")"
  | AST.CallExpression callee arguments _ _ =>
      g |> generateExpression callee |> emit "("
        |> forEachIndexed
             (fun i arg g => (if 0 <? i then emit ", " g else g) |> generateExpression arg)
             0 arguments
        |> emit ")"
  | AST.Circle x y size color _ _ =>
      (* generateCircle *)
      g |> emit ("(function() {" +:+ nl) |> indentMore
        |> emitLine "ctx.save();"
        |> binding "const x = " x
        |> binding "const y = " y
        |> binding "const size = " size
        |> binding "const color = " color
        |> emitLine "applyTransform(x, y);"
        |> emitLine "ctx.beginPath();"
        |> emitLine "ctx.arc(0, 0, size, 0, Math.PI * 2);"
        |> emitLine "ctx.fillStyle = color;"
        |> emitLine "ctx.fill();"
        |> emitLine "ctx.restore();"
        |> indentLess |> emitIndent |> emit "})()"
  | AST.Rect x y width height color _ _ =>
      (* generateRect *)
      g |> emit ("(function() {" +:+ nl) |> indentMore
        |> emitLine "ctx.save();"
        |> binding "const x = " x
        |> binding "const y = " y
        |> binding "const w = " width
        |> binding "const h = " height
        |> binding "const color = " color
        |> emitLine "applyTransform(x, y);"
        |> emitLine "ctx.fillStyle = color;"
        |> emitLine "ctx.fillRect(-w/2, -h/2, w, h);"
        |> emitLine "ctx.restore();"
        |> indentLess |> emitIndent |> emit "})()"
  | AST.Line startX startY endX endY color _ _ =>
      (* generateLine *)
      g |> emit ("(function() {" +:+ nl) |> indentMore
        |> emitLine "ctx.save();"
        |> binding "const color = " color
        |> emitLine "ctx.strokeStyle = color;"
        |> emitLine "ctx.beginPath();"
        |> pathTo "ctx.moveTo(" startX startY
        |> pathTo "ctx.lineTo(" endX endY
        |> emitLine "ctx.stroke();"
        |> emitLine "ctx.restore();"
        |> indentLess |> emitIndent |> emit "})()"
  | AST.Triangle points color _ _ =>
      (* generateTriangle *)
      g |> emit ("(function() {" +:+ nl) |> indentMore
        |> emitLine "ctx.save();"
        |> binding "const color = " color
        |> emitLine "ctx.fillStyle = color;"
        |> emitLine "ctx.beginPath();"
        |> forEachIndexed
             (fun i point =>
                pathTo (if i =? 0 then "ctx.moveTo(" else "ctx.lineTo(")
                  (fst point) (snd point))
             0 points
        |> emitLine "ctx.closePath();"
        |> emitLine "ctx.fill();"
        |> emitLine "ctx.restore();"
        |> indentLess |> emitIndent |> emit "})()"
  end.

Definition generateAnimationCommand (cmd : AST.AnimationCommand) (g : t) : t :=
  match cmd with
  | AST.Move amount direction _ _ =>
      let axis :=
        if String.eqb direction "left" || String.eqb direction "right"
        then "x" else "y" in
      let sign :=
        if String.eqb direction "left" || String.eqb direction "up"
        then "-" else "+" in
      g |> emitIndent
        |> emit ("animationState." +:+ axis +:+ " " +:+ sign +:+ "= ")
        |> generateExpression amount |> emit (";" +:+ nl)
  | AST.Rotate angle _ _ =>
      g |> emitIndent |> emit "animationState.rotation += "
        |> generateExpression angle |> emit (";" +:+ nl)
  | AST.Scale factor _ _ =>
      g |> emitIndent |> emit "animationState.scale *= "
        |> generateExpression factor |> emit (";" +:+ nl)
  | AST.Fade amount _ _ =>
      g |> emitIndent |> emit "animationState.opacity -= "
        |> generateExpression amount |> emit (";" +:+ nl)
  end.

Definition generateAnimateBlock (animations : list AST.AnimationCommand) (g : t) : t :=
  g |> emitLine "// Animation loop"
    |> emitLine "function animate() {"
    |> indentMore
    |> emitLine "clear();"
    |> forEach generateAnimationCommand animations
    |> emitLine "requestAnimationFrame(animate);"
    |> indentLess
    |> emitLine "}"
    |> emitLine "animate();".

Fixpoint generateStatement (stmt : AST.Statement) (g : t) : t :=
  let each := forEach generateStatement in
  match stmt with
  | AST.LetStatement identifier value _ _ =>
      (* generateLetStatement *)
      g |> emitIndent |> emit ("let " +:+ AST.name identifier +:+ " = ")
        |> generateExpression value |> emit (";" +:+ nl)
  | AST.FunctionDeclaration name parameters body _ _ =>
      (* generateFunctionDeclaration *)
      g |> emitIndent |> emit ("function " +:+ AST.name name +:+ "(")
        |> emit (join ", " (map AST.name parameters))
        |> emit (") {" +:+ nl) |> indentMore
        |> each body
        |> indentLess |> emitLine "}"
  | AST.ReturnStatement value _ _ =>
      g |> emitIndent |> emit "return"
        |> (fun g => match value with
                     | Some e => g |> emit " " |> generateExpression e
                     | None => g
                     end)
        |> emit (";" +:+ nl)
  | AST.IfStatement condition thenBranch elseBranch _ _ =>
      (* generateIfStatement *)
      g |> emitIndent |> emit "if (" |> generateExpression condition
        |> emit (") {" +:+ nl) |> indentMore
        |> each thenBranch
        |> indentLess
        |> (fun g => match elseBranch with
                     | Some stmts =>
                         g |> emitLine "} else {" |> indentMore |> each stmts
                           |> indentLess
                     | None => g
                     end)
        |> emitLine "}"
  | AST.RepeatStatement times body _ _ =>
      (* generateRepeatStatement *)
      g |> emitIndent |> emit "for (let __i = 0; __i < "
        |> generateExpression times
        |> emit ("; __i++) {" +:+ nl) |> indentMore
        |> each body
        |> indentLess |> emitLine "}"
  | AST.AnimateBlock animations _ _ => generateAnimateBlock animations g
  | AST.SceneBlock name body _ _ =>
      (* generateSceneBlock *)
      g |> emitLine ("// Scene: " +:+ name)
        |> emitLine ("function scene_" +:+ name +:+ "() {")
        |> indentMore
        |> each body
        |> indentLess |> emitLine "}"
        |> emitLine ("scene_" +:+ name +:+ "();")
  | AST.ExpressionStatement expression _ _ =>
      g |> emitIndent |> generateExpression expression |> emit (";" +:+ nl)
  end.

Definition generateStatements (stmts : list AST.Statement) (g : t) : t :=
  forEach generateStatement stmts g.

Definition preamble (g : t) : t :=
  g |> emitLine "// MFlow compiled output - Created by Mehdi"
    |> emitLine ("const canvas = document.getElementById(" +:+ dq +:+ "mflow-canvas"
                   +:+ dq +:+ ");")
    |> emitLine ("const ctx = canvas.getContext(" +:+ dq +:+ "2d" +:+ dq +:+ ");")
    |> emitLine EmptyString
    |> emitLine "// Animation state"
    |> emitLine "let animationState = {"
    |> indentMore
    |> emitLine "x: 0,"
    |> emitLine "y: 0,"
    |> emitLine "rotation: 0,"
    |> emitLine "scale: 1,"
    |> emitLine "opacity: 1"
    |> indentLess
    |> emitLine "};"
    |> emitLine EmptyString
    |> emitLine "// Helper functions"
    |> emitLine "function resetTransform() {"
    |> indentMore
    |> emitLine "ctx.setTransform(1, 0, 0, 1, 0, 0);"
    |> indentLess
    |> emitLine "}"
    |> emitLine EmptyString
    |> emitLine "function applyTransform(x, y) {"
    |> indentMore
    |> emitLine "ctx.translate(x + animationState.x, y + animationState.y);"
    |> emitLine "ctx.rotate(animationState.rotation * Math.PI / 180);"
    |> emitLine "ctx.scale(animationState.scale, animationState.scale);"
    |> emitLine "ctx.globalAlpha = animationState.opacity;"
    |> indentLess
    |> emitLine "}"
    |> emitLine EmptyString
    |> emitLine "// Clear canvas"
    |> emitLine "function clear() {"
    |> indentMore
    |> emitLine "ctx.clearRect(0, 0, canvas.width, canvas.height);"
    |> indentLess
    |> emitLine "}"
    |> emitLine EmptyString
    |> emitLine "// Main program"
    |> emitLine "(function main() {"
    |> indentMore.

(** [generate] resets [output] and [indent] before it emits; it returns
    the text and leaves the generator holding it. *)
Definition generate (program : AST.Program) (g : t) : string * t :=
  let g' :=
    {| indent := 0; output := EmptyString |}
      |> preamble
      |> generateStatements (AST.body program)
      |> indentLess
      |> emitLine "})();" in
  (output g', g').

(** *** Notions used to state the properties of the emitted text *)

(** A generator about to write at indentation [i] into an empty buffer. *)
Definition fresh (i : nat) : t := {| indent := i; output := EmptyString |}.

(** The text an expression, an animation command, a statement or a block
    contributes when emission starts at indentation [i]. *)
Definition expressionText (i : nat) (expr : AST.Expression) : string :=
  output (generateExpression expr (fresh i)).

Definition commandText (i : nat) (cmd : AST.AnimationCommand) : string :=
  output (generateAnimationCommand cmd (fresh i)).

Definition statementText (i : nat) (stmt : AST.Statement) : string :=
  output (generateStatement stmt (fresh i)).

Definition blockText (i : nat) (stmts : list AST.Statement) : string :=
  output (generateStatements stmts (fresh i)).
End Generation.

Definition pad (i : nat) : string := repeatText "  " i.

(** [f] only appends to the buffer, what it appends depends on nothing but
    the indentation it starts at, and it leaves the indentation at [d] of
    that. *)
Definition appends (d : nat -> nat) (f : t -> t) : Prop :=
  exists w : nat -> string,
    forall g, f g = {| indent := d (indent g); output := output g +:+ w (indent g) |}.
End CodeGenerator.

(** ** index.ts: the façade *)

Module CompilationResult.
Record t : Type := mk {
  success : bool;
  output : option string;
  errors : option (list string)
}.
Definition ok (output : string) : t :=
  {| success := true; output := Some output; errors := None |}.
Definition failed (errors : list string) : t :=
  {| success := false; output := None; errors := Some errors |}.
End CompilationResult.

Module MFlowCompiler.
Section Compile.
Context `{Host}.

(** What one call of [compile] does: the value it returns and the lines
    [console.error] received meanwhile. *)
Record Run : Type := mkRun { result : CompilationResult.t; console : list string }.

(** [None] only if a loop of the model ran out of fuel. *)
Definition compile (sourceCode : string) : option Run :=
  let lexer := Lexer.new sourceCode in
  tokens ← Lexer.tokenize lexer;
  let parser := Parser.new tokens in
  match Parser.parse parser with
  | (Returned ast, console) =>
      let analyzer := SemanticAnalyzer.new in
      match SemanticAnalyzer.analyze ast analyzer with
      | Returned (semanticErrors, _) =>
          if 0 <? length semanticErrors then
            Some (mkRun (CompilationResult.failed
                           (map SemanticError.message semanticErrors)) console)
          else
            let generator := CodeGenerator.new in
            let output := fst (CodeGenerator.generate ast generator) in
            Some (mkRun (CompilationResult.ok output) console)
      | Thrown e => Some (mkRun (CompilationResult.failed [exceptionMessage e]) console)
      | Diverged => None
      end
  | (Thrown e, console) =>
      Some (mkRun (CompilationResult.failed [exceptionMessage e]) console)
  | (Diverged, _) => None
  end.
End Compile.
End MFlowCompiler.

(** ** A host for the concrete runs

    It reads the digits before a decimal point and prints them back in
    decimal: what [parseFloat] and [Number.prototype.toString] do on an
    unsigned integer numeral below 2^53. The wording of the TypeError is
    V8's. *)

Fixpoint digitsValue (acc : nat) (s : string) : nat :=
  match s with
  | EmptyString => acc
  | String c rest => if isDigit c then digitsValue (10 * acc + (code c - 48)) rest else acc
  end.

#[global] Instance integerHost : Host := {|
  Number := nat;
  parseFloat := digitsValue 0;
  numberToString := numberText;
  hostMessage := fun e =>
    match e with
    | TypeErrorUndefined property =>
        "Cannot read properties of undefined (reading '" +:+ property +:+ "')"
    end
|}.

(** ** The host's [for] statement

    [generateRepeatStatement] emits the text of a [for] statement for the
    host to run. [CountedLoop] names the two pieces of text that vary and
    [render] is the statement around them. The host runs a [for] statement
    as ECMAScript prescribes: the test is evaluated before every round and
    the statement ends the first time it is false; it also ends when the
    evaluation of the test throws, and when the block does not complete
    normally: the generator emits [return;] for a return statement of the
    body, which leaves the statement and the function around it, and a
    statement of the block may throw. Evaluating an expression may change
    the state of the host (a call that draws).

    [evaluate] and [execute] stand for the host's evaluation of expression
    text and execution of block text. Both run in the scope of the
    statement, where [__i] names the counter, so they are given its value;
    the language has no assignment, so no emitted text changes it. *)

Module HostLoop.

Record CountedLoop : Type := mkLoop { bound : string; block : string }.

(** [for (let __i = 0; __i < BOUND; __i++) {] BLOCK [}] at indentation [i]. *)
Definition render (i : nat) (loop : CountedLoop) : string :=
  CodeGenerator.pad i +:+ "for (let __i = 0; __i < " +:+ bound loop +:+ "; __i++) {"
    +:+ nl +:+ block loop +:+ CodeGenerator.pad i +:+ "}" +:+ nl.

(** How the execution of a block completes: normally, or by a [return] or
    an exception, which take control out of the statement. *)
Inductive Completion : Type := Normal | Abrupt.

(** What ends a run of the statement. *)
Inductive Ending : Type :=
| TestFailed   (* the counter is not below the bound *)
| BoundThrew   (* evaluating the bound threw *)
| BlockLeft.   (* the block returned or threw *)

Record Run (State : Type) : Type := mkRun {
  rounds : nat;       (* times the block was entered *)
  evaluations : nat;  (* times the bound was evaluated *)
  ending : Ending;
  final : State
}.
Arguments mkRun {State} rounds evaluations ending final.
Arguments rounds {State} r.
Arguments evaluations {State} r.
Arguments ending {State} r.
Arguments final {State} r.

Section Semantics.
Variable State : Type.
(** The value of an expression text, [None] when its evaluation throws,
    and the state it leaves. *)
Variable evaluate : string -> nat -> State -> option Z * State.
Variable execute : string -> nat -> State -> Completion * State.

(** The rounds from counter value [i] on; [None] if [fuel] rounds were
    not enough to see the statement end. *)
Fixpoint roundsFrom (fuel : nat) (loop : CountedLoop) (i evaluated : nat) (s : State)
  : option (Run State) :=
  match evaluate (bound loop) i s with
  | (None, s1) => Some (mkRun i (S evaluated) BoundThrew s1)
  | (Some n, s1) =>
      if (Z.of_nat i <? n)%Z then
        match fuel with
        | O => None
        | S fuel' =>
            match execute (block loop) i s1 with
            | (Normal, s2) => roundsFrom fuel' loop (S i) (S evaluated) s2
            | (Abrupt, s2) => Some (mkRun (S i) (S evaluated) BlockLeft s2)
            end
        end
      else Some (mkRun i (S evaluated) TestFailed s1)
  end.

Definition run (fuel : nat) (loop : CountedLoop) (s : State) : option (Run State) :=
  roundsFrom fuel loop 0 0 s.

(** The state after the rounds with the counter values [counters], each
    taken from the state the one before left. *)
Definition after (loop : CountedLoop) (counters : list nat) (s : State) : State :=
  fold_left (fun s' i => snd (execute (block loop) i s')) counters s.
End Semantics.

(** The loop [generateRepeatStatement] emits for [times] and [body] at
    indentation [i]. *)
Definition emitted `{Host} (i : nat) (times : AST.Expression) (body : list AST.Statement)
  : CountedLoop :=
  {| bound := CodeGenerator.expressionText i times;
     block := CodeGenerator.blockText (S i) body |}.
End HostLoop.

(** ** index.ts: the instances of a session

    [compile] creates its lexer, parser, analyzer and generator with [new]
    at every call, and calls their methods through the references it holds.
    [Heap] is the host's store of the instances of these classes, in the
    order of their creation, together with what [console.error] has
    received: [new] adds an instance at the end and yields its place, and a
    method runs on the instance at the place of its receiver and leaves it
    there as the call has changed it. A call of [compile] starts in the
    heap the calls before it have left. *)

Module Session.

Record Heap : Type := mkHeap {
  lexers : list Lexer.t;
  parsers : list Parser.t;
  analyzers : list SemanticAnalyzer.t;
  generators : list CodeGenerator.t;
  console : list string
}.

Definition empty : Heap := mkHeap [] [] [] [] [].

(** A step on the heap; [None] if a loop of the model ran out of fuel or
    a reference refers to nothing. *)
Definition Step (A : Type) : Type := Heap -> option (A * Heap).

Definition ret {A} (a : A) : Step A := fun h => Some (a, h).
Definition stuck {A} : Step A := fun _ => None.
Definition bind {A B} (m : Step A) (k : A -> Step B) : Step B :=
  fun h =>
    match m h with
    | Some (a, h') => k a h'
    | None => None
    end.

Declare Scope session_scope.
Delimit Scope session_scope with session.
Notation "x <- m ;; k" := (bind m (fun x => k))
  (at level 100, m at next level, right associativity) : session_scope.
Local Open Scope session_scope.

Section Compile.
Context `{Host}.

(** [new Lexer(input)] *)
Definition newLexer (input : string) : Step nat :=
  fun h =>
    Some (length (lexers h),
          mkHeap (lexers h ++ [Lexer.new input]) (parsers h) (analyzers h) (generators h)
            (console h)).

(** [lexer.tokenize()] *)
Definition tokenize (lexer : nat) : Step (list Token.t) :=
  fun h =>
    this ← lexers h !! lexer;
    '(token, l1) ← Lexer.nextToken (Lexer.budget this) this;
    '(tokens, l2) ← Lexer.tokenizeLoop (Lexer.budget this) (Lexer.budget this) [] token l1;
    Some (tokens,
          mkHeap (<[lexer := l2]> (lexers h)) (parsers h) (analyzers h) (generators h)
            (console h)).

(** [new Parser(tokens)] *)
Definition newParser (tokens : list Token.t) : Step nat :=
  fun h =>
    Some (length (parsers h),
          mkHeap (lexers h) (parsers h ++ [Parser.new tokens]) (analyzers h) (generators h)
            (console h)).

(** [parser.parse()]; the lines it prints go to the console. *)
Definition parse (parser : nat) : Step (Outcome AST.Program) :=
  fun h =>
    this ← parsers h !! parser;
    let '(outcome, printed, p') :=
      Parser.parseLoop (Parser.budget this) (Parser.budget this) [] [] this in
    Some (match outcome with
          | Returned statements => Returned (AST.mkProgram statements 1 1)
          | Thrown e => Thrown e
          | Diverged => Diverged
          end,
          mkHeap (lexers h) (<[parser := p']> (parsers h)) (analyzers h) (generators h)
            (console h ++ printed)).

(** [new SemanticAnalyzer()] *)
Definition newSemanticAnalyzer : Step nat :=
  fun h =>
    Some (length (analyzers h),
          mkHeap (lexers h) (parsers h) (analyzers h ++ [SemanticAnalyzer.new]) (generators h)
            (console h)).

(** [analyzer.analyze(ast)]. An outcome that is an exception does not
    carry the fields of the analyzer at the throw; the instance is then
    left as it was before the call. *)
Definition analyze (analyzer : nat) (ast : AST.Program)
  : Step (Outcome (list SemanticError.t)) :=
  fun h =>
    this ← analyzers h !! analyzer;
    match SemanticAnalyzer.analyze ast this with
    | Returned (semanticErrors, a') =>
        Some (Returned semanticErrors,
              mkHeap (lexers h) (parsers h) (<[analyzer := a']> (analyzers h)) (generators h)
                (console h))
    | Thrown e => Some (Thrown e, h)
    | Diverged => Some (Diverged, h)
    end.

(** [new CodeGenerator()] *)
Definition newCodeGenerator : Step nat :=
  fun h =>
    Some (length (generators h),
          mkHeap (lexers h) (parsers h) (analyzers h) (generators h ++ [CodeGenerator.new])
            (console h)).

(** [generator.generate(ast)] *)
Definition generate (generator : nat) (ast : AST.Program) : Step string :=
  fun h =>
    this ← generators h !! generator;
    let (output, g') := CodeGenerator.generate ast this in
    Some (output,
          mkHeap (lexers h) (parsers h) (analyzers h) (<[generator := g']> (generators h))
            (console h)).

(** [compile], statement by statement, on the heap. *)
Definition compile (sourceCode : string) : Step CompilationResult.t :=
  lexer <- newLexer sourceCode ;;
  tokens <- tokenize lexer ;;
  parser <- newParser tokens ;;
  parsed <- parse parser ;;
  match parsed with
  | Returned ast =>
      analyzer <- newSemanticAnalyzer ;;
      analysed <- analyze analyzer ast ;;
      match analysed with
      | Returned semanticErrors =>
          if 0 <? length semanticErrors then
            ret (CompilationResult.failed (map SemanticError.message semanticErrors))
          else
            generator <- newCodeGenerator ;;
            output <- generate generator ast ;;
            ret (CompilationResult.ok output)
      | Thrown e => ret (CompilationResult.failed [exceptionMessage e])
      | Diverged => stuck
      end
  | Thrown e => ret (CompilationResult.failed [exceptionMessage e])
  | Diverged => stuck
  end.
End Compile.
End Session.

(** * Properties *)

(** ** The lexer always returns *)

Module LexerFacts.
Import Lexer.

Lemma get_Some_lt (s : string) : forall n c, String.get n s = Some c -> n < String.length s.
Proof.
  induction s as [|a s IH]; intros [|n] c Hget; simpl in *; try discriminate; try lia.
  apply IH in Hget. lia.
Qed.

Lemma get_ge_None (s : string) : forall n, String.length s <= n -> String.get n s = None.
Proof.
  induction s as [|a s IH]; intros [|n] Hle; simpl in *; try reflexivity; try lia.
  apply IH. lia.
Qed.

Lemma new_synced (source : string) : synced (new source).
Proof. reflexivity. Qed.

Lemma advance_synced (l : t) : synced (advance l).
Proof.
  unfold synced, advance.
  destruct (String.length (input l) <=? S (position l)) eqn:Hend; simpl.
  - symmetry. apply get_ge_None. now apply Nat.leb_le.
  - destruct (isChar newline _); reflexivity.
Qed.

Lemma advance_input (l : t) : input (advance l) = input l.
Proof.
  unfold advance.
  destruct (_ <=? _); [reflexivity|]. destruct (isChar newline _); reflexivity.
Qed.

Lemma advance_position (l : t) : position (advance l) = S (position l).
Proof.
  unfold advance.
  destruct (_ <=? _); [reflexivity|]. destruct (isChar newline _); reflexivity.
Qed.

Lemma rest_positive (l : t) (c : ascii) : synced l -> currentChar l = Some c -> 0 < rest l.
Proof.
  unfold synced, rest. intros Hs Hc. rewrite Hc in Hs. symmetry in Hs.
  apply get_Some_lt in Hs. lia.
Qed.

Lemma rest_zero_end (l : t) : synced l -> rest l = 0 -> currentChar l = None.
Proof.
  unfold synced, rest. intros Hs Hr. rewrite Hs. apply get_ge_None. lia.
Qed.

Lemma advance_later (l : t) : later l (advance l).
Proof.
  unfold later, rest. rewrite advance_input, advance_position.
  split; [apply advance_synced|]. split; [reflexivity | lia].
Qed.

Lemma advance_strictlyLater (l : t) (c : ascii) :
  synced l -> currentChar l = Some c -> strictlyLater l (advance l).
Proof.
  intros Hs Hc. pose proof (rest_positive l c Hs Hc) as Hpos.
  unfold strictlyLater, rest in *. rewrite advance_input, advance_position.
  split; [apply advance_synced|]. split; [reflexivity | lia].
Qed.

Lemma later_refl (l : t) : synced l -> later l l.
Proof. intros Hs. unfold later. auto. Qed.

Lemma later_trans (a b c : t) : later a b -> later b c -> later a c.
Proof.
  unfold later. intros (_ & Hi1 & Hr1) (Hs & Hi2 & Hr2).
  split; [assumption|]. split; [congruence | lia].
Qed.

Lemma strictly_later (a b : t) : strictlyLater a b -> later a b.
Proof. unfold strictlyLater, later. intros (? & ? & ?). repeat split; auto; lia. Qed.

Lemma strictly_then_later (a b c : t) : strictlyLater a b -> later b c -> strictlyLater a c.
Proof.
  unfold later, strictlyLater. intros (_ & Hi1 & Hr1) (Hs & Hi2 & Hr2).
  split; [assumption|]. split; [congruence | lia].
Qed.

Create HintDb scan.
#[local] Hint Resolve advance_later later_refl strictly_later advance_synced : scan.

(** The step shared by the scanning loops: with a character under the
    cursor and [rest l <= fuel], one unit of fuel is there to spend and
    the state after [advance] still fits the remaining fuel. *)
Lemma spend (fuel : nat) (l : t) (c : ascii) :
  synced l -> currentChar l = Some c -> rest l <= fuel ->
  exists fuel', fuel = S fuel' /\ rest (advance l) <= fuel' /\ strictlyLater l (advance l).
Proof.
  intros Hs Hc Hfuel.
  pose proof (advance_strictlyLater l c Hs Hc) as Hadv.
  destruct Hadv as (Hs' & Hi & Hr).
  destruct fuel as [|fuel']; [lia|].
  exists fuel'. repeat split; auto; lia.
Qed.

Lemma skipWhitespace_returns : forall fuel l,
  synced l -> rest l <= fuel ->
  exists l', skipWhitespace fuel l = Some l' /\ later l l'.
Proof.
  induction fuel as [|fuel IH]; intros l Hs Hfuel.
  - simpl. pose proof (rest_zero_end l Hs ltac:(lia)) as Hnone.
    rewrite Hnone. eauto with scan.
  - simpl. destruct (currentChar l) as [c|] eqn:Hc; [|eauto with scan].
    destruct (isBlank c); [|eauto with scan].
    destruct (spend _ _ _ Hs Hc Hfuel) as (fuel' & Heq & Hle & Hstrict).
    injection Heq as <-.
    destruct (IH (advance l) (advance_synced l) Hle) as (l' & Hrun & Hlater).
    exists l'. split; [assumption|].
    eapply later_trans; [apply advance_later | assumption].
Qed.
Lemma skipToEndOfLine_returns : forall fuel l,
  synced l -> rest l <= fuel ->
  exists l', skipToEndOfLine fuel l = Some l' /\ later l l'.
Proof.
  induction fuel as [|fuel IH]; intros l Hs Hfuel.
  - simpl. pose proof (rest_zero_end l Hs ltac:(lia)) as Hnone.
    rewrite Hnone. eauto with scan.
  - simpl. destruct (currentChar l) as [c|] eqn:Hc; [|eauto with scan].
    destruct (Ascii.eqb c newline); [eauto with scan|].
    destruct (spend _ _ _ Hs Hc Hfuel) as (fuel' & Heq & Hle & Hstrict).
    injection Heq as <-.
    destruct (IH (advance l) (advance_synced l) Hle) as (l' & Hrun & Hlater).
    exists l'. split; [assumption|].
    eapply later_trans; [apply advance_later | assumption].
Qed.

Lemma readNumberLoop_returns : forall fuel numStr hasDot l,
  synced l -> rest l <= fuel ->
  exists numStr' l', readNumberLoop fuel numStr hasDot l = Some (numStr', l') /\ later l l'.
Proof.
  induction fuel as [|fuel IH]; intros numStr hasDot l Hs Hfuel.
  - simpl. pose proof (rest_zero_end l Hs ltac:(lia)) as Hnone.
    rewrite Hnone. eauto with scan.
  - simpl. destruct (currentChar l) as [c|] eqn:Hc; [|eauto with scan].
    destruct (isDigit c || Ascii.eqb c "."); [|eauto with scan].
    destruct (Ascii.eqb c "." && hasDot); [eauto with scan|].
    destruct (spend _ _ _ Hs Hc Hfuel) as (fuel' & Heq & Hle & Hstrict).
    injection Heq as <-.
    destruct (IH (appendChar numStr c) (if Ascii.eqb c "." then true else hasDot)
                (advance l) (advance_synced l) Hle) as (s' & l' & Hrun & Hlater).
    exists s', l'. split; [assumption|].
    eapply later_trans; [apply advance_later | assumption].
Qed.

Lemma readStringLoop_returns : forall fuel str l,
  synced l -> rest l <= fuel ->
  exists str' l', readStringLoop fuel str l = Some (str', l') /\ later l l'.
Proof.
  induction fuel as [|fuel IH]; intros str l Hs Hfuel.
  - simpl. pose proof (rest_zero_end l Hs ltac:(lia)) as Hnone.
    rewrite Hnone. eauto with scan.
  - simpl. destruct (currentChar l) as [c|] eqn:Hc; [|eauto with scan].
    destruct (Ascii.eqb c quote); [eauto with scan|].
    destruct (spend _ _ _ Hs Hc Hfuel) as (fuel' & Heq & Hle & Hstrict).
    injection Heq as <-.
    destruct (Ascii.eqb c "\" && isChar quote (peek l)).
    + pose proof (advance_later (advance l)) as (_ & _ & Hle2).
      destruct (IH (appendChar str quote) (advance (advance l))
                  (advance_synced _) ltac:(lia)) as (s' & l' & Hrun & Hlater).
      exists s', l'. split; [assumption|].
      eapply later_trans; [apply advance_later|].
      eapply later_trans; [apply advance_later | assumption].
    + destruct (IH (appendChar str c) (advance l) (advance_synced l) Hle)
        as (s' & l' & Hrun & Hlater).
      exists s', l'. split; [assumption|].
      eapply later_trans; [apply advance_later | assumption].
Qed.

Lemma readColorLoop_returns : forall fuel colorStr l,
  synced l -> rest l <= fuel ->
  exists colorStr' l', readColorLoop fuel colorStr l = Some (colorStr', l') /\ later l l'.
Proof.
  induction fuel as [|fuel IH]; intros colorStr l Hs Hfuel.
  - simpl. pose proof (rest_zero_end l Hs ltac:(lia)) as Hnone.
    rewrite Hnone. eauto with scan.
  - simpl. destruct (currentChar l) as [c|] eqn:Hc; [|eauto with scan].
    destruct (isHexDigit c); [|eauto with scan].
    destruct (spend _ _ _ Hs Hc Hfuel) as (fuel' & Heq & Hle & Hstrict).
    injection Heq as <-.
    destruct (IH (appendChar colorStr c) (advance l) (advance_synced l) Hle)
      as (s' & l' & Hrun & Hlater).
    exists s', l'. split; [assumption|].
    eapply later_trans; [apply advance_later | assumption].
Qed.

Lemma readIdentifierLoop_returns : forall fuel identifier l,
  synced l -> rest l <= fuel ->
  exists identifier' l',
    readIdentifierLoop fuel identifier l = Some (identifier', l') /\ later l l'.
Proof.
  induction fuel as [|fuel IH]; intros identifier l Hs Hfuel.
  - simpl. pose proof (rest_zero_end l Hs ltac:(lia)) as Hnone.
    rewrite Hnone. eauto with scan.
  - simpl. destruct (currentChar l) as [c|] eqn:Hc; [|eauto with scan].
    destruct (isIdentPart c); [|eauto with scan].
    destruct (spend _ _ _ Hs Hc Hfuel) as (fuel' & Heq & Hle & Hstrict).
    injection Heq as <-.
    destruct (IH (appendChar identifier c) (advance l) (advance_synced l) Hle)
      as (s' & l' & Hrun & Hlater).
    exists s', l'. split; [assumption|].
    eapply later_trans; [apply advance_later | assumption].
Qed.

Lemma digit_not_dot (c : ascii) : isDigit c = true -> Ascii.eqb c "." = false.
Proof.
  destruct (Ascii.eqb c ".") eqn:Heq; [|reflexivity].
  apply Ascii.eqb_eq in Heq. subst c. discriminate.
Qed.

Lemma readNumber_returns (fuel : nat) (l : t) (c : ascii) :
  synced l -> rest l <= fuel -> currentChar l = Some c -> isDigit c = true ->
  exists token l', readNumber fuel l = Some (token, l') /\ strictlyLater l l'.
Proof.
  intros Hs Hfuel Hc Hdigit.
  destruct (spend _ _ _ Hs Hc Hfuel) as (fuel' & -> & Hle & Hstrict).
  unfold readNumber. simpl. rewrite Hc, Hdigit, (digit_not_dot c Hdigit). simpl.
  destruct (readNumberLoop_returns fuel' (appendChar EmptyString c) false (advance l)
              (advance_synced l) Hle) as (s' & l' & Hrun & Hlater).
  rewrite Hrun. simpl. eexists _, l'. split; [reflexivity|].
  eapply strictly_then_later; eassumption.
Qed.

Lemma readString_returns (fuel : nat) (l : t) (c : ascii) :
  synced l -> rest l <= fuel -> currentChar l = Some c ->
  exists token l', readString fuel l = Some (token, l') /\ strictlyLater l l'.
Proof.
  intros Hs Hfuel Hc.
  pose proof (advance_strictlyLater l c Hs Hc) as Hstrict.
  assert (Hle : rest (advance l) <= fuel) by (destruct Hstrict as (_ & _ & ?); lia).
  unfold readString.
  destruct (readStringLoop_returns fuel EmptyString (advance l) (advance_synced l) Hle)
    as (s' & l2 & Hrun & Hlater).
  rewrite Hrun. simpl. eexists _, _. split; [reflexivity|].
  destruct (isChar quote (currentChar l2)).
  - eapply strictly_then_later; [eassumption|].
    eapply later_trans; [eassumption | apply advance_later].
  - eapply strictly_then_later; eassumption.
Qed.

Lemma readColor_returns (fuel : nat) (l : t) (c : ascii) :
  synced l -> rest l <= fuel -> currentChar l = Some c ->
  exists token l', readColor fuel l = Some (token, l') /\ strictlyLater l l'.
Proof.
  intros Hs Hfuel Hc.
  pose proof (advance_strictlyLater l c Hs Hc) as Hstrict.
  assert (Hle : rest (advance l) <= fuel) by (destruct Hstrict as (_ & _ & ?); lia).
  unfold readColor.
  destruct (readColorLoop_returns fuel "#" (advance l) (advance_synced l) Hle)
    as (s' & l2 & Hrun & Hlater).
  rewrite Hrun. simpl. eexists _, _. split; [reflexivity|].
  eapply strictly_then_later; eassumption.
Qed.

Lemma readIdentifier_returns (fuel : nat) (l : t) (c : ascii) :
  synced l -> rest l <= fuel -> currentChar l = Some c -> isIdentStart c = true ->
  exists token l', readIdentifier fuel l = Some (token, l') /\ strictlyLater l l'.
Proof.
  intros Hs Hfuel Hc Hstart.
  destruct (spend _ _ _ Hs Hc Hfuel) as (fuel' & -> & Hle & Hstrict).
  unfold readIdentifier. simpl. rewrite Hc. unfold isIdentPart. rewrite Hstart. simpl.
  destruct (readIdentifierLoop_returns fuel' (appendChar EmptyString c) (advance l)
              (advance_synced l) Hle) as (s' & l' & Hrun & Hlater).
  rewrite Hrun. simpl. eexists _, l'. split; [reflexivity|].
  eapply strictly_then_later; eassumption.
Qed.

Lemma single_strictlyLater ty text startColumn (l : t) (c : ascii) :
  synced l -> currentChar l = Some c ->
  strictlyLater l (snd (single ty text startColumn l)).
Proof. intros Hs Hc. simpl. eapply advance_strictlyLater; eassumption. Qed.

Lemma withEquals_strictlyLater two one text startColumn (l : t) (c : ascii) :
  synced l -> currentChar l = Some c ->
  strictlyLater l (snd (withEquals two one text startColumn l)).
Proof.
  intros Hs Hc. unfold withEquals.
  destruct (isChar "=" (currentChar (advance l))); simpl.
  - eapply strictly_then_later; [eapply advance_strictlyLater; eassumption|].
    apply advance_later.
  - eapply advance_strictlyLater; eassumption.
Qed.

Lemma readOperator_strictlyLater (l : t) (c : ascii) :
  synced l -> currentChar l = Some c -> strictlyLater l (snd (readOperator c l)).
Proof.
  intros Hs Hc. unfold readOperator.
  repeat match goal with
         | |- context [if ?b then _ else _] => destruct b
         end;
    (eapply single_strictlyLater || eapply withEquals_strictlyLater); eassumption.
Qed.

Lemma nextToken_returns : forall fuel l,
  synced l -> rest l <= fuel ->
  exists token l',
    nextToken fuel l = Some (token, l') /\ later l l' /\
    (Token.type token = EOF \/ rest l' < rest l).
Proof.
  induction fuel as [|fuel IH]; intros l Hs Hfuel.
  - pose proof (rest_zero_end l Hs ltac:(lia)) as Hnone.
    simpl. rewrite Hnone. eexists _, l. repeat split; auto with scan.
  - cbn [nextToken]. destruct (currentChar l) as [c0|] eqn:Hc0.
    2:{ eexists _, l. repeat split; auto with scan. }
    destruct (skipWhitespace_returns (S fuel) l Hs Hfuel) as (l1 & Hskip & Hl1).
    rewrite Hskip. cbn [mbind option_bind].
    assert (Hs1 : synced l1) by apply Hl1.
    assert (Hfuel1 : rest l1 <= S fuel) by (destruct Hl1 as (_ & _ & ?); lia).
    destruct (currentChar l1) as [c|] eqn:Hc.
    2:{ eexists _, l1. repeat split; auto; apply Hl1. }
    assert (Hdone : forall token l',
               strictlyLater l1 l' ->
               later l l' /\ (Token.type token = EOF \/ rest l' < rest l)).
    { intros token l' Hstrict. split.
      - eapply later_trans; [eassumption | apply strictly_later; assumption].
      - right. destruct Hl1 as (_ & _ & ?). destruct Hstrict as (_ & _ & ?). lia. }
    destruct (Ascii.eqb c "/" && isChar "/" (peek l1)) eqn:Hcomment.
    { (* a comment, then the next round of the loop *)
      apply andb_prop in Hcomment as [Hslash Hpeek]. apply Ascii.eqb_eq in Hslash. subst c.
      unfold skipComment. rewrite Hc, Hpeek. cbn [isChar Ascii.eqb Bool.eqb andb negb].
      destruct (spend _ _ _ Hs1 Hc Hfuel1) as (fuel' & Heq & Hle & Hstrict).
      injection Heq as <-.
      cbn [skipToEndOfLine]. rewrite Hc. cbn [Ascii.eqb Bool.eqb].
      destruct (skipToEndOfLine_returns fuel (advance l1) (advance_synced l1) Hle)
        as (l2 & Hrun & Hl2).
      rewrite Hrun. cbn [mbind option_bind].
      assert (Hstrict2 : strictlyLater l1 l2) by (eapply strictly_then_later; eassumption).
      destruct (IH l2 ltac:(apply Hl2)
                  ltac:(destruct Hstrict2 as (_ & _ & ?); lia))
        as (token & l' & Hnext & Hlater & Hprogress).
      exists token, l'. split; [assumption|].
      apply (Hdone token l').
      eapply strictly_then_later; eassumption. }
    destruct (Ascii.eqb c newline).
    { eexists _, _. split; [reflexivity|]. apply Hdone.
      eapply advance_strictlyLater; eassumption. }
    destruct (isDigit c) eqn:Hdigit.
    { destruct (readNumber_returns (S fuel) l1 c Hs1 Hfuel1 Hc Hdigit)
        as (token & l' & Hrun & Hstrict).
      exists token, l'. split; [assumption | apply Hdone; assumption]. }
    destruct (Ascii.eqb c quote).
    { destruct (readString_returns (S fuel) l1 c Hs1 Hfuel1 Hc)
        as (token & l' & Hrun & Hstrict).
      exists token, l'. split; [assumption | apply Hdone; assumption]. }
    destruct (Ascii.eqb c "#").
    { destruct (readColor_returns (S fuel) l1 c Hs1 Hfuel1 Hc)
        as (token & l' & Hrun & Hstrict).
      exists token, l'. split; [assumption | apply Hdone; assumption]. }
    destruct (isIdentStart c) eqn:Hstart.
    { destruct (readIdentifier_returns (S fuel) l1 c Hs1 Hfuel1 Hc Hstart)
        as (token & l' & Hrun & Hstrict).
      exists token, l'. split; [assumption | apply Hdone; assumption]. }
    pose proof (readOperator_strictlyLater l1 c Hs1 Hc) as Hstrict.
    destruct (readOperator c l1) as [token l'] eqn:Hop.
    exists token, l'. split; [reflexivity | apply Hdone; assumption].
Qed.

Lemma sameType_true (a b : TokenType) : sameType a b = true <-> a = b.
Proof. unfold sameType. apply bool_decide_eq_true. Qed.

Lemma sameType_false (a b : TokenType) : sameType a b = false <-> a <> b.
Proof. unfold sameType. apply bool_decide_eq_false. Qed.

Lemma tokenizeLoop_returns : forall fuel budget tokens token l,
  synced l -> rest l <= budget ->
  (Token.type token = EOF \/ rest l < fuel) ->
  Forall kept tokens ->
  exists body eof l',
    tokenizeLoop fuel budget tokens token l = Some (body ++ [eof], l') /\
    Token.type eof = EOF /\ Forall kept body.
Proof.
  induction fuel as [|fuel IH]; intros budget tokens token l Hs Hbudget Hfuel Hkept.
  - destruct Hfuel as [Heof | Hlt]; [|lia].
    simpl. apply sameType_true in Heof as Hsame. rewrite Hsame. simpl.
    exists tokens, token, l. auto.
  - cbn [tokenizeLoop]. destruct (sameType (Token.type token) EOF) eqn:Hsame; cbn [negb].
    + apply sameType_true in Hsame. exists tokens, token, l. auto.
    + apply sameType_false in Hsame.
      destruct Hfuel as [Heof | Hlt]; [contradiction|].
      destruct (nextToken_returns budget l Hs Hbudget)
        as (token' & l' & Hnext & Hlater & Hprogress).
      rewrite Hnext. cbn [mbind option_bind].
      apply IH.
      * apply Hlater.
      * destruct Hlater as (_ & _ & ?). lia.
      * destruct Hprogress as [Heof | Hless]; [left; assumption | right; lia].
      * destruct (sameType (Token.type token) NEWLINE) eqn:Hnl; cbn [negb]; [assumption|].
        apply sameType_false in Hnl.
        apply Forall_app. split; [assumption|]. constructor; [split; assumption | constructor].
Qed.

(** [tokenize] returns for every lexer synced with its input; the tokens
    are kept ones followed by a single end-of-input token. *)
Lemma tokenize_returns (l : t) :
  synced l ->
  exists body eof,
    tokenize l = Some (body ++ [eof]) /\ Token.type eof = EOF /\ Forall kept body.
Proof.
  intros Hs. unfold tokenize.
  assert (Hbudget : rest l <= budget l) by (unfold budget, rest; lia).
  destruct (nextToken_returns (budget l) l Hs Hbudget)
    as (token & l1 & Hnext & Hlater & Hprogress).
  rewrite Hnext. cbn [mbind option_bind].
  destruct (tokenizeLoop_returns (budget l) (budget l) [] token l1) as
    (body & eof & l' & Hloop & Heof & Hkept).
  - apply Hlater.
  - destruct Hlater as (_ & _ & ?). lia.
  - destruct Hprogress as [? | Hless]; [left; assumption | right].
    unfold budget, rest in *. lia.
  - constructor.
  - rewrite Hloop. cbn [mbind option_bind]. exists body, eof. auto.
Qed.

End LexerFacts.

(** ** The emitted text is appended, indentation restored *)

Module GeneratorFacts.
Import CodeGenerator.

Lemma append_cons (x : ascii) (a b : string) : String x a +:+ b = String x (a +:+ b).
Proof. reflexivity. Qed.

Lemma append_assoc (a b c : string) : (a +:+ b) +:+ c = a +:+ (b +:+ c).
Proof.
  induction a as [|x a IH]; [reflexivity|].
  rewrite !append_cons, IH. reflexivity.
Qed.

Lemma append_empty_r (a : string) : a +:+ EmptyString = a.
Proof.
  induction a as [|x a IH]; [reflexivity|].
  rewrite append_cons, IH. reflexivity.
Qed.

Lemma appends_skip : appends (fun i => i) (fun g => g).
Proof. exists (fun _ => EmptyString). intros [i o]. simpl. now rewrite append_empty_r. Qed.

Lemma appends_emit (code : string) : appends (fun i => i) (emit code).
Proof. exists (fun _ => code). intros [i o]. reflexivity. Qed.

Lemma appends_emitLine (code : string) : appends (fun i => i) (emitLine code).
Proof. exists (fun i => repeatText "  " i +:+ code +:+ nl). intros [i o]. reflexivity. Qed.

Lemma appends_emitIndent : appends (fun i => i) emitIndent.
Proof. exists (fun i => repeatText "  " i). intros [i o]. reflexivity. Qed.

Lemma appends_indentMore : appends S indentMore.
Proof.
  exists (fun _ => EmptyString). intros [i o]. unfold indentMore. simpl.
  now rewrite append_empty_r.
Qed.

Lemma appends_indentLess : appends pred indentLess.
Proof.
  exists (fun _ => EmptyString). intros [i o]. unfold indentLess. simpl.
  now rewrite append_empty_r.
Qed.

Lemma appends_compose (d1 d2 : nat -> nat) (f h : t -> t) :
  appends d1 f -> appends d2 h -> appends (fun i => d2 (d1 i)) (fun g => h (f g)).
Proof.
  intros [w1 H1] [w2 H2]. exists (fun i => w1 i +:+ w2 (d1 i)).
  intros g. rewrite H1, H2. cbn [indent output]. now rewrite append_assoc.
Qed.

Lemma appends_ext (d d' : nat -> nat) (f f' : t -> t) :
  (forall i, d i = d' i) -> (forall g, f g = f' g) -> appends d f -> appends d' f'.
Proof.
  intros Hd Hf [w Hw]. exists w. intros g. rewrite <- Hf, Hw, Hd. reflexivity.
Qed.

(** What [appends] gives about one call. *)
Lemma appends_output (d : nat -> nat) (f : t -> t) (g : t) :
  appends d f ->
  f g = {| indent := d (indent g); output := output g +:+ output (f (fresh (indent g))) |}.
Proof.
  intros [w Hw]. rewrite (Hw g), (Hw (fresh (indent g))). reflexivity.
Qed.

Ltac peel :=
  lazymatch goal with
  | |- appends _ (fun g => g) => apply appends_skip
  | |- appends _ (fun g => ?h (@?f g)) =>
      eapply (appends_compose _ _ f h); [peel | ]
  | |- _ => idtac
  end.

Create HintDb emission.
#[local] Hint Resolve appends_emit appends_emitLine appends_emitIndent
  appends_indentMore appends_indentLess appends_skip : emission.



Lemma forEach_appends {A : Type} (f : A -> t -> t) (items : list A) :
  Forall (fun item => appends (fun i => i) (f item)) items ->
  appends (fun i => i) (forEach f items).
Proof.
  induction 1 as [|item rest Hitem _ IH].
  - apply appends_skip.
  - eapply appends_ext; [ | | exact (appends_compose _ _ _ _ Hitem IH) ];
      intro; reflexivity.
Qed.

Lemma forEachIndexed_appends {A : Type} (f : nat -> A -> t -> t) (items : list A) :
  Forall (fun item => forall i, appends (fun i => i) (f i item)) items ->
  forall i, appends (fun i => i) (forEachIndexed f i items).
Proof.
  induction 1 as [|item rest Hitem _ IH]; intros i.
  - apply appends_skip.
  - eapply appends_ext; [ | | exact (appends_compose _ _ _ _ (Hitem i) (IH (S i))) ];
      intro; reflexivity.
Qed.

Section Emission.
Context `{Host}.

(** [emitted unfolding loops]: unfold the method with [unfolding], split
    the chain of calls, and close what is left (the loops) with [loops]. *)
Ltac emitted unfolding loops :=
  eapply appends_ext;
  [ | intro; unfolding; reflexivity | peel; eauto with emission; loops ];
  intro; reflexivity.

Lemma generateExpression_appends (expr : AST.Expression) :
  appends (fun i => i) (generateExpression expr).
Proof.
  induction expr as
    [ | | | | | callee arguments l c IHcallee IHarguments | | |
    | points color l c IHpoints IHcolor ] using Expression_induction;
    try apply appends_emit;
    try (emitted ltac:(cbn [generateExpression]) idtac).
  - emitted ltac:(cbn [generateExpression])
      ltac:(apply forEachIndexed_appends;
            eapply Forall_impl; [|eassumption];
            let Harg := fresh in
            intros ? Harg i; cbv beta in Harg;
            destruct (0 <? i); emitted ltac:(cbv beta iota) idtac).
  - emitted ltac:(cbn [generateExpression])
      ltac:(apply forEachIndexed_appends;
            eapply Forall_impl; [|eassumption];
            let Hx := fresh in let Hy := fresh in
            intros ? [Hx Hy] i; cbv beta in Hx, Hy;
            emitted ltac:(cbv beta iota zeta) idtac).
Qed.

Lemma generateAnimationCommand_appends (cmd : AST.AnimationCommand) :
  appends (fun i => i) (generateAnimationCommand cmd).
Proof.
  pose proof generateExpression_appends.
  destruct cmd; emitted ltac:(cbn [generateAnimationCommand]) idtac.
Qed.

Lemma generateStatement_appends (stmt : AST.Statement) :
  appends (fun i => i) (generateStatement stmt).
Proof.
  pose proof generateExpression_appends as Hexpr.
  pose proof generateAnimationCommand_appends as Hcmd.
  induction stmt as
    [ | | value l c | condition thenBranch elseBranch l c IHthen IHelse | |
      animations l c | | ] using Statement_induction;
    try destruct value; try destruct elseBranch;
    emitted ltac:(cbn [generateStatement]; unfold generateAnimateBlock)
      ltac:(try (apply forEach_appends; first
                   [ eassumption
                   | apply Forall_forall; intros; apply Hcmd ])).
Qed.

Lemma generateStatements_appends (stmts : list AST.Statement) :
  appends (fun i => i) (generateStatements stmts).
Proof.
  apply forEach_appends. apply Forall_forall. intros. apply generateStatement_appends.
Qed.

(** The calls below append their text to whatever the buffer holds. *)
Lemma generateExpression_output (expr : AST.Expression) (g : t) :
  generateExpression expr g =
    {| indent := indent g; output := output g +:+ expressionText (indent g) expr |}.
Proof. exact (appends_output _ _ g (generateExpression_appends expr)). Qed.

Lemma generateAnimationCommand_output (cmd : AST.AnimationCommand) (g : t) :
  generateAnimationCommand cmd g =
    {| indent := indent g; output := output g +:+ commandText (indent g) cmd |}.
Proof. exact (appends_output _ _ g (generateAnimationCommand_appends cmd)). Qed.

Lemma generateStatement_output (stmt : AST.Statement) (g : t) :
  generateStatement stmt g =
    {| indent := indent g; output := output g +:+ statementText (indent g) stmt |}.
Proof. exact (appends_output _ _ g (generateStatement_appends stmt)). Qed.

Lemma generateStatements_output (stmts : list AST.Statement) (g : t) :
  generateStatements stmts g =
    {| indent := indent g; output := output g +:+ blockText (indent g) stmts |}.
Proof. exact (appends_output _ _ g (generateStatements_appends stmts)). Qed.
End Emission.
End GeneratorFacts.

(** ** Stepping the parser over known tokens *)

Module ParserFacts.
Import Parser.
Local Open Scope parser_scope.

Lemma peek_facing (p : t) (token : Token.t) :
  facing p token -> peek p = (Returned token, p).
Proof. unfold facing, peek. intros ->. reflexivity. Qed.

Lemma isAtEnd_facing (p : t) (token : Token.t) :
  facing p token -> isAtEnd p = (Returned (sameType (Token.type token) EOF), p).
Proof. intros Hf. unfold isAtEnd, bind. rewrite (peek_facing p token Hf). reflexivity. Qed.

Lemma check_facing (p : t) (token : Token.t) (type : TokenType) :
  facing p token ->
  check type p =
    (Returned (negb (sameType (Token.type token) EOF) && sameType (Token.type token) type), p).
Proof.
  intros Hf. unfold check, bind. rewrite (isAtEnd_facing p token Hf).
  destruct (sameType (Token.type token) EOF); [reflexivity|].
  rewrite (peek_facing p token Hf). reflexivity.
Qed.

Lemma previousToken_moved (p : t) (token : Token.t) :
  facing p token -> previousToken (moved 1 p) = Some token.
Proof. unfold facing, previousToken, moved. simpl. auto. Qed.

Lemma previous_moved (p : t) (token : Token.t) :
  facing p token -> previous (moved 1 p) = (Returned token, moved 1 p).
Proof. intros Hf. unfold previous. rewrite (previousToken_moved p token Hf). reflexivity. Qed.

Lemma advance_facing (p : t) (token : Token.t) :
  facing p token -> sameType (Token.type token) EOF = false ->
  advance p = (Returned (Some token), moved 1 p).
Proof.
  intros Hf Hne. unfold advance, bind. rewrite (isAtEnd_facing p token Hf), Hne.
  change {| tokens := tokens p; current := S (current p) |} with (moved 1 p).
  rewrite (previousToken_moved p token Hf). reflexivity.
Qed.

(** [match] steps over the token under the cursor exactly when its type is
    one of those asked for and it is not the end of input. *)
Lemma match_facing (types : list TokenType) (p : t) (token : Token.t) :
  facing p token ->
  match_ types p =
    if negb (sameType (Token.type token) EOF) && oneOf types token
    then (Returned true, moved 1 p) else (Returned false, p).
Proof.
  intros Hf. induction types as [|type rest IH].
  - simpl. unfold oneOf. simpl. rewrite andb_false_r. reflexivity.
  - cbn [match_]. unfold bind at 1. rewrite (check_facing p token type Hf).
    unfold oneOf in *. cbn [existsb].
    destruct (sameType (Token.type token) EOF) eqn:Heof; cbn [negb andb] in *.
    + exact IH.
    + destruct (sameType (Token.type token) type); cbn [orb].
      * unfold bind. rewrite (advance_facing p token Hf Heof). reflexivity.
      * exact IH.
Qed.

Lemma consume_facing (type : TokenType) (message : string) (p : t) (token : Token.t) :
  facing p token ->
  consume type message p =
    if negb (sameType (Token.type token) EOF) && sameType (Token.type token) type
    then (Returned token, moved 1 p)
    else (Thrown (ParseError message (Token.line token) (Token.column token)), p).
Proof.
  intros Hf. unfold consume, bind at 1. rewrite (check_facing p token type Hf).
  destruct (sameType (Token.type token) EOF) eqn:Heof; cbn [negb andb].
  - unfold bind. rewrite (peek_facing p token Hf). reflexivity.
  - destruct (sameType (Token.type token) type).
    + unfold bind. rewrite (advance_facing p token Hf Heof). reflexivity.
    + unfold bind. rewrite (peek_facing p token Hf). reflexivity.
Qed.

Lemma moved_0 (p : t) : moved 0 p = p.
Proof. destruct p. reflexivity. Qed.

Lemma moved_moved (j k : nat) (p : t) : moved j (moved k p) = moved (j + k) p.
Proof. unfold moved. simpl. f_equal. lia. Qed.

Lemma oneOf_app (xs ys : list TokenType) (token : Token.t) :
  oneOf (xs ++ ys) token = oneOf xs token || oneOf ys token.
Proof. unfold oneOf. apply existsb_app. Qed.



Section Operands.
Context `{Host}.
Variable nested : M AST.Expression.

(** Rewrite one [match] at a cursor whose token is known. *)
Ltac step Hf :=
  unfold bind at 1; rewrite (match_facing _ _ _ Hf).

(** Evaluate the comparisons of two known token types. *)
Ltac known_types :=
  repeat match goal with
         | |- context [sameType ?a ?b] =>
             lazymatch a with
             | Token.type _ => fail
             | _ => let v := eval vm_compute in (sameType a b) in
                    progress change (sameType a b) with v
             end
         end;
  cbn [existsb negb andb orb].

Lemma primary_identifier (p : t) (token : Token.t) :
  facing p token -> Token.type token = IDENTIFIER ->
  primary nested p = (Returned (AST.IdentifierExpr (identifierOf token)), moved 1 p).
Proof.
  intros Hf Htype. unfold primary.
  do 4 (step Hf; unfold oneOf; rewrite Htype; cbn [existsb]; known_types).
  unfold bind. rewrite (previous_moved p token Hf). reflexivity.
Qed.

Lemma shape_identifier (p : t) (token : Token.t) :
  facing p token -> Token.type token = IDENTIFIER ->
  shape nested p = (Returned (AST.IdentifierExpr (identifierOf token)), moved 1 p).
Proof.
  intros Hf Htype. unfold shape.
  do 4 (step Hf; unfold oneOf; rewrite Htype; cbn [existsb]; known_types).
  now apply primary_identifier.
Qed.

Lemma binaryLoop_stops (fuel : nat) (ops : list TokenType) (operand : M AST.Expression)
  (expr : AST.Expression) (p : t) (token : Token.t) :
  facing p token -> oneOf ops token = false ->
  binaryLoop fuel ops operand expr p = (Returned expr, p).
Proof.
  intros Hf Hno.
  destruct fuel; cbn [binaryLoop]; step Hf; rewrite Hno, andb_false_r; reflexivity.
Qed.





End Operands.
(** *** Recovery on tokens that hold no newline token *)

Lemma previousToken_In (p : t) (token : Token.t) :
  previousToken p = Some token -> In token (tokens p).
Proof.
  unfold previousToken. destruct (current p) as [|i]; [discriminate|]. apply nth_error_In.
Qed.

(** Without a newline token behind the cursor the loop of [synchronize]
    has two exits left: the end of input and a statement keyword. *)
Lemma synchronizeLoop_resumes (fuel : nat) :
  forall (p p' : t) (u : unit),
    Forall (fun token => Token.type token <> NEWLINE) (tokens p) ->
    synchronizeLoop fuel p = (Returned u, p') ->
    tokens p' = tokens p /\ resumes p'.
Proof.
  induction fuel as [|fuel IH]; intros p p' u Hnone; cbn [synchronizeLoop];
    unfold bind at 1;
    (destruct (nth_error (tokens p) (current p)) as [token|] eqn:Hf;
     [ rewrite (isAtEnd_facing p token Hf)
     | unfold isAtEnd, bind, peek; rewrite Hf; discriminate ]);
    (destruct (sameType (Token.type token) EOF) eqn:Hend;
     [ intros [= _ <-]; split; [reflexivity|]; exists token; now rewrite Hend | ]);
    unfold bind at 1; unfold previous at 1;
    (destruct (previousToken p) as [last|] eqn:Hlast; [|discriminate]);
    cbn [defined ret];
    assert (Hlast' : sameType (Token.type last) NEWLINE = false)
      by (apply LexerFacts.sameType_false;
          exact (proj1 (Forall_forall _ _) Hnone last (previousToken_In p last Hlast)));
    rewrite Hlast'; unfold bind at 1; rewrite (peek_facing p token Hf);
    (destruct (startsStatement (Token.type token)) eqn:Hstart;
     [ intros [= _ <-]; split; [reflexivity|]; exists token; split; [exact Hf|];
       now rewrite Hstart, orb_true_r | ]).
  - discriminate.
  - unfold bind at 1. rewrite (advance_facing p token Hf Hend).
    intros Hrun. apply IH in Hrun; [exact Hrun | exact Hnone].
Qed.

Lemma synchronize_resumes (fuel : nat) (p p' : t) (u : unit) :
  Forall (fun token => Token.type token <> NEWLINE) (tokens p) ->
  synchronize fuel p = (Returned u, p') ->
  tokens p' = tokens p /\ resumes p'.
Proof.
  intros Hnone. unfold synchronize. unfold bind at 1.
  destruct (nth_error (tokens p) (current p)) as [token|] eqn:Hf.
  - destruct (sameType (Token.type token) EOF) eqn:Hend.
    + unfold advance, bind. rewrite (isAtEnd_facing p token Hf), Hend.
      intros Hrun. now apply synchronizeLoop_resumes in Hrun.
    + rewrite (advance_facing p token Hf Hend).
      intros Hrun. now apply synchronizeLoop_resumes in Hrun.
  - unfold advance, isAtEnd, bind, peek. rewrite Hf. discriminate.
Qed.
End ParserFacts.

(** ** The parser always returns *)

Module ParserTotality.
Import Parser.
Local Open Scope parser_scope.

Section Totality.
Context `{Host}.
Variable T : list Token.t.
Variable e : nat.
Variable eof : Token.t.
Hypothesis eof_at : nth_error T e = Some eof.
Hypothesis eof_type : Token.type eof = EOF.
Hypothesis before_eof :
  forall i token, i < e -> nth_error T i = Some token -> Token.type token <> EOF.

Local Abbreviation inside := (inside T e).
Local Abbreviation safe := (safe T e).
Local Abbreviation advances := (advances T e).
Local Abbreviation keeps := (keeps T e).

Ltac bounds :=
  intros; unfold Parser.inside, moved in *; cbv beta in *; cbn [tokens current] in *;
  repeat match goal with
         | H : _ /\ _ |- _ => destruct H
         end;
  repeat split; first [ lia | congruence | assumption ].

Lemma inside_lower (c c' : nat) (p : t) : inside c p -> c' <= c -> inside c' p.
Proof. bounds. Qed.

Lemma inside_moved (c : nat) (p : t) :
  inside c p -> current p < e -> inside (S (current p)) (moved 1 p).
Proof. bounds. Qed.

Lemma facing_inside (c : nat) (p : t) :
  inside c p ->
  exists token,
    facing p token /\
    ((current p = e /\ sameType (Token.type token) EOF = true) \/
     (current p < e /\ sameType (Token.type token) EOF = false)).
Proof.
  intros (Htokens & _ & Hle). unfold facing. rewrite Htokens.
  destruct (Nat.eq_dec (current p) e) as [-> | Hne].
  - exists eof. split; [assumption|]. left. split; [reflexivity|].
    now apply LexerFacts.sameType_true.
  - assert (Hlt : current p < e) by lia.
    assert (Hsome : is_Some (nth_error T (current p))).
    { destruct (nth_error T (current p)) eqn:Hnth; [eauto|].
      apply nth_error_None in Hnth.
      assert (e < length T) by (apply nth_error_Some; congruence). lia. }
    destruct Hsome as [token Htoken]. exists token. split; [assumption|].
    right. split; [assumption|]. apply LexerFacts.sameType_false. eauto.
Qed.

Lemma safe_bind (c : nat) {A B : Type} (m : M A) (k : A -> M B) (p : t)
  (Q : B -> t -> Prop) :
  safe c m p (fun a p' => safe c (k a) p' Q) -> safe c (bind m k) p Q.
Proof.
  unfold Parser.safe, bind. destruct (m p) as [[a | [message l col | host] | ] p']; auto.
Qed.

Lemma safe_mono (c : nat) {A : Type} (m : M A) (p : t) (Q Q' : A -> t -> Prop) :
  (forall a p', Q a p' -> Q' a p') -> safe c m p Q -> safe c m p Q'.
Proof.
  unfold Parser.safe. intros Himpl.
  destruct (m p) as [[a | [message l col | host] | ] p']; auto.
Qed.

Lemma safe_ret (c : nat) {A : Type} (a : A) (p : t) (Q : A -> t -> Prop) :
  Q a p -> safe c (ret a) p Q.
Proof. auto. Qed.

Lemma safe_throw (c : nat) {A : Type} (message : string) (l col : nat) (p : t)
  (Q : A -> t -> Prop) :
  inside c p -> safe c (throw (ParseError message l col)) p Q.
Proof. auto. Qed.

Lemma safe_peek (c : nat) (p : t) :
  inside c p -> safe c peek p (fun _ p' => p' = p).
Proof.
  intros Hin. destruct (facing_inside c p Hin) as (token & Hf & _).
  unfold Parser.safe. now rewrite (ParserFacts.peek_facing p token Hf).
Qed.

Lemma safe_isAtEnd (c : nat) (p : t) :
  inside c p ->
  safe c isAtEnd p (fun atEnd p' => p' = p /\ (atEnd = true -> current p = e) /\
                                    (atEnd = false -> current p < e)).
Proof.
  intros Hin. destruct (facing_inside c p Hin) as (token & Hf & Hcase).
  unfold Parser.safe. rewrite (ParserFacts.isAtEnd_facing p token Hf).
  destruct Hcase as [[? ->] | [? ->]]; repeat split; auto; discriminate.
Qed.

Lemma safe_check (c : nat) (type : TokenType) (p : t) :
  inside c p ->
  safe c (check type) p (fun found p' => p' = p /\ (found = true -> current p < e)).
Proof.
  intros Hin. destruct (facing_inside c p Hin) as (token & Hf & Hcase).
  unfold Parser.safe. rewrite (ParserFacts.check_facing p token type Hf).
  destruct Hcase as [[? ->] | [? ->]]; cbn [negb andb]; split; auto; discriminate.
Qed.

Lemma safe_advance (c : nat) (p : t) :
  inside c p ->
  safe c advance p (fun _ p' => inside (current p) p' /\
                                (current p < e -> current p < current p')).
Proof.
  intros Hin. destruct (facing_inside c p Hin) as (token & Hf & Hcase).
  unfold Parser.safe. destruct Hcase as [[Heq Hend] | [Hlt Hnot]].
  - unfold advance, bind. rewrite (ParserFacts.isAtEnd_facing p token Hf), Hend.
    split; [bounds | lia].
  - rewrite (ParserFacts.advance_facing p token Hf Hnot). split; [bounds | bounds].
Qed.

Lemma safe_match (c : nat) (types : list TokenType) (p : t) :
  inside c p ->
  safe c (match_ types) p
    (fun found p' => if found then current p < e /\ p' = moved 1 p else p' = p).
Proof.
  intros Hin. destruct (facing_inside c p Hin) as (token & Hf & Hcase).
  unfold Parser.safe. rewrite (ParserFacts.match_facing types p token Hf).
  destruct Hcase as [[? ->] | [? ->]]; cbn [negb andb]; [reflexivity|].
  destruct (oneOf types token); auto.
Qed.

Lemma safe_consume (c : nat) (type : TokenType) (message : string) (p : t) :
  inside c p ->
  safe c (consume type message) p (fun _ p' => current p < e /\ p' = moved 1 p).
Proof.
  intros Hin. destruct (facing_inside c p Hin) as (token & Hf & Hcase).
  unfold Parser.safe. rewrite (ParserFacts.consume_facing type message p token Hf).
  destruct Hcase as [[? ->] | [? ->]]; cbn [negb andb]; [assumption|].
  destruct (sameType (Token.type token) type); auto.
Qed.

Lemma safe_previous (c : nat) (p : t) :
  inside c p -> 0 < current p -> safe c previous p (fun _ p' => p' = p).
Proof.
  intros (Htokens & Hc & Hle) Hpos. unfold Parser.safe, previous, previousToken.
  destruct (current p) as [|i] eqn:Hcur; [lia|].
  rewrite Htokens.
  destruct (nth_error T i) eqn:Hnth; [reflexivity|].
  apply nth_error_None in Hnth.
  assert (e < length T) by (apply nth_error_Some; congruence). lia.
Qed.

Ltac bind_with lemma :=
  apply safe_bind; eapply safe_mono; [ | eapply lemma; solve [bounds] ]; cbv beta.

(** Straight-line code: step over each call with its lemma; [more] steps
    over the calls of the methods proved so far. *)
Ltac walk more :=
  repeat first
    [ bind_with safe_consume; intros ? ? [? ->]
    | bind_with safe_previous; intros ? ? ->
    | more
    | lazymatch goal with
      | |- Parser.safe _ _ _ (bind (bind _ _) _) _ _ => apply safe_bind
      | |- Parser.safe _ _ _ (ret _) _ (fun _ _ => Parser.safe _ _ _ _ _ _) =>
          apply safe_ret; cbv beta
      end
    | apply safe_ret; solve [bounds] ].

(** *** Expressions *)

Section Level.
Variable n : nat.
Variable nested : M AST.Expression.
Hypothesis nested_safe :
  forall c p, inside c p -> e - current p < n -> safe c nested p (advances p).

Lemma primary_safe (c : nat) (p : t) :
  inside c p -> e - current p <= n -> safe c (primary nested) p (advances p).
Proof.
  intros Hin Hfuel. unfold primary, advances.
  do 4 (bind_with safe_match; intros [|] q Hq;
        [ destruct Hq as [Hlt ->];
          bind_with safe_previous; intros token q ->;
          apply safe_ret; bounds
        | subst q ]).
  bind_with safe_match; intros [|] q Hq.
  - destruct Hq as [Hlt ->].
    bind_with nested_safe. intros expr q Hq. unfold advances in Hq.
    bind_with safe_consume. intros _ q' [Hlt' ->].
    apply safe_ret. bounds.
  - subst q. bind_with safe_peek. intros token q ->.
    apply safe_throw. bounds.
Qed.

Ltac nested_call :=
  bind_with nested_safe; intros ? ? ?; unfold advances in *.

Lemma position_safe (c : nat) (openMessage closeMessage : string) (p : t) :
  inside c p -> e - current p <= n ->
  safe c (position nested openMessage closeMessage) p (advances p).
Proof.
  intros Hin Hfuel. unfold position, advances. walk nested_call.
Qed.

Lemma point_safe (c : nat) (p : t) :
  inside c p -> e - current p <= n -> safe c (point nested) p (advances p).
Proof.
  intros Hin Hfuel. unfold point, advances. walk nested_call.
Qed.

Ltac expression_call :=
  first
    [ nested_call
    | bind_with position_safe; intros ? ? ?; unfold advances in *
    | bind_with point_safe; intros ? ? ?; unfold advances in * ].

Lemma circle_safe (c : nat) (p : t) :
  inside c p -> 0 < current p -> e - current p < n ->
  safe c (circle nested) p (keeps p).
Proof.
  intros Hin Hpos Hfuel. unfold circle, keeps. walk expression_call.
Qed.

Lemma rect_safe (c : nat) (p : t) :
  inside c p -> 0 < current p -> e - current p < n ->
  safe c (rect nested) p (keeps p).
Proof.
  intros Hin Hpos Hfuel. unfold rect, keeps. walk expression_call.
Qed.

Lemma line_safe (c : nat) (p : t) :
  inside c p -> 0 < current p -> e - current p < n ->
  safe c (line nested) p (keeps p).
Proof.
  intros Hin Hpos Hfuel. unfold line, keeps. walk expression_call.
Qed.

Lemma trianglePoints_safe (count : nat) :
  forall (c : nat) (points : list (AST.Expression * AST.Expression)) (p : t),
    inside c p -> e - current p <= n ->
    safe c (trianglePoints nested count points) p (keeps p).
Proof.
  induction count as [|count IH]; intros c points p Hin Hfuel; cbn [trianglePoints].
  - apply safe_ret. unfold keeps. bounds.
  - bind_with point_safe. intros xy q Hq. unfold advances in Hq.
    eapply safe_mono; [|apply IH; bounds]. unfold keeps. bounds.
Qed.

Lemma triangle_safe (c : nat) (p : t) :
  inside c p -> 0 < current p -> e - current p < n ->
  safe c (triangle nested) p (keeps p).
Proof.
  intros Hin Hpos Hfuel. unfold triangle, keeps.
  bind_with safe_previous. intros token q ->.
  bind_with trianglePoints_safe. intros points q Hq. unfold keeps in Hq.
  walk expression_call.
Qed.

Lemma shape_safe (c : nat) (p : t) :
  inside c p -> e - current p <= n -> safe c (shape nested) p (advances p).
Proof.
  intros Hin Hfuel. unfold shape, advances.
  bind_with safe_match; intros [|] q Hq.
  { destruct Hq as [Hlt ->].
    eapply safe_mono; [|apply circle_safe; bounds]. unfold keeps. bounds. }
  subst q. bind_with safe_match; intros [|] q Hq.
  { destruct Hq as [Hlt ->].
    eapply safe_mono; [|apply rect_safe; bounds]. unfold keeps. bounds. }
  subst q. bind_with safe_match; intros [|] q Hq.
  { destruct Hq as [Hlt ->].
    eapply safe_mono; [|apply line_safe; bounds]. unfold keeps. bounds. }
  subst q. bind_with safe_match; intros [|] q Hq.
  { destruct Hq as [Hlt ->].
    eapply safe_mono; [|apply triangle_safe; bounds]. unfold keeps. bounds. }
  subst q. now apply primary_safe.
Qed.

Lemma argumentsLoop_safe (fuel : nat) :
  forall (c : nat) (args : list AST.Expression) (p : t),
    inside c p -> e - current p < n -> e - current p <= fuel ->
    safe c (argumentsLoop nested fuel args) p (keeps p).
Proof.
  induction fuel as [|fuel IH]; intros c args p Hin Hn Hfuel; cbn [argumentsLoop];
    nested_call;
    (bind_with safe_match; intros [|] q Hq;
     [ destruct Hq as [Hlt ->] | subst q; apply safe_ret; unfold keeps; bounds ]).
  - exfalso. bounds.
  - eapply safe_mono; [|apply IH; bounds]. unfold keeps. bounds.
Qed.

Lemma call_safe (c fuel : nat) (p : t) :
  inside c p -> e - current p <= n -> e - current p <= fuel ->
  safe c (call nested fuel) p (advances p).
Proof.
  intros Hin Hn Hfuel. unfold call, advances.
  bind_with shape_safe. intros expr q Hq. unfold advances in Hq.
  bind_with safe_match; intros [|] q1 Hq1.
  - destruct Hq1 as [Hlt ->].
    bind_with safe_check. intros closes q2 [-> _].
    apply safe_bind.
    eapply safe_mono with (Q := keeps (moved 1 q)).
    2:{ destruct closes; cbn [negb].
        - apply safe_ret. unfold keeps. bounds.
        - apply argumentsLoop_safe; bounds. }
    intros args q3 Hq3. unfold keeps in Hq3.
    walk fail.
  - subst q1. apply safe_ret. bounds.
Qed.

Lemma binaryLoop_safe (ops : list TokenType) (operand : M AST.Expression) (fuel : nat) :
  forall (c : nat) (expr : AST.Expression) (p : t),
    (forall c' p', inside c' p' -> current p <= current p' ->
                   safe c' operand p' (advances p')) ->
    inside c p -> e - current p <= fuel ->
    safe c (binaryLoop fuel ops operand expr) p (keeps p).
Proof.
  induction fuel as [|fuel IH]; intros c expr p Hoperand Hin Hfuel;
    cbn [binaryLoop];
    (bind_with safe_match; intros [|] q Hq;
     [ destruct Hq as [Hlt ->] | subst q; apply safe_ret; unfold keeps; bounds ]).
  - exfalso. lia.
  - bind_with safe_previous. intros operator q ->.
    bind_with Hoperand. intros rhs q Hq. unfold advances in Hq.
    eapply safe_mono; [|apply IH; [|bounds..]].
    + unfold keeps. bounds.
    + intros c' p' Hin' Hle. apply Hoperand; bounds.
Qed.

Lemma multiplicative_safe (c fuel : nat) (p : t) :
  inside c p -> e - current p <= n -> e - current p <= fuel ->
  safe c (multiplicative nested fuel) p (advances p).
Proof.
  intros Hin Hn Hfuel. unfold multiplicative, advances.
  bind_with call_safe. intros expr q Hq. unfold advances in Hq.
  eapply safe_mono; [|apply binaryLoop_safe; [|bounds..]].
  - unfold keeps. bounds.
  - intros c' p' Hin' Hle. apply call_safe; bounds.
Qed.

Lemma additive_safe (c fuel : nat) (p : t) :
  inside c p -> e - current p <= n -> e - current p <= fuel ->
  safe c (additive nested fuel) p (advances p).
Proof.
  intros Hin Hn Hfuel. unfold additive, advances.
  bind_with multiplicative_safe. intros expr q Hq. unfold advances in Hq.
  eapply safe_mono; [|apply binaryLoop_safe; [|bounds..]].
  - unfold keeps. bounds.
  - intros c' p' Hin' Hle. apply multiplicative_safe; bounds.
Qed.

Lemma comparison_safe (c fuel : nat) (p : t) :
  inside c p -> e - current p <= n -> e - current p <= fuel ->
  safe c (comparison nested fuel) p (advances p).
Proof.
  intros Hin Hn Hfuel. unfold comparison, advances.
  bind_with additive_safe. intros expr q Hq. unfold advances in Hq.
  eapply safe_mono; [|apply binaryLoop_safe; [|bounds..]].
  - unfold keeps. bounds.
  - intros c' p' Hin' Hle. apply additive_safe; bounds.
Qed.
End Level.

(** [expression] returns or throws a [ParseError] whenever its fuel exceeds
    the number of tokens before the end of input. *)
Lemma expression_safe (fuel : nat) :
  forall (c : nat) (p : t),
    inside c p -> e - current p < fuel -> safe c (expression fuel) p (advances p).
Proof.
  induction fuel as [|fuel IH]; intros c p Hin Hfuel; [lia|].
  cbn [expression]. apply (comparison_safe fuel (expression fuel) IH); [assumption|lia..].
Qed.

Lemma primary_expression_safe (fuel c : nat) (p : t) :
  inside c p -> e - current p <= fuel ->
  safe c (primary (expression fuel)) p (advances p).
Proof. intros. now apply (primary_safe fuel (expression fuel) (expression_safe fuel)). Qed.

(** *** Statements *)

Section Statements.
Variable n : nat.
Hypothesis enough : e < n.

Ltac expression_call :=
  first
    [ bind_with expression_safe; intros ? ? ?; unfold advances in *
    | bind_with primary_expression_safe; intros ? ? ?; unfold advances in * ].

Lemma letStatement_safe (c : nat) (p : t) :
  inside c p -> 0 < current p -> safe c (letStatement n) p (keeps p).
Proof. intros Hin Hpos. unfold letStatement, keeps. walk expression_call. Qed.

Lemma returnStatement_safe (c : nat) (p : t) :
  inside c p -> 0 < current p -> safe c (returnStatement n) p (keeps p).
Proof.
  intros Hin Hpos. unfold returnStatement, keeps.
  bind_with safe_previous. intros token q ->.
  bind_with safe_isAtEnd. intros atEnd q (-> & _ & _).
  bind_with safe_peek. intros next q ->.
  apply safe_bind. eapply safe_mono with (Q := keeps p).
  2:{ destruct (negb atEnd && negb (sameType (Token.type next) RBRACE)).
      - unfold keeps. walk expression_call.
      - apply safe_ret. unfold keeps. bounds. }
  intros value q Hq. unfold keeps in Hq. apply safe_ret. bounds.
Qed.

Lemma moveCommand_safe (c : nat) (p : t) :
  inside c p -> 0 < current p -> safe c (moveCommand n) p (keeps p).
Proof.
  intros Hin Hpos. unfold moveCommand, keeps.
  bind_with safe_previous. intros token q ->.
  expression_call.
  bind_with safe_match; intros [|] q Hq.
  - destruct Hq as [Hlt ->]. cbv iota. walk fail.
  - subst q. cbv iota. walk fail.
Qed.

Lemma rotateCommand_safe (c : nat) (p : t) :
  inside c p -> 0 < current p -> safe c (rotateCommand n) p (keeps p).
Proof. intros Hin Hpos. unfold rotateCommand, keeps. walk expression_call. Qed.

Lemma scaleCommand_safe (c : nat) (p : t) :
  inside c p -> 0 < current p -> safe c (scaleCommand n) p (keeps p).
Proof. intros Hin Hpos. unfold scaleCommand, keeps. walk expression_call. Qed.

Lemma fadeCommand_safe (c : nat) (p : t) :
  inside c p -> 0 < current p -> safe c (fadeCommand n) p (keeps p).
Proof. intros Hin Hpos. unfold fadeCommand, keeps. walk expression_call. Qed.

Lemma insideBlock_safe (c : nat) (p : t) :
  inside c p ->
  safe c insideBlock p (fun inside p' => p' = p /\ (inside = true -> current p < e)).
Proof.
  intros Hin. unfold insideBlock.
  bind_with safe_check. intros [|] q [-> _].
  - apply safe_ret. split; [reflexivity | discriminate].
  - bind_with safe_isAtEnd. intros [|] q (-> & _ & Hlt); apply safe_ret;
      (split; [reflexivity|]); [discriminate | auto].
Qed.

Lemma animateLoop_safe (fuel : nat) :
  forall (c : nat) (animations : list AST.AnimationCommand) (p : t),
    inside c p -> 0 < current p -> e - current p <= fuel ->
    safe c (animateLoop n fuel animations) p (keeps p).
Proof.
  induction fuel as [|fuel IH]; intros c animations p Hin Hpos Hfuel; cbn [animateLoop];
    (bind_with insideBlock_safe; intros [|] q [-> Hlt];
     [ specialize (Hlt eq_refl) | apply safe_ret; unfold keeps; bounds ]).
  - exfalso. lia.
  - bind_with safe_match; intros [|] q Hq.
    { destruct Hq as [_ ->]. bind_with moveCommand_safe. intros cmd q Hq. unfold keeps in Hq.
      eapply safe_mono; [|apply IH; bounds]. unfold keeps. bounds. }
    subst q. bind_with safe_match; intros [|] q Hq.
    { destruct Hq as [_ ->]. bind_with rotateCommand_safe. intros cmd q Hq. unfold keeps in Hq.
      eapply safe_mono; [|apply IH; bounds]. unfold keeps. bounds. }
    subst q. bind_with safe_match; intros [|] q Hq.
    { destruct Hq as [_ ->]. bind_with scaleCommand_safe. intros cmd q Hq. unfold keeps in Hq.
      eapply safe_mono; [|apply IH; bounds]. unfold keeps. bounds. }
    subst q. bind_with safe_match; intros [|] q Hq.
    { destruct Hq as [_ ->]. bind_with fadeCommand_safe. intros cmd q Hq. unfold keeps in Hq.
      eapply safe_mono; [|apply IH; bounds]. unfold keeps. bounds. }
    subst q. bind_with safe_advance. intros skipped q [Hq Hmove]. specialize (Hmove Hlt).
    eapply safe_mono; [|apply IH; bounds]. unfold keeps. bounds.
Qed.

Lemma animateBlock_safe (c fuel : nat) (p : t) :
  inside c p -> 0 < current p -> e - current p <= fuel ->
  safe c (animateBlock n fuel) p (keeps p).
Proof.
  intros Hin Hpos Hfuel. unfold animateBlock, keeps.
  bind_with safe_previous. intros token q ->.
  bind_with safe_consume. intros _ q [Hlt ->].
  bind_with animateLoop_safe. intros animations q Hq. unfold keeps in Hq.
  walk fail.
Qed.

Lemma expressionStatement_safe (c : nat) (p : t) :
  inside c p -> safe c (expressionStatement n) p (advances p).
Proof. intros Hin. unfold expressionStatement, advances. walk expression_call. Qed.

Lemma parametersLoop_safe (fuel : nat) :
  forall (c : nat) (parameters : list AST.Identifier) (p : t),
    inside c p -> e - current p <= fuel ->
    safe c (parametersLoop fuel parameters) p (keeps p).
Proof.
  induction fuel as [|fuel IH]; intros c parameters p Hin Hfuel; cbn [parametersLoop];
    (bind_with safe_consume; intros param q [Hlt ->]);
    (bind_with safe_match; intros [|] q Hq;
     [ destruct Hq as [Hlt' ->] | subst q; apply safe_ret; unfold keeps; bounds ]).
  - exfalso. lia.
  - eapply safe_mono; [|apply IH; bounds]. unfold keeps. bounds.
Qed.

Section Nested.
Variable m : nat.
Variable statement : M AST.Statement.
Hypothesis statement_safe :
  forall c p, inside c p -> e - current p < m -> safe c statement p (advances p).

Lemma blockLoop_safe (fuel : nat) :
  forall (c : nat) (body : list AST.Statement) (p : t),
    inside c p -> e - current p < m -> e - current p <= fuel ->
    safe c (blockLoop statement fuel body) p (keeps p).
Proof.
  induction fuel as [|fuel IH]; intros c body p Hin Hm Hfuel; cbn [blockLoop];
    (bind_with insideBlock_safe; intros [|] q [-> Hlt];
     [ specialize (Hlt eq_refl) | apply safe_ret; unfold keeps; bounds ]).
  - exfalso. lia.
  - bind_with statement_safe. intros stmt q Hq. unfold advances in Hq.
    eapply safe_mono; [|apply IH; bounds]. unfold keeps. bounds.
Qed.

Ltac block_call :=
  first
    [ bind_with expression_safe; intros ? ? ?; unfold advances in *
    | bind_with blockLoop_safe; intros ? ? ?; unfold keeps in * ].

Lemma functionDeclaration_safe (c fuel : nat) (p : t) :
  inside c p -> 0 < current p -> e - current p < m -> e - current p <= fuel ->
  safe c (functionDeclaration statement fuel) p (keeps p).
Proof.
  intros Hin Hpos Hm Hfuel. unfold functionDeclaration, keeps.
  bind_with safe_previous. intros token q ->.
  bind_with safe_consume. intros name q [Hlt ->].
  bind_with safe_consume. intros paren q [Hlt' ->].
  bind_with safe_check. intros closes q [-> _].
  apply safe_bind. eapply safe_mono with (Q := keeps (moved 1 (moved 1 p))).
  2:{ destruct closes; cbn [negb].
      - apply safe_ret. unfold keeps. bounds.
      - apply parametersLoop_safe; bounds. }
  intros parameters q Hq. unfold keeps in Hq.
  walk block_call.
Qed.

Lemma ifStatement_safe (c fuel : nat) (p : t) :
  inside c p -> 0 < current p -> e - current p < m -> e - current p <= fuel ->
  safe c (ifStatement n statement fuel) p (keeps p).
Proof.
  intros Hin Hpos Hm Hfuel. unfold ifStatement, keeps.
  bind_with safe_previous. intros token q ->.
  block_call.
  bind_with safe_consume. intros brace q [Hlt ->].
  block_call.
  bind_with safe_consume. intros closing q [Hlt' ->].
  bind_with safe_match; intros [|] q Hq.
  - destruct Hq as [Hlt'' ->]. cbv iota. walk block_call.
  - subst q. cbv iota. walk block_call.
Qed.

Lemma repeatStatement_safe (c fuel : nat) (p : t) :
  inside c p -> 0 < current p -> e - current p < m -> e - current p <= fuel ->
  safe c (repeatStatement n statement fuel) p (keeps p).
Proof.
  intros Hin Hpos Hm Hfuel. unfold repeatStatement, keeps. walk block_call.
Qed.

Lemma sceneBlock_safe (c fuel : nat) (p : t) :
  inside c p -> 0 < current p -> e - current p < m -> e - current p <= fuel ->
  safe c (sceneBlock statement fuel) p (keeps p).
Proof.
  intros Hin Hpos Hm Hfuel. unfold sceneBlock, keeps. walk block_call.
Qed.

Lemma dispatch_safe (c fuel : nat) (p : t) :
  inside c p -> e - current p <= m -> e - current p <= fuel ->
  safe c (dispatch n statement fuel) p (advances p).
Proof.
  intros Hin Hm Hfuel. unfold dispatch, advances.
  bind_with safe_match; intros [|] q Hq.
  { destruct Hq as [Hlt ->].
    eapply safe_mono; [|apply letStatement_safe; bounds]. unfold keeps. bounds. }
  subst q. bind_with safe_match; intros [|] q Hq.
  { destruct Hq as [Hlt ->].
    eapply safe_mono; [|apply functionDeclaration_safe; bounds]. unfold keeps. bounds. }
  subst q. bind_with safe_match; intros [|] q Hq.
  { destruct Hq as [Hlt ->].
    eapply safe_mono; [|apply returnStatement_safe; bounds]. unfold keeps. bounds. }
  subst q. bind_with safe_match; intros [|] q Hq.
  { destruct Hq as [Hlt ->].
    eapply safe_mono; [|apply ifStatement_safe; bounds]. unfold keeps. bounds. }
  subst q. bind_with safe_match; intros [|] q Hq.
  { destruct Hq as [Hlt ->].
    eapply safe_mono; [|apply repeatStatement_safe; bounds]. unfold keeps. bounds. }
  subst q. bind_with safe_match; intros [|] q Hq.
  { destruct Hq as [Hlt ->].
    eapply safe_mono; [|apply animateBlock_safe; bounds]. unfold keeps. bounds. }
  subst q. bind_with safe_match; intros [|] q Hq.
  { destruct Hq as [Hlt ->].
    eapply safe_mono; [|apply sceneBlock_safe; bounds]. unfold keeps. bounds. }
  subst q. now apply expressionStatement_safe.
Qed.
End Nested.

(** [statement] returns or throws a [ParseError] whenever its fuel exceeds
    the number of tokens before the end of input. *)
Lemma statement_safe (fuel : nat) :
  forall (c : nat) (p : t),
    inside c p -> e - current p < fuel -> safe c (statement n fuel) p (advances p).
Proof.
  induction fuel as [|fuel IH]; intros c p Hin Hfuel; [lia|].
  cbn [statement]. apply (dispatch_safe fuel (statement n fuel) IH); [assumption|lia..].
Qed.

Lemma synchronizeLoop_safe (fuel : nat) :
  forall (c : nat) (p : t),
    inside c p -> 0 < current p \/ current p = e -> e - current p <= fuel ->
    safe c (synchronizeLoop fuel) p (keeps p).
Proof.
  induction fuel as [|fuel IH]; intros c p Hin Hpos Hfuel; cbn [synchronizeLoop];
    (bind_with safe_isAtEnd; intros [|] q (-> & Hend & Hlt);
     [ apply safe_ret; unfold keeps; bounds | specialize (Hlt eq_refl) ]);
    (bind_with safe_previous; intros last q ->);
    (destruct (sameType (Token.type last) NEWLINE);
     [ apply safe_ret; unfold keeps; bounds | ]);
    (bind_with safe_peek; intros next q ->);
    (destruct (startsStatement (Token.type next));
     [ apply safe_ret; unfold keeps; bounds | ]).
  - exfalso. lia.
  - bind_with safe_advance. intros skipped q [Hq Hmove]. specialize (Hmove Hlt).
    eapply safe_mono; [|apply IH; bounds]. unfold keeps. bounds.
Qed.

(** Recovery leaves the cursor inside, and past where it was unless that
    was the end of input. *)
Lemma synchronize_safe (c fuel : nat) (p : t) :
  inside c p -> e - current p <= S fuel ->
  safe c (synchronize fuel) p
    (fun _ p' => inside (current p) p' /\ (current p < e -> current p < current p')).
Proof.
  intros Hin Hfuel. unfold synchronize.
  bind_with safe_advance. intros skipped q [Hq Hmove].
  eapply safe_mono; [|apply synchronizeLoop_safe; bounds].
  unfold keeps. bounds.
Qed.

(** Recovery throws no [ParseError] of its own: nothing it calls does. *)
Lemma quiet_bind {A B : Type} (m : M A) (k : A -> M B) :
  quiet m -> (forall a, quiet (k a)) -> quiet (bind m k).
Proof.
  intros Hm Hk p. unfold bind. specialize (Hm p).
  destruct (m p) as [[a | [message l col | host] | ] p']; auto. apply Hk.
Qed.

Lemma quiet_ret {A : Type} (a : A) : quiet (ret a).
Proof. intros p. exact I. Qed.

Lemma quiet_peek : quiet peek.
Proof. intros p. unfold peek. destruct (nth_error (tokens p) (current p)); exact I. Qed.

Lemma quiet_previous : quiet previous.
Proof. intros p. unfold previous. destruct (previousToken p); exact I. Qed.

Lemma quiet_isAtEnd : quiet isAtEnd.
Proof. apply quiet_bind; [apply quiet_peek | intros; apply quiet_ret]. Qed.

Lemma quiet_advance : quiet advance.
Proof. apply quiet_bind; [apply quiet_isAtEnd | intros atEnd p; exact I]. Qed.

Lemma quiet_synchronizeLoop (fuel : nat) : quiet (synchronizeLoop fuel).
Proof.
  induction fuel as [|fuel IH]; cbn [synchronizeLoop];
    (apply quiet_bind; [apply quiet_isAtEnd|]; intros [|]; [apply quiet_ret|]);
    (apply quiet_bind; [apply quiet_previous|]; intros last);
    (destruct (sameType _ _); [apply quiet_ret|]);
    (apply quiet_bind; [apply quiet_peek|]; intros next);
    (destruct (startsStatement _); [apply quiet_ret|]).
  - intros p. exact I.
  - apply quiet_bind; [apply quiet_advance | intros; apply IH].
Qed.

Lemma quiet_synchronize (fuel : nat) : quiet (synchronize fuel).
Proof.
  apply quiet_bind; [apply quiet_advance | intros; apply quiet_synchronizeLoop].
Qed.

(** Recovery returns, from every place of the cursor. *)
Lemma synchronize_returns (c fuel : nat) (p : t) :
  inside c p -> e - current p <= S fuel ->
  exists p', synchronize fuel p = (Returned tt, p').
Proof.
  intros Hin Hfuel.
  pose proof (synchronize_safe c fuel p Hin Hfuel) as Hsafe.
  pose proof (quiet_synchronize fuel p) as Hquiet.
  unfold Parser.safe in Hsafe.
  destruct (synchronize fuel p) as [[[] | [message l col | host] | ] p'];
    [eauto | contradiction..].
Qed.

(** The loop of [parse] returns: a [ParseError] is caught, and nothing else
    is thrown. *)
Lemma parseLoop_returns (fuel : nat) :
  forall (statements : list AST.Statement) (console : list string) (p : t),
    inside 0 p -> e - current p <= fuel ->
    exists statements' console' p',
      parseLoop n fuel statements console p = (Returned statements', console', p').
Proof.
  induction fuel as [|fuel IH]; intros statements console p Hin Hfuel; cbn [parseLoop];
    pose proof (safe_isAtEnd 0 p Hin) as Hend; unfold Parser.safe in Hend;
    pose proof (quiet_isAtEnd p) as Hquiet0;
    destruct (isAtEnd p) as [[[|] | [message0 l0 col0 | host0] | ] pe];
    try contradiction; try (destruct Hend as (-> & _ & Hlt); specialize (Hlt eq_refl));
    try (exfalso; lia); eauto.
  assert (Hhere : inside (current p) p) by bounds.
  pose proof (statement_safe n (current p) p Hhere ltac:(lia)) as Hstmt.
  unfold Parser.safe, advances in Hstmt.
  destruct (statement n n p) as [[stmt | [message l col | host] | ] p1];
    try contradiction.
  - apply IH; bounds.
  - pose proof (synchronize_safe (current p) n p1 Hstmt ltac:(bounds)) as Hsync.
    pose proof (quiet_synchronize n p1) as Hquiet.
    unfold Parser.safe in Hsync.
    destruct (synchronize n p1) as [[u | [message' l' col' | host] | ] p2];
      try contradiction.
    destruct Hsync as [Hin2 Hmove].
    apply IH; [bounds|].
    destruct (Nat.eq_dec (current p1) e) as [Heq | Hne]; [bounds|].
    specialize (Hmove ltac:(bounds)). bounds.
Qed.
End Statements.

(** [parse] returns a program for a parser at the start of [T]. *)
Lemma parse_returns_at_start (p : t) :
  tokens p = T -> current p = 0 ->
  exists program console, parse p = (Returned program, console).
Proof.
  intros Htokens Hcurrent. unfold parse.
  assert (He : e < budget p).
  { unfold budget. rewrite Htokens.
    assert (e < length T) by (apply nth_error_Some; congruence). lia. }
  destruct (parseLoop_returns (budget p) He (budget p) [] [] p) as
    (statements & console & p' & Hrun).
  - bounds.
  - lia.
  - rewrite Hrun. eauto.
Qed.
End Totality.

(** The first end-of-input token of a sequence that has one. *)
Lemma first_EOF (T : list Token.t) :
  (exists i token, nth_error T i = Some token /\ Token.type token = EOF) ->
  exists e eof,
    nth_error T e = Some eof /\ Token.type eof = EOF /\
    forall i token, i < e -> nth_error T i = Some token -> Token.type token <> EOF.
Proof.
  induction T as [|head rest IH]; intros (i & token & Hnth & Htype).
  - destruct i; discriminate.
  - destruct (sameType (Token.type head) EOF) eqn:Hhead.
    + apply LexerFacts.sameType_true in Hhead.
      exists 0, head. repeat split; auto. intros j t Hj. lia.
    + apply LexerFacts.sameType_false in Hhead.
      destruct i as [|i]; [injection Hnth as ->; contradiction|].
      destruct IH as (e & eof & Hat & Heof & Hbefore); [eauto|].
      exists (S e), eof. repeat split; auto.
      intros [|j] t Hj Ht; [injection Ht as <-; assumption|].
      apply (Hbefore j t); [lia | assumption].
Qed.

(** [parse] returns a program for every token sequence that holds an
    end-of-input token: no exception leaves it and the model does not run
    out of fuel. *)
Lemma parse_returns `{Host} (tokens : list Token.t) :
  (exists i token, nth_error tokens i = Some token /\ Token.type token = EOF) ->
  exists program console, parse (new tokens) = (Returned program, console).
Proof.
  intros Heof. destruct (first_EOF tokens Heof) as (e & eof & Hat & Htype & Hbefore).
  apply (parse_returns_at_start tokens e eof Hat Htype Hbefore); reflexivity.
Qed.
End ParserTotality.

(** ** The analyzer reads the scopes while it walks an expression *)

Module AnalyzerFacts.
Import SemanticAnalyzer.

Lemma resolve_scopes (name : string) (l c : nat) (a : t) :
  scopes (resolve name l c a) = scopes a.
Proof. unfold resolve. destruct (existsb _ _); reflexivity. Qed.

Lemma fold_left_scopes {A : Type} (f : t -> A -> t) (items : list A) :
  Forall (fun item => forall a, scopes (f a item) = scopes a) items ->
  forall a, scopes (fold_left f items a) = scopes a.
Proof.
  induction 1 as [|item rest Hitem _ IH]; intros a; [reflexivity|].
  simpl. rewrite IH. apply Hitem.
Qed.

Section Analysis.
Context `{Host}.

Lemma analyzeExpression_scopes (expr : AST.Expression) :
  forall a, scopes (analyzeExpression expr a) = scopes a.
Proof.
  induction expr as
    [ | | | | | callee arguments l c IHcallee IHarguments | | |
    | points color l c IHpoints IHcolor ] using Expression_induction;
    intros a; cbn [analyzeExpression];
    repeat match goal with
           | IH : forall a, scopes (analyzeExpression ?e a) = scopes a
             |- context [analyzeExpression ?e ?x] => rewrite (IH x)
           end;
    try reflexivity.
  - apply resolve_scopes.
  - rewrite fold_left_scopes; [apply IHcallee|].
    eapply Forall_impl; [|exact IHarguments]. auto.
  - rewrite fold_left_scopes; [reflexivity|].
    eapply Forall_impl; [|exact IHpoints].
    intros point [Hx Hy] b. cbv beta in Hx, Hy. now rewrite Hy, Hx.
Qed.

(** A name no scope holds, own or inherited, is reported and nothing else
    changes. *)
Lemma resolve_undefined (name : string) (l c : nat) (a : t) :
  existsb (fun scope => has scope name) (rev (scopes a)) = false ->
  resolve name l c a = pushError ("Undefined variable '" +:+ name +:+ "'") l c a.
Proof. unfold resolve. intros ->. reflexivity. Qed.

Lemma has_empty (name : string) : has ∅ name = inheritedKey name.
Proof.
  unfold has. rewrite lookup_empty.
  rewrite bool_decide_eq_false_2; [reflexivity|]. intros [x Hx]. discriminate.
Qed.

(** *** The analyzer always returns

    Scopes are entered and left in pairs, so the stack a statement is
    analysed with is never empty and [currentScope()] is defined. *)

Lemma removelast_length {A : Type} (l : list A) : length (removelast l) = pred (length l).
Proof. rewrite removelast_firstn_len, length_take. lia. Qed.

Lemma depth_analyzeExpression (expr : AST.Expression) (a : t) :
  depth (analyzeExpression expr a) = depth a.
Proof. unfold depth. now rewrite analyzeExpression_scopes. Qed.

Lemma depth_enterScope (a : t) : depth (enterScope a) = S (depth a).
Proof. unfold depth, enterScope. cbn [scopes]. rewrite length_app. simpl. lia. Qed.

Lemma depth_exitScope (a : t) : depth (exitScope a) = pred (depth a).
Proof. unfold depth, exitScope. cbn [scopes]. apply removelast_length. Qed.

Lemma declare_steady (name type : string) (l c : nat) : steady (declare name type l c).
Proof.
  intros a Hdepth. unfold declare, currentScope. unfold depth in Hdepth.
  destruct (lookup_lt_is_Some_2 (scopes a) (length (scopes a) - 1) ltac:(lia))
    as [scope ->].
  destruct (has scope name); eexists; (split; [reflexivity|]); [reflexivity|].
  unfold depth, setCurrent. cbn [scopes].
  rewrite length_app, removelast_length. simpl. lia.
Qed.

Lemma forEach_steady {A : Type} (f : A -> t -> Outcome t) (items : list A) :
  Forall (fun item => steady (f item)) items -> steady (forEach f items).
Proof.
  induction 1 as [|item rest Hitem _ IH]; intros a Hdepth; cbn [forEach]; [eauto|].
  destruct (Hitem a Hdepth) as (a1 & -> & Hd1). cbn [andThen].
  destruct (IH a1 ltac:(lia)) as (a2 & -> & Hd2). exists a2. split; [reflexivity | lia].
Qed.

Lemma analyzeStatement_steady (stmt : AST.Statement) : steady (analyzeStatement stmt).
Proof.
  induction stmt as
    [ identifier value l c | name parameters body l c IHbody | value l c
    | condition thenBranch elseBranch l c IHthen IHelse | times body l c IHbody
    | animations l c | name body l c IHbody | expression l c ]
    using Statement_induction; intros a Hdepth; cbn [analyzeStatement].
  - unfold analyzeLetStatement.
    destruct (declare_steady (AST.name identifier) "variable" (AST.idLine identifier)
                (AST.idColumn identifier) (analyzeExpression value a)
                ltac:(rewrite depth_analyzeExpression; lia)) as (a' & -> & Hd).
    exists a'. split; [reflexivity|]. rewrite Hd. apply depth_analyzeExpression.
  - destruct (declare_steady (AST.name name) "function" (AST.idLine name)
                (AST.idColumn name) a Hdepth) as (a1 & -> & Hd1). cbn [andThen].
    unfold declareParameters.
    destruct (forEach_steady
                (fun param => declare (AST.name param) "parameter" (AST.idLine param)
                                (AST.idColumn param)) parameters
                ltac:(apply Forall_forall; intros; apply declare_steady)
                (enterScope a1) ltac:(rewrite depth_enterScope; lia))
      as (a2 & -> & Hd2). cbn [andThen].
    destruct (forEach_steady analyzeStatement body IHbody a2
                ltac:(rewrite Hd2, depth_enterScope; lia)) as (a3 & -> & Hd3).
    cbn [andThen]. eexists. split; [reflexivity|].
    rewrite depth_exitScope, Hd3, Hd2, depth_enterScope. simpl. lia.
  - destruct value; eexists; (split; [reflexivity|]);
      [apply depth_analyzeExpression | reflexivity].
  - destruct (forEach_steady analyzeStatement thenBranch IHthen
                (analyzeExpression condition a)
                ltac:(rewrite depth_analyzeExpression; lia)) as (a1 & -> & Hd1).
    cbn [andThen]. rewrite depth_analyzeExpression in Hd1.
    destruct elseBranch as [stmts|].
    + destruct (forEach_steady analyzeStatement stmts IHelse a1 ltac:(lia))
        as (a2 & -> & Hd2).
      exists a2. split; [reflexivity | lia].
    + exists a1. split; [reflexivity | lia].
  - destruct (forEach_steady analyzeStatement body IHbody (analyzeExpression times a)
                ltac:(rewrite depth_analyzeExpression; lia)) as (a1 & -> & Hd1).
    exists a1. split; [reflexivity|]. rewrite Hd1. apply depth_analyzeExpression.
  - eauto.
  - destruct (forEach_steady analyzeStatement body IHbody (enterScope a)
                ltac:(rewrite depth_enterScope; lia)) as (a1 & -> & Hd1).
    cbn [andThen]. eexists. split; [reflexivity|].
    rewrite depth_exitScope, Hd1, depth_enterScope. reflexivity.
  - eexists. split; [reflexivity | apply depth_analyzeExpression].
Qed.

(** *** Errors are only added

    [errors] is written by [push] alone (and emptied when [analyze]
    starts), so an error reported for a statement stays in the list
    whatever follows the statement. *)

Lemma extends_refl (a : t) : extends a a.
Proof. unfold extends. reflexivity. Qed.

Lemma extends_trans (a b c : t) : extends a b -> extends b c -> extends a c.
Proof. unfold extends. intros Hab Hbc. now transitivity (errors b). Qed.

Lemma resolve_extends (name : string) (l c : nat) (a : t) :
  extends a (resolve name l c a).
Proof.
  unfold resolve. destruct (existsb _ _); [apply extends_refl|].
  unfold extends, pushError. cbn [errors]. now apply prefix_app_r.
Qed.

Lemma fold_left_extends {A : Type} (f : t -> A -> t) (items : list A) :
  Forall (fun item => forall a, extends a (f a item)) items ->
  forall a, extends a (fold_left f items a).
Proof.
  induction 1 as [|item rest Hitem _ IH]; intros a; [apply extends_refl|].
  simpl. apply (extends_trans _ (f a item)); [apply Hitem | apply IH].
Qed.

Lemma analyzeExpression_extends (expr : AST.Expression) :
  forall a, extends a (analyzeExpression expr a).
Proof.
  induction expr as
    [ | | | | | callee arguments l c IHcallee IHarguments | | |
    | points color l c IHpoints IHcolor ] using Expression_induction;
    intros a; cbn [analyzeExpression];
    repeat match goal with
           | IH : forall a, extends a (analyzeExpression ?e a)
             |- extends _ (analyzeExpression ?e ?x) =>
               apply (extends_trans _ x); [|apply IH]
           end;
    try apply extends_refl.
  - apply resolve_extends.
  - apply (extends_trans _ (analyzeExpression callee a)); [apply IHcallee|].
    apply fold_left_extends. eapply Forall_impl; [|exact IHarguments]. auto.
  - apply fold_left_extends. eapply Forall_impl; [|exact IHpoints].
    intros point [Hx Hy] b. cbv beta in Hx, Hy.
    apply (extends_trans _ (analyzeExpression (fst point) b)); [apply Hx | apply Hy].
Qed.

Lemma declare_growing (name type : string) (l c : nat) : growing (declare name type l c).
Proof.
  intros a a'. unfold declare. destruct (currentScope a) as [scope|]; [|discriminate].
  destruct (has scope name); intros [= <-].
  - unfold extends, pushError. cbn [errors]. now apply prefix_app_r.
  - unfold extends, setCurrent. cbn [errors]. reflexivity.
Qed.

Lemma forEach_growing {A : Type} (f : A -> t -> Outcome t) (items : list A) :
  Forall (fun item => growing (f item)) items -> growing (forEach f items).
Proof.
  induction 1 as [|item rest Hitem _ IH]; intros a a'; cbn [forEach].
  - intros [= <-]. apply extends_refl.
  - destruct (f item a) as [a1| |] eqn:Hfirst; cbn [andThen]; try discriminate.
    intros Hrest. apply (extends_trans _ a1); [now apply Hitem | now apply IH].
Qed.

Lemma analyzeStatement_growing (stmt : AST.Statement) : growing (analyzeStatement stmt).
Proof.
  induction stmt as
    [ identifier value l c | name parameters body l c IHbody | value l c
    | condition thenBranch elseBranch l c IHthen IHelse | times body l c IHbody
    | animations l c | name body l c IHbody | expression l c ]
    using Statement_induction; intros a a'; cbn [analyzeStatement].
  - unfold analyzeLetStatement. intros Hrun. apply declare_growing in Hrun.
    apply (extends_trans _ (analyzeExpression value a)); [|exact Hrun].
    apply analyzeExpression_extends.
  - destruct (declare _ _ _ _ a) as [a1| |] eqn:Hname; cbn [andThen]; try discriminate.
    unfold declareParameters.
    destruct (forEach _ parameters (enterScope a1)) as [a2| |] eqn:Hparameters;
      cbn [andThen]; try discriminate.
    destruct (forEach analyzeStatement body a2) as [a3| |] eqn:Hbody;
      cbn [andThen]; try discriminate.
    intros [= <-].
    apply declare_growing in Hname.
    apply forEach_growing in Hparameters;
      [|apply Forall_forall; intros; apply declare_growing].
    apply (forEach_growing _ _ IHbody) in Hbody.
    apply (extends_trans _ a1); [exact Hname|].
    apply (extends_trans _ a2); [exact Hparameters | exact Hbody].
  - destruct value; intros [= <-]; [apply analyzeExpression_extends | apply extends_refl].
  - destruct (forEach analyzeStatement thenBranch _) as [a1| |] eqn:Hthen;
      cbn [andThen]; try discriminate.
    apply (forEach_growing _ _ IHthen) in Hthen.
    assert (Hfirst : extends a a1).
    { apply (extends_trans _ (analyzeExpression condition a));
        [apply analyzeExpression_extends | exact Hthen]. }
    destruct elseBranch as [stmts|].
    + intros Helse. apply (forEach_growing _ _ IHelse) in Helse.
      now apply (extends_trans _ a1).
    + now intros [= <-].
  - intros Hbody. apply (forEach_growing _ _ IHbody) in Hbody.
    apply (extends_trans _ (analyzeExpression times a));
      [apply analyzeExpression_extends | exact Hbody].
  - intros [= <-]. apply extends_refl.
  - destruct (forEach analyzeStatement body _) as [a1| |] eqn:Hbody;
      cbn [andThen]; try discriminate.
    intros [= <-]. apply (forEach_growing _ _ IHbody) in Hbody. exact Hbody.
  - intros [= <-]. apply analyzeExpression_extends.
Qed.

(** A new analyzer analyses every program to the end. *)
Lemma analyze_returns (program : AST.Program) :
  exists semanticErrors a', analyze program new = Returned (semanticErrors, a').
Proof.
  unfold analyze, analyzeStatements.
  destruct (forEach_steady analyzeStatement (AST.body program)
              ltac:(apply Forall_forall; intros; apply analyzeStatement_steady)
              {| scopes := scopes new; errors := [] |} ltac:(unfold depth; simpl; lia))
    as (a' & -> & _).
  eauto.
Qed.
End Analysis.
End AnalyzerFacts.

(** ** The façade always returns *)

Module CompilerFacts.

(** [compile] returns for every source: the scan ends, [parse] returns a
    program, the analyzer returns its errors, and the result is a failure
    carrying their messages or a success carrying the generated text; the
    [catch] of [compile] is never entered. What [parse] printed has no part
    in the result. *)
Lemma compile_returns `{Host} (source : string) :
  exists (tokens : list Token.t) (program : AST.Program) (console : list string)
         (semanticErrors : list SemanticError.t) (a' : SemanticAnalyzer.t),
    Lexer.tokenize (Lexer.new source) = Some tokens /\
    Parser.parse (Parser.new tokens) = (Returned program, console) /\
    SemanticAnalyzer.analyze program SemanticAnalyzer.new = Returned (semanticErrors, a') /\
    MFlowCompiler.compile source =
      Some (MFlowCompiler.mkRun
              (if 0 <? length semanticErrors
               then CompilationResult.failed (map SemanticError.message semanticErrors)
               else CompilationResult.ok
                      (fst (CodeGenerator.generate program CodeGenerator.new)))
              console).
Proof.
  unfold MFlowCompiler.compile.
  destruct (LexerFacts.tokenize_returns (Lexer.new source) (LexerFacts.new_synced source))
    as (body & eof & Hscan & Heof & _).
  destruct (ParserTotality.parse_returns (body ++ [eof])) as (program & console & Hparse).
  { exists (length body), eof. split; [|assumption].
    rewrite nth_error_app2 by lia. now rewrite Nat.sub_diag. }
  destruct (AnalyzerFacts.analyze_returns program) as (semanticErrors & a' & Hanalyze).
  exists (body ++ [eof]), program, console, semanticErrors, a'.
  repeat split; try assumption.
  rewrite Hscan. cbn [mbind option_bind]. rewrite Hparse, Hanalyze.
  destruct (0 <? length semanticErrors); reflexivity.
Qed.
End CompilerFacts.

(** ** Scopes and errors of the analysis *)

Module ScopeFacts.
Import SemanticAnalyzer.
Section Scopes.
Context `{Host}.

Lemma unresolved_app (a : t) (first second : list AST.Identifier) :
  unresolved a (first ++ second) = unresolved a first ++ unresolved a second.
Proof. unfold unresolved. now rewrite filter_app, map_app. Qed.

Lemma unresolved_scopes (a b : t) (ids : list AST.Identifier) :
  scopes a = scopes b -> unresolved a ids = unresolved b ids.
Proof. unfold unresolved, visible. now intros ->. Qed.

Lemma resolve_reports (id : AST.Identifier) (a : t) :
  resolve (AST.name id) (AST.idLine id) (AST.idColumn id) a =
    {| scopes := scopes a; errors := errors a ++ unresolved a [id] |}.
Proof.
  unfold resolve, unresolved, visible. cbn [List.filter].
  destruct (existsb _ _); cbn [negb map].
  - rewrite app_nil_r. now destruct a.
  - reflexivity.
Qed.


Lemma reports_then (first : AST.Expression) (ids : list AST.Identifier) (a b : t) :
  reports first ->
  b = {| scopes := scopes a; errors := errors a ++ unresolved a ids |} ->
  analyzeExpression first b =
    {| scopes := scopes a;
       errors := errors a ++ unresolved a (ids ++ identifiersOf first) |}.
Proof.
  intros Hfirst ->. rewrite Hfirst. cbn [scopes errors].
  rewrite (unresolved_scopes
             {| scopes := scopes a; errors := errors a ++ unresolved a ids |} a)
    by reflexivity.
  now rewrite unresolved_app, app_assoc.
Qed.

Lemma reports_fold {A : Type} (f : t -> A -> t) (ids : A -> list AST.Identifier)
  (items : list A) :
  Forall (fun item => forall (seen : list AST.Identifier) (a b : t),
              b = {| scopes := scopes a; errors := errors a ++ unresolved a seen |} ->
              f b item =
                {| scopes := scopes a;
                   errors := errors a ++ unresolved a (seen ++ ids item) |}) items ->
  forall (seen : list AST.Identifier) (a b : t),
    b = {| scopes := scopes a; errors := errors a ++ unresolved a seen |} ->
    fold_left f items b =
      {| scopes := scopes a;
         errors := errors a ++ unresolved a (seen ++ flat_map ids items) |}.
Proof.
  induction 1 as [|item rest Hitem _ IH]; intros seen a b Hb; cbn [fold_left flat_map].
  - now rewrite app_nil_r.
  - rewrite (IH (seen ++ ids item) a); [now rewrite app_assoc|]. now apply Hitem.
Qed.

Lemma start_reports (a : t) :
  a = {| scopes := scopes a; errors := errors a ++ unresolved a [] |}.
Proof. unfold unresolved. cbn. rewrite app_nil_r. now destruct a. Qed.

Lemma analyzeExpression_reports (expr : AST.Expression) : reports expr.
Proof.
  induction expr as
    [ id | | | | operator lhs rhs l c IHlhs IHrhs
    | callee arguments l c IHcallee IHarguments
    | x y size color l c IHx IHy IHsize IHcolor
    | x y width height color l c IHx IHy IHwidth IHheight IHcolor
    | startX startY endX endY color l c IH1 IH2 IH3 IH4 IHcolor
    | points color l c IHpoints IHcolor ] using Expression_induction;
    intros a; cbn [analyzeExpression identifiersOf].
  - apply resolve_reports.
  - apply start_reports.
  - apply start_reports.
  - apply start_reports.
  - rewrite (reports_then rhs (identifiersOf lhs) a _ IHrhs (IHlhs a)). reflexivity.
  - apply (reports_fold _ identifiersOf arguments); [|apply IHcallee].
    eapply Forall_impl; [|exact IHarguments].
    intros arg Harg seen a0 b Hb. cbv beta in Harg. now apply reports_then.
  - rewrite (reports_then color _ a _ IHcolor
               (reports_then size _ a _ IHsize
                  (reports_then y _ a _ IHy (IHx a)))).
    now rewrite <- !app_assoc.
  - rewrite (reports_then color _ a _ IHcolor
               (reports_then height _ a _ IHheight
                  (reports_then width _ a _ IHwidth
                     (reports_then y _ a _ IHy (IHx a))))).
    now rewrite <- !app_assoc.
  - rewrite (reports_then color _ a _ IHcolor
               (reports_then endY _ a _ IH4
                  (reports_then endX _ a _ IH3
                     (reports_then startY _ a _ IH2 (IH1 a))))).
    now rewrite <- !app_assoc.
  - rewrite (reports_then color
               (flat_map (fun point => identifiersOf (fst point) ++ identifiersOf (snd point))
                  points) a _ IHcolor); [reflexivity|].
    rewrite (reports_fold _ (fun point => identifiersOf (fst point) ++ identifiersOf (snd point))
               points) with (seen := []) (a := a); [reflexivity| |apply start_reports].
    eapply Forall_impl; [|exact IHpoints].
    intros point [Hx Hy] seen a0 b Hb. cbv beta in Hx, Hy.
    rewrite (reports_then (snd point) (seen ++ identifiersOf (fst point)) a0 _ Hy).
    + now rewrite <- app_assoc.
    + now apply reports_then.
Qed.

(** *** What a statement does to the scopes and to the errors *)

Lemma known_unresolved (a : t) (ids : list AST.Identifier) : Forall known (unresolved a ids).
Proof.
  unfold unresolved. apply Forall_forall. intros e Hin.
  apply in_map_iff in Hin. destruct Hin as (id & <- & _). exists id. now left.
Qed.

Lemma orderly_ret (f : t -> t) :
  (forall a, exists more, f a = {| scopes := scopes a; errors := errors a ++ more |} /\
                          Forall known more) ->
  orderly (fun a => Returned (f a)).
Proof.
  intros Hf a Hdepth. destruct (Hf a) as (more & Heq & Hknown).
  exists (f a), more. rewrite Heq. repeat split; auto.
Qed.

Lemma orderly_analyzeExpression (expr : AST.Expression) :
  orderly (fun a => Returned (analyzeExpression expr a)).
Proof.
  apply orderly_ret. intros a. eexists. split; [apply analyzeExpression_reports|].
  apply known_unresolved.
Qed.

Lemma orderly_then (f h : t -> Outcome t) :
  orderly f -> orderly h -> orderly (fun a => andThen (f a) h).
Proof.
  intros Hf Hh a Hdepth.
  destruct (Hf a Hdepth) as (a1 & more1 & -> & Hd1 & Hs1 & He1 & Hk1). cbn [andThen].
  destruct (Hh a1 ltac:(lia)) as (a2 & more2 & -> & Hd2 & Hs2 & He2 & Hk2).
  exists a2, (more1 ++ more2). repeat split; try congruence.
  - rewrite He2, He1. now rewrite <- app_assoc.
  - now apply Forall_app.
Qed.

Lemma andThen_assoc (r : Outcome t) (f h : t -> Outcome t) :
  andThen (andThen r f) h = andThen r (fun a => andThen (f a) h).
Proof. now destruct r. Qed.

Lemma removelast_snoc {A : Type} (l : list A) (x : A) : removelast (l ++ [x]) = l.
Proof. apply removelast_last. Qed.

Lemma orderly_declare (name type : string) (l c : nat) : orderly (declare name type l c).
Proof.
  intros a Hdepth. unfold declare, currentScope. unfold depth in Hdepth.
  destruct (lookup_lt_is_Some_2 (scopes a) (length (scopes a) - 1) ltac:(lia))
    as [scope ->].
  destruct (has scope name).
  - eexists _, [_]. repeat split; try reflexivity.
    constructor; [|constructor]. exists (AST.mkIdentifier name l c). now right.
  - eexists _, []. split; [reflexivity|]. repeat split.
    + unfold depth, setCurrent. cbn [scopes].
      rewrite length_app, AnalyzerFacts.removelast_length. simpl. lia.
    + unfold setCurrent. cbn [scopes]. apply removelast_snoc.
    + unfold setCurrent. cbn [errors]. now rewrite app_nil_r.
    + constructor.
Qed.

Lemma orderly_forEach {A : Type} (f : A -> t -> Outcome t) (items : list A) :
  Forall (fun item => orderly (f item)) items -> orderly (forEach f items).
Proof.
  induction 1 as [|item rest Hitem _ IH].
  - intros a Hdepth. exists a, []. cbn [forEach]. rewrite app_nil_r. repeat split; auto.
  - exact (orderly_then _ _ Hitem IH).
Qed.

(** A block analysed in a scope of its own leaves every scope as it
    was. *)
Lemma orderly_scoped (f : t -> Outcome t) :
  orderly f ->
  forall a, 0 < depth a ->
    exists a' more,
      andThen (f (enterScope a)) (fun a1 => Returned (exitScope a1)) = Returned a' /\
      scopes a' = scopes a /\ errors a' = errors a ++ more /\ Forall known more.
Proof.
  intros Hf a Hdepth.
  destruct (Hf (enterScope a) ltac:(rewrite AnalyzerFacts.depth_enterScope; lia))
    as (a1 & more & -> & Hd & Hs & He & Hk).
  cbn [andThen]. exists (exitScope a1), more. repeat split; auto.
  unfold exitScope. cbn [scopes]. rewrite Hs. unfold enterScope. cbn [scopes].
  apply removelast_snoc.
Qed.

Lemma orderly_of_scoped (f : t -> Outcome t) :
  (forall a, 0 < depth a ->
     exists a' more,
       f a = Returned a' /\ scopes a' = scopes a /\ errors a' = errors a ++ more /\
       Forall known more) ->
  orderly f.
Proof.
  intros Hf a Hdepth. destruct (Hf a Hdepth) as (a' & more & Hrun & Hs & He & Hk).
  exists a', more. unfold depth. rewrite Hs. repeat split; auto.
Qed.

Lemma analyzeStatement_orderly (stmt : AST.Statement) : orderly (analyzeStatement stmt).
Proof.
  induction stmt as
    [ identifier value l c | name parameters body l c IHbody | value l c
    | condition thenBranch elseBranch l c IHthen IHelse | times body l c IHbody
    | animations l c | name body l c IHbody | expression l c ]
    using Statement_induction.
  - exact (orderly_then _ _ (orderly_analyzeExpression value)
             (orderly_declare (AST.name identifier) "variable" (AST.idLine identifier)
                (AST.idColumn identifier))).
  - apply (orderly_then _ _ (orderly_declare _ _ _ _)).
    apply orderly_of_scoped. intros a Hdepth.
    destruct (orderly_scoped
                (fun a2 => andThen (declareParameters parameters a2)
                             (forEach analyzeStatement body))
                (orderly_then _ _
                   (orderly_forEach _ parameters
                      ltac:(apply Forall_forall; intros; apply orderly_declare))
                   (orderly_forEach _ body IHbody))
                a Hdepth) as (a' & more & Hrun & Hrest).
    rewrite andThen_assoc in Hrun. exists a', more. split; [exact Hrun | exact Hrest].
  - destruct value as [e|]; [apply orderly_analyzeExpression|].
    apply orderly_ret. intros a. exists []. rewrite app_nil_r. split; [now destruct a|auto].
  - refine (orderly_then _
              (fun a0 => andThen (forEach analyzeStatement thenBranch a0)
                           (fun a1 => match elseBranch with
                                      | Some stmts => forEach analyzeStatement stmts a1
                                      | None => Returned a1
                                      end))
              (orderly_analyzeExpression condition) _).
    apply orderly_then; [now apply orderly_forEach|].
    destruct elseBranch as [stmts|]; [now apply orderly_forEach|].
    apply orderly_ret. intros a. exists []. rewrite app_nil_r. split; [now destruct a|auto].
  - exact (orderly_then _ (forEach analyzeStatement body)
             (orderly_analyzeExpression times) (orderly_forEach _ _ IHbody)).
  - apply orderly_ret. intros a. exists []. rewrite app_nil_r. split; [now destruct a|auto].
  - apply orderly_of_scoped. intros a Hdepth.
    apply (orderly_scoped (forEach analyzeStatement body)); [|exact Hdepth].
    now apply orderly_forEach.
  - apply orderly_analyzeExpression.
Qed.

(** *** Running the analysis on a known stack of scopes *)

Lemma has_insert_same (scope : gmap string Symbol.t) (name : string) (s : Symbol.t) :
  has (<[name := s]> scope) name = true.
Proof.
  unfold has. rewrite lookup_insert_eq. rewrite bool_decide_eq_true_2; [reflexivity | eauto].
Qed.

Lemma has_insert_other (scope : gmap string Symbol.t) (name other : string) (s : Symbol.t) :
  name <> other -> has (<[name := s]> scope) other = has scope other.
Proof. intros Hne. unfold has. now rewrite lookup_insert_ne. Qed.

Lemma declare_in (scope : gmap string Symbol.t) (name type : string) (l c : nat) (a : t) :
  currentScope a = Some scope ->
  declare name type l c a =
    Returned
      (if has scope name
       then pushError ("Variable '" +:+ name +:+ "' is already declared in this scope") l c a
       else setCurrent (<[name := Symbol.mk type l c]> scope) a).
Proof. unfold declare. intros ->. now destruct (has scope name). Qed.

Lemma analyzeExpression_closed (expr : AST.Expression) (a : t) :
  identifiersOf expr = [] -> analyzeExpression expr a = a.
Proof.
  intros Hclosed. rewrite analyzeExpression_reports, Hclosed.
  unfold unresolved. cbn. rewrite app_nil_r. now destruct a.
Qed.

Lemma resolve_visible (name : string) (l c : nat) (a : t) :
  visible a name = true -> resolve name l c a = a.
Proof. unfold resolve, visible. now intros ->. Qed.

Lemma resolve_hidden (name : string) (l c : nat) (a : t) :
  visible a name = false ->
  resolve name l c a = pushError ("Undefined variable '" +:+ name +:+ "'") l c a.
Proof. unfold resolve, visible. now intros ->. Qed.

(** The innermost scope is the first one [resolve] looks into. *)
Lemma scopes_top (a : t) (scope : gmap string Symbol.t) :
  currentScope a = Some scope -> scopes a = removelast (scopes a) ++ [scope].
Proof.
  unfold currentScope. intros Hlast.
  destruct (scopes a) as [|first rest] eqn:Hscopes using rev_ind; [discriminate|].
  rewrite removelast_snoc. f_equal. f_equal.
  rewrite length_app in Hlast. cbn [length] in Hlast.
  rewrite lookup_app_r in Hlast by lia.
  replace (length rest + 1 - 1 - length rest) with 0 in Hlast by lia.
  now injection Hlast.
Qed.

Lemma visible_top (a : t) (scope : gmap string Symbol.t) (name : string) :
  currentScope a = Some scope -> has scope name = true -> visible a name = true.
Proof.
  intros Htop Hhas. unfold visible. rewrite (scopes_top a scope Htop), rev_app_distr.
  cbn [rev app existsb]. now rewrite Hhas.
Qed.

Lemma visible_below (a : t) (name : string) :
  0 < depth a ->
  existsb (fun scope => has scope name) (removelast (scopes a)) = true ->
  visible a name = true.
Proof.
  unfold depth, visible. intros Hdepth Hbelow.
  destruct (scopes a) as [|first rest] using rev_ind; [cbn in Hdepth; lia|].
  rewrite removelast_snoc in Hbelow. rewrite rev_app_distr. cbn [rev app existsb].
  apply orb_true_iff. right.
  apply existsb_exists in Hbelow as (scope & Hin & Hscope).
  apply existsb_exists. exists scope. split; [now apply in_rev in Hin | exact Hscope].
Qed.

Lemma currentScope_setCurrent (scope : gmap string Symbol.t) (a : t) :
  currentScope (setCurrent scope a) = Some scope.
Proof.
  unfold currentScope, setCurrent. cbn [scopes].
  rewrite length_app. cbn [length].
  rewrite lookup_app_r by lia.
  now replace (length (removelast (scopes a)) + 1 - 1 - length (removelast (scopes a)))
    with 0 by lia.
Qed.

(** Parameters with distinct names that the scope does not hold are all
    declared, without an error. *)
Lemma declare_all (parameters : list AST.Identifier) :
  forall (scope : gmap string Symbol.t) (a : t),
    currentScope a = Some scope ->
    NoDup (map AST.name parameters) ->
    Forall (fun param => has scope (AST.name param) = false) parameters ->
    exists (a' : t) (scope' : gmap string Symbol.t),
      declareParameters parameters a = Returned a' /\
      errors a' = errors a /\
      removelast (scopes a') = removelast (scopes a) /\
      depth a' = depth a /\
      currentScope a' = Some scope' /\
      (forall param, In param parameters -> has scope' (AST.name param) = true) /\
      (forall name, has scope name = true -> has scope' name = true).
Proof.
  unfold declareParameters.
  induction parameters as [|param rest IH]; intros scope a Htop Hdistinct Hfresh;
    cbn [forEach].
  - exists a, scope. repeat split; auto; intros param [].
  - cbn [map] in Hdistinct.
    inversion Hdistinct as [|first others Hnotin Hdistinct']; subst first others.
    clear Hdistinct. rename Hdistinct' into Hdistinct.
    inversion Hfresh as [|first others Hparam Hfresh']; subst first others.
    clear Hfresh. rename Hfresh' into Hfresh.
    rewrite (declare_in scope) by assumption. rewrite Hparam. cbn [andThen].
    set (scope1 := <[AST.name param := Symbol.mk "parameter" (AST.idLine param)
                                          (AST.idColumn param)]> scope).
    destruct (IH scope1 (setCurrent scope1 a) (currentScope_setCurrent _ _) Hdistinct)
      as (a' & scope' & Hrun & He & Hs & Hd & Htop' & Hall & Hkeep).
    { apply Forall_forall. intros other Hin. subst scope1.
      rewrite has_insert_other.
      - exact (proj1 (Forall_forall _ _) Hfresh other Hin).
      - intros Heq. apply Hnotin. rewrite Heq. apply list_elem_of_In. now apply in_map. }
    exists a', scope'. split; [exact Hrun|]. split; [exact He|].
    assert (Hdepth : 0 < depth a).
    { unfold depth. rewrite (scopes_top a scope Htop), length_app. cbn. lia. }
    split; [rewrite Hs; unfold setCurrent; cbn [scopes]; apply removelast_snoc|].
    split.
    { rewrite Hd. unfold depth, setCurrent. cbn [scopes].
      rewrite length_app, AnalyzerFacts.removelast_length. unfold depth in Hdepth.
      cbn [length]. lia. }
    split; [exact Htop'|]. split.
    + intros other [<- | Hin]; [|now apply Hall].
      apply Hkeep. subst scope1. apply has_insert_same.
    + intros name Hname. apply Hkeep. subst scope1.
      destruct (String.eqb_spec (AST.name param) name) as [<- | Hne].
      * apply has_insert_same.
      * now rewrite has_insert_other.
Qed.

Lemma unresolved_none (a : t) (ids : list AST.Identifier) :
  Forall (fun id => visible a (AST.name id) = true) ids -> unresolved a ids = [].
Proof.
  unfold unresolved. induction 1 as [|id rest Hid _ IH]; [reflexivity|].
  cbn [List.filter]. now rewrite Hid.
Qed.

Lemma forEach_app {A : Type} (f : A -> t -> Outcome t) (first second : list A) (a : t) :
  forEach f (first ++ second) a = andThen (forEach f first a) (forEach f second).
Proof.
  revert a. induction first as [|item rest IH]; intros a; [reflexivity|].
  cbn [app forEach]. destruct (f item a) as [a1| |]; cbn [andThen]; auto.
Qed.
Lemma identifiers_of_identifiers (ids : list AST.Identifier) :
  flat_map identifiersOf (map AST.IdentifierExpr ids) = ids.
Proof. induction ids as [|id rest IH]; [reflexivity|]. cbn. now rewrite IH. Qed.
End Scopes.
End ScopeFacts.

(** ** The emitted text *)

Module EmissionFacts.
Import CodeGenerator.
Section Texts.
Context `{Host}.

(** Running a chain of emitting steps from [fresh i]. *)
Lemma output_emit (code : string) (g : t) : output (emit code g) = output g +:+ code.
Proof. reflexivity. Qed.

Lemma blockText_nil (i : nat) : blockText i [] = EmptyString.
Proof. reflexivity. Qed.

Lemma blockText_cons (i : nat) (stmt : AST.Statement) (rest : list AST.Statement) :
  blockText i (stmt :: rest) = statementText i stmt +:+ blockText i rest.
Proof.
  unfold blockText at 1, generateStatements. cbn [forEach].
  change (forEach generateStatement rest) with (generateStatements rest).
  rewrite GeneratorFacts.generateStatement_output, GeneratorFacts.generateStatements_output.
  reflexivity.
Qed.

Lemma blockText_app (i : nat) (first second : list AST.Statement) :
  blockText i (first ++ second) = blockText i first +:+ blockText i second.
Proof.
  induction first as [|stmt rest IH]; [reflexivity|].
  cbn [app]. rewrite !blockText_cons, IH, GeneratorFacts.append_assoc. reflexivity.
Qed.

(** The arguments of a call after the first. *)
Lemma arguments_after_first (i : nat) (arguments : list AST.Expression) :
  forall (k : nat) (g : t),
    indent g = i ->
    output
      (forEachIndexed
         (fun i arg g => (if 0 <? i then emit ", " g else g) |> generateExpression arg)
         (S k) arguments g) =
      output g +:+
        fold_right (fun arg text => ", " +:+ expressionText i arg +:+ text) EmptyString arguments
    /\ indent (forEachIndexed
         (fun i arg g => (if 0 <? i then emit ", " g else g) |> generateExpression arg)
         (S k) arguments g) = i.
Proof.
  induction arguments as [|arg rest IH]; intros k g Hi; cbn [forEachIndexed fold_right].
  - now rewrite GeneratorFacts.append_empty_r.
  - change (0 <? S k) with true. cbv iota.
    rewrite GeneratorFacts.generateExpression_output.
    destruct (IH (S k) {| indent := indent (emit ", " g);
                          output := output (emit ", " g) +:+
                                    expressionText (indent (emit ", " g)) arg |})
      as [Hout Hind]; [exact Hi|].
    rewrite Hout, Hind. split; [|reflexivity].
    cbn [output indent emit]. rewrite Hi, !GeneratorFacts.append_assoc. reflexivity.
Qed.

Lemma join_cons (separator part : string) (rest : list string) :
  join separator (part :: rest) =
    part +:+ fold_right (fun s text => separator +:+ s +:+ text) EmptyString rest.
Proof.
  revert part. induction rest as [|next rest IH]; intros part.
  - cbn [join fold_right]. now rewrite GeneratorFacts.append_empty_r.
  - change (join separator (part :: next :: rest))
      with (part +:+ separator +:+ join separator (next :: rest)).
    rewrite IH. reflexivity.
Qed.

Lemma arguments_text (i : nat) (arguments : list AST.Expression) (g : t) :
  indent g = i ->
  output
    (forEachIndexed
       (fun i arg g => (if 0 <? i then emit ", " g else g) |> generateExpression arg)
       0 arguments g) =
    output g +:+ join ", " (map (expressionText i) arguments).
Proof.
  intros Hi. destruct arguments as [|arg rest]; cbn [forEachIndexed map].
  - cbn [join]. now rewrite GeneratorFacts.append_empty_r.
  - change (0 <? 0) with false. cbv iota.
    rewrite GeneratorFacts.generateExpression_output.
    destruct (arguments_after_first i rest 0
                {| indent := indent g; output := output g +:+ expressionText (indent g) arg |})
      as [Hout _]; [exact Hi|].
    rewrite Hout. cbn [output]. rewrite Hi, join_cons, GeneratorFacts.append_assoc.
    f_equal. f_equal. clear. induction rest as [|next rest IH]; [reflexivity|].
    cbn [map fold_right]. now rewrite IH.
Qed.
Lemma commands_text (animations : list AST.AnimationCommand) :
  forall g : t,
    forEach generateAnimationCommand animations g =
      {| indent := indent g;
         output := output g +:+
                   fold_right (fun cmd text => commandText (indent g) cmd +:+ text)
                     EmptyString animations |}.
Proof.
  induction animations as [|cmd rest IH]; intros g; cbn [forEach fold_right].
  - rewrite GeneratorFacts.append_empty_r. now destruct g.
  - rewrite GeneratorFacts.generateAnimationCommand_output, IH. cbn [indent output].
    now rewrite GeneratorFacts.append_assoc.
Qed.

(** [generate] once the runtime setup has been emitted as [header]. *)
Lemma generate_after (program : AST.Program) (g : t) (header : string) :
  preamble {| indent := 0; output := EmptyString |} = {| indent := 1; output := header |} ->
  generate program g =
    (header +:+ blockText 1 (AST.body program) +:+ "})();" +:+ nl,
     {| indent := 0;
        output := header +:+ blockText 1 (AST.body program) +:+ "})();" +:+ nl |}).
Proof.
  intros Hp. unfold generate.
  rewrite Hp, GeneratorFacts.generateStatements_output.
  unfold indentLess, emitLine, emit. cbn [indent output pred repeatText].
  change (EmptyString +:+ "})();" +:+ nl) with ("})();" +:+ nl).
  rewrite !GeneratorFacts.append_assoc. reflexivity.
Qed.
End Texts.
End EmissionFacts.

(** ** Calls of [compile] on the heap *)

Module SessionFacts.
Import Session.

(** The instance just created is the one its reference refers to, and a
    method called through the reference changes that instance alone. *)
Lemma lookup_created {A : Type} (instances : list A) (created : A) :
  (instances ++ [created]) !! length instances = Some created.
Proof. now apply list_lookup_middle. Qed.

Lemma insert_created {A : Type} (instances : list A) (created changed : A) :
  <[length instances := changed]> (instances ++ [created]) = instances ++ [changed].
Proof.
  rewrite insert_app_r_alt by lia. now rewrite Nat.sub_diag.
Qed.

Section Calls.
Context `{Host}.

(** A call of [compile] in any heap returns what [MFlowCompiler.compile]
    returns: it leaves the instances that were there as they were and adds
    its own. *)
Lemma compile_in (source : string) (tokens : list Token.t) (program : AST.Program)
    (printed : list string) (semanticErrors : list SemanticError.t)
    (a' : SemanticAnalyzer.t) :
  Lexer.tokenize (Lexer.new source) = Some tokens ->
  Parser.parse (Parser.new tokens) = (Returned program, printed) ->
  SemanticAnalyzer.analyze program SemanticAnalyzer.new = Returned (semanticErrors, a') ->
  forall heap : Heap,
    exists (lexer : Lexer.t) (parser : Parser.t),
      compile source heap =
        Some (if 0 <? length semanticErrors
              then CompilationResult.failed (map SemanticError.message semanticErrors)
              else CompilationResult.ok
                     (fst (CodeGenerator.generate program CodeGenerator.new)),
              mkHeap (lexers heap ++ [lexer]) (parsers heap ++ [parser])
                (analyzers heap ++ [a'])
                (generators heap ++
                   (if 0 <? length semanticErrors then []
                    else [snd (CodeGenerator.generate program CodeGenerator.new)]))
                (console heap ++ printed)).
Proof.
  intros Hscan Hparse Hanalyze heap.
  unfold Lexer.tokenize in Hscan.
  destruct (Lexer.nextToken (Lexer.budget (Lexer.new source)) (Lexer.new source))
    as [[token l1]|] eqn:Hfirst; [|discriminate].
  cbn [mbind option_bind] in Hscan.
  destruct (Lexer.tokenizeLoop (Lexer.budget (Lexer.new source))
              (Lexer.budget (Lexer.new source)) [] token l1)
    as [[tokens' l2]|] eqn:Hloop; [|discriminate].
  cbn [mbind option_bind] in Hscan. injection Hscan as ->.
  unfold Parser.parse in Hparse.
  destruct (Parser.parseLoop (Parser.budget (Parser.new tokens))
              (Parser.budget (Parser.new tokens)) [] [] (Parser.new tokens))
    as [[outcome printed'] p'] eqn:Hstatements.
  destruct outcome as [statements|e|]; try discriminate.
  injection Hparse as Hprogram Hprinted.
  exists l2, p'.
  unfold compile, bind, newLexer, tokenize.
  cbn [lexers parsers analyzers generators console].
  rewrite lookup_created. cbn [mbind option_bind].
  rewrite Hfirst. cbn [mbind option_bind].
  rewrite Hloop. cbn [mbind option_bind].
  rewrite insert_created.
  unfold newParser, parse. cbn [lexers parsers analyzers generators console].
  rewrite lookup_created. cbn [mbind option_bind].
  rewrite Hstatements, insert_created, Hprogram, Hprinted.
  unfold newSemanticAnalyzer, analyze. cbn [lexers parsers analyzers generators console].
  rewrite lookup_created. cbn [mbind option_bind].
  rewrite Hanalyze, insert_created.
  destruct (0 <? length semanticErrors).
  - unfold ret. now rewrite app_nil_r.
  - unfold newCodeGenerator, generate, ret.
    cbn [lexers parsers analyzers generators console].
    rewrite lookup_created. cbn [mbind option_bind].
    destruct (CodeGenerator.generate program CodeGenerator.new) as [output g'].
    now rewrite insert_created.
Qed.
End Calls.
End SessionFacts.

(** * The properties of the pipeline *)

(** ** Lexer *)



(** ** Code generator *)

Section GeneratorProperties.
Context `{Host}.
Import CodeGenerator.

(** The text of one update of the transform state. *)
Lemma update_text (target : string) (value : AST.Expression) (g : t) :
  output (g |> emitIndent |> emit target |> generateExpression value |> emit (";" +:+ nl)) =
    output g +:+ pad (indent g) +:+ target +:+ expressionText (indent g) value +:+ ";" +:+ nl.
Proof.
  rewrite GeneratorFacts.generateExpression_output.
  unfold emitIndent, emit, pad. cbn [output indent].
  rewrite !GeneratorFacts.append_assoc. reflexivity.
Qed.

(** C7. The statement emitted for an animation command, after the
    indentation: [move] updates [animationState.x] for left and right and
    [animationState.y] for up and down, with [-=] for left and up and [+=]
    for right and down; [rotate] is [animationState.rotation +=], [scale]
    is [animationState.scale *=], [fade] is [animationState.opacity -=];
    the right-hand side is the text of the magnitude. *)
Theorem animation_commands_update_transform_state :
  forall (magnitude : AST.Expression) (l c : nat) (g : t),
    let emittedBy cmd := output (generateAnimationCommand cmd g) in
    let statement target :=
      output g +:+ pad (indent g) +:+ target
        +:+ expressionText (indent g) magnitude +:+ ";" +:+ nl in
    emittedBy (AST.Move magnitude "left" l c) = statement "animationState.x -= " /\
    emittedBy (AST.Move magnitude "right" l c) = statement "animationState.x += " /\
    emittedBy (AST.Move magnitude "up" l c) = statement "animationState.y -= " /\
    emittedBy (AST.Move magnitude "down" l c) = statement "animationState.y += " /\
    emittedBy (AST.Rotate magnitude l c) = statement "animationState.rotation += " /\
    emittedBy (AST.Scale magnitude l c) = statement "animationState.scale *= " /\
    emittedBy (AST.Fade magnitude l c) = statement "animationState.opacity -= ".
Proof.
  intros magnitude l c g emittedBy statement. subst emittedBy statement.
  repeat split; apply update_text.
Qed.
End GeneratorProperties.

(** ** The emitted loop *)

Module LoopFacts.
Import HostLoop.

Section Rounds.
Variable State : Type.
Variable evaluate : string -> nat -> State -> option Z * State.
Variable execute : string -> nat -> State -> Completion * State.

(** The bound is evaluated before every round, and once more unless the
    block has taken control out of the statement. *)
Lemma roundsFrom_evaluations (loop : CountedLoop) :
  forall (fuel i evaluated : nat) (s : State) (r : Run State),
    roundsFrom State evaluate execute fuel loop i evaluated s = Some r ->
    evaluations r + i =
      match ending r with
      | BlockLeft => rounds r
      | _ => S (rounds r)
      end + evaluated.
Proof.
  induction fuel as [|fuel IH]; intros i evaluated s r; cbn [roundsFrom];
    destruct (evaluate (bound loop) i s) as [[n|] s1];
    try (intros [= <-]; cbn; lia);
    destruct (Z.of_nat i <? n)%Z; try discriminate;
    try (intros [= <-]; cbn; lia).
  destruct (execute (block loop) i s1) as [[|] s2].
  - intros Hrun. apply IH in Hrun. lia.
  - intros [= <-]. cbn. lia.
Qed.

Section Stable.
Variable loop : CountedLoop.
Variable n : nat.
Hypothesis stable : forall i s, evaluate (bound loop) i s = (Some (Z.of_nat n), s).

(** With a bound that yields the same [n] at every test and has no effect,
    and a block that completes normally in every round, the block is
    executed [n] times. *)
Lemma roundsFrom_stable :
  (forall i s, i < n -> fst (execute (block loop) i s) = Normal) ->
  forall (fuel i evaluated : nat) (s : State),
    i + fuel = n ->
    roundsFrom State evaluate execute fuel loop i evaluated s =
      Some (mkRun n (S (evaluated + fuel)) TestFailed
              (after State execute loop (seq i fuel) s)).
Proof.
  intros Hnormal. induction fuel as [|fuel IH]; intros i evaluated s Hsum;
    cbn [roundsFrom]; rewrite stable.
  - replace i with n by lia. rewrite Z.ltb_irrefl. cbn.
    do 2 f_equal. lia.
  - assert (Hlt : (Z.of_nat i <? Z.of_nat n)%Z = true) by (apply Z.ltb_lt; lia).
    rewrite Hlt. specialize (Hnormal i s ltac:(lia)).
    destruct (execute (block loop) i s) as [completion s2] eqn:Hround.
    cbn [fst] in Hnormal. subst completion.
    rewrite (IH (S i) (S evaluated)) by lia.
    unfold after. cbn [seq fold_left]. rewrite Hround. cbn [snd].
    do 2 f_equal. lia.
Qed.

(** With such a bound, a block that completes normally in the rounds
    before round [k] and does not in round [k] makes round [k] the last:
    the bound is not evaluated again. *)
Lemma roundsFrom_leaves (k : nat) :
  k < n ->
  (forall i s, i < k -> fst (execute (block loop) i s) = Normal) ->
  (forall s, fst (execute (block loop) k s) = Abrupt) ->
  forall (d fuel i evaluated : nat) (s : State),
    i + d = k -> d < fuel ->
    roundsFrom State evaluate execute fuel loop i evaluated s =
      Some (mkRun (S k) (S (evaluated + d)) BlockLeft
              (after State execute loop (seq i (S d)) s)).
Proof.
  intros Hk Hnormal Habrupt. induction d as [|d IH]; intros fuel i evaluated s Hsum Hfuel;
    (destruct fuel as [|fuel]; [lia|]); cbn [roundsFrom]; rewrite stable;
    (assert (Hlt : (Z.of_nat i <? Z.of_nat n)%Z = true) by (apply Z.ltb_lt; lia));
    rewrite Hlt.
  - replace i with k in * by lia. specialize (Habrupt s).
    destruct (execute (block loop) k s) as [completion s2] eqn:Hround.
    cbn [fst] in Habrupt. subst completion.
    unfold after. cbn [seq fold_left]. rewrite Hround. cbn [snd].
    do 2 f_equal. lia.
  - specialize (Hnormal i s ltac:(lia)).
    destruct (execute (block loop) i s) as [completion s2] eqn:Hround.
    cbn [fst] in Hnormal. subst completion.
    rewrite (IH fuel (S i) (S evaluated)) by lia.
    unfold after. cbn [seq fold_left]. rewrite Hround. cbn [snd].
    do 2 f_equal. lia.
Qed.
End Stable.
End Rounds.
End LoopFacts.

(** C3, as the code has it. The text emitted for [repeat n { body }] is one
    [for] statement whose test compares the counter with the text of [n] and
    whose block is the text of the body, once. Run by the host, the bound is
    evaluated before every round, and once more unless the block has taken
    control out of the statement. When every evaluation of the bound yields
    the same [n] and has no effect, the block is executed exactly [n] times
    if it completes normally in every round; a round in which it returns or
    throws is the last one, after which the bound is not evaluated again. *)
Theorem repeat_emits_loop_that_tests_bound_every_round :
  forall (H : Host) (times : AST.Expression) (body : list AST.Statement) (l c : nat)
         (g : CodeGenerator.t),
    let loop := HostLoop.emitted (CodeGenerator.indent g) times body in
    CodeGenerator.output
      (CodeGenerator.generateStatement (AST.RepeatStatement times body l c) g) =
      CodeGenerator.output g +:+ HostLoop.render (CodeGenerator.indent g) loop /\
    HostLoop.bound loop = CodeGenerator.expressionText (CodeGenerator.indent g) times /\
    HostLoop.block loop = CodeGenerator.blockText (S (CodeGenerator.indent g)) body /\
    forall (State : Type) (evaluate : string -> nat -> State -> option Z * State)
           (execute : string -> nat -> State -> HostLoop.Completion * State),
      (forall (fuel : nat) (s : State) (r : HostLoop.Run State),
          HostLoop.run State evaluate execute fuel loop s = Some r ->
          HostLoop.evaluations r =
            match HostLoop.ending r with
            | HostLoop.BlockLeft => HostLoop.rounds r
            | _ => S (HostLoop.rounds r)
            end) /\
      forall n : nat,
        (forall i s, evaluate (HostLoop.bound loop) i s = (Some (Z.of_nat n), s)) ->
        ((forall i s, i < n ->
             fst (execute (HostLoop.block loop) i s) = HostLoop.Normal) ->
         forall s : State,
           HostLoop.run State evaluate execute n loop s =
             Some (HostLoop.mkRun n (S n) HostLoop.TestFailed
                     (HostLoop.after State execute loop (seq 0 n) s))) /\
        (forall k : nat,
            k < n ->
            (forall i s, i < k ->
                fst (execute (HostLoop.block loop) i s) = HostLoop.Normal) ->
            (forall s, fst (execute (HostLoop.block loop) k s) = HostLoop.Abrupt) ->
            forall s : State,
              HostLoop.run State evaluate execute n loop s =
                Some (HostLoop.mkRun (S k) (S k) HostLoop.BlockLeft
                        (HostLoop.after State execute loop (seq 0 (S k)) s))).
Proof.
  intros H times body l c g loop. split; [|split; [reflexivity|split; [reflexivity|]]].
  - subst loop. cbn [CodeGenerator.generateStatement].
    change (CodeGenerator.forEach CodeGenerator.generateStatement body)
      with (CodeGenerator.generateStatements body).
    unfold CodeGenerator.emitLine.
    rewrite GeneratorFacts.generateExpression_output.
    unfold CodeGenerator.emitIndent, CodeGenerator.emit, CodeGenerator.indentMore.
    cbn [CodeGenerator.output CodeGenerator.indent].
    rewrite GeneratorFacts.generateStatements_output.
    unfold CodeGenerator.indentLess, HostLoop.render, HostLoop.emitted, CodeGenerator.pad.
    cbn [CodeGenerator.output CodeGenerator.indent HostLoop.bound HostLoop.block pred].
    rewrite !GeneratorFacts.append_assoc. reflexivity.
  - intros State evaluate execute. split.
    + intros fuel s r Hrun.
      apply LoopFacts.roundsFrom_evaluations in Hrun. lia.
    + intros n Hstable. split.
      * intros Hnormal s. unfold HostLoop.run.
        rewrite (LoopFacts.roundsFrom_stable State evaluate execute loop n Hstable
                   Hnormal n 0 0 s eq_refl).
        reflexivity.
      * intros k Hk Hnormal Habrupt s. unfold HostLoop.run.
        rewrite (LoopFacts.roundsFrom_leaves State evaluate execute loop n Hstable
                   k Hk Hnormal Habrupt k n 0 0 s eq_refl Hk).
        reflexivity.
Qed.

(** [repeat 3 { }] run by a host whose evaluation of the bound has no
    effect and whose block completes normally: three rounds, four
    evaluations of the bound. *)
Lemma repeat_emits_loop_that_tests_bound_every_round_witness :
  HostLoop.run nat (fun _ _ s => (Some 3%Z, s)) (fun _ _ s => (HostLoop.Normal, S s)) 3
    (HostLoop.emitted 1 (AST.NumberLiteral (H := integerHost) 3 1 8) []) 0 =
    Some (HostLoop.mkRun 3 4 HostLoop.TestFailed 3).
Proof.
  exact (proj1 (proj2 (proj2 (proj2 (proj2
                  (repeat_emits_loop_that_tests_bound_every_round integerHost
                     (AST.NumberLiteral (H := integerHost) 3 1 8) [] 1 1
                     (CodeGenerator.fresh 1))))
                  nat (fun _ _ s => (Some 3%Z, s)) (fun _ _ s => (HostLoop.Normal, S s)))
                  3 (fun _ _ => eq_refl))
           (fun _ _ _ => eq_refl) 0).
Defined.

(** C3 as stated fails, in both of its parts. In
    [fn f() { circle ... return 2 }] followed by [repeat f() { }] the bound
    is the call [f()], which draws a circle and yields 2. The loop emitted
    for it has the text [f()] in its test; a host in which evaluating that
    text draws one circle (the state counts them) and yields 2 runs the
    block twice and evaluates the bound three times, drawing three circles,
    where one evaluation at loop entry would draw one. And the block
    emitted for [repeat 3 { return }] is the line [return;]: a host in
    which executing that text returns enters the block once, not three
    times. *)
Lemma repeat_bound_evaluated_at_every_test :
  let parsed (source : string) :=
    tokens ← Lexer.tokenize (Lexer.new source);
    Some (fst (Parser.parse (H := integerHost) (Parser.new tokens))) in
  (let source :=
     "fn f() { circle at (0, 0) size 1 color #000000 return 2 }" +:+ nl
       +:+ "repeat f() { }" in
   let evaluate (text : string) (i circles : nat) : option Z * nat :=
     if String.eqb text "f()" then (Some 2%Z, S circles) else (Some 0%Z, circles) in
   let execute (text : string) (i circles : nat) : HostLoop.Completion * nat :=
     (HostLoop.Normal, circles) in
   exists (declaration : AST.Statement) (times : AST.Expression),
     parsed source =
       Some (Returned (AST.mkProgram [declaration; AST.RepeatStatement times [] 2 2] 1 1)) /\
     HostLoop.emitted 1 times [] = HostLoop.mkLoop "f()" EmptyString /\
     HostLoop.run nat evaluate execute 5 (HostLoop.emitted 1 times []) 0 =
       Some (HostLoop.mkRun 2 3 HostLoop.TestFailed 3) /\
     3 <> 1) /\
  (let evaluate (text : string) (i : nat) (s : unit) : option Z * unit :=
     if String.eqb text "3" then (Some 3%Z, s) else (None, s) in
   let execute (text : string) (i : nat) (s : unit) : HostLoop.Completion * unit :=
     if String.eqb text ("    return;" +:+ nl) then (HostLoop.Abrupt, s)
     else (HostLoop.Normal, s) in
   exists (times : AST.Expression) (body : list AST.Statement),
     parsed "repeat 3 { return }" =
       Some (Returned (AST.mkProgram [AST.RepeatStatement times body 1 1] 1 1)) /\
     HostLoop.emitted 1 times body = HostLoop.mkLoop "3" ("    return;" +:+ nl) /\
     HostLoop.run unit evaluate execute 5 (HostLoop.emitted 1 times body) tt =
       Some (HostLoop.mkRun 1 1 HostLoop.BlockLeft tt) /\
     1 <> 3).
Proof.
  cbv zeta. split.
  - eexists _, _. split; [vm_compute; reflexivity|].
    split; [vm_compute; reflexivity|].
    split; [vm_compute; reflexivity | discriminate].
  - eexists _, _. split; [vm_compute; reflexivity|].
    split; [vm_compute; reflexivity|].
    split; [vm_compute; reflexivity | discriminate].
Qed.

(** ** Parser *)




(** C10. When the token after the magnitude of a [move] is none of [up],
    [down], [left], [right], [moveCommand] returns a [Move] node whose
    direction is ['right'] (no error is raised), and the statement emitted
    for that node increments [animationState.x]. *)
Theorem move_without_direction_defaults_to_right :
  forall (H : Host) (n : nat) (p p1 : Parser.t) (keyword next : Token.t)
         (amount : AST.Expression),
    Parser.previousToken p = Some keyword ->
    Parser.primary (Parser.expression n) p = (Returned amount, p1) ->
    Parser.facing p1 next ->
    Parser.oneOf [UP; DOWN; LEFT; RIGHT] next = false ->
    Parser.moveCommand n p =
      (Returned (AST.Move amount "right" (Token.line keyword) (Token.column keyword)), p1) /\
    forall g : CodeGenerator.t,
      CodeGenerator.output
        (CodeGenerator.generateAnimationCommand
           (AST.Move amount "right" (Token.line keyword) (Token.column keyword)) g) =
        CodeGenerator.output g +:+ CodeGenerator.pad (CodeGenerator.indent g)
          +:+ "animationState.x += "
          +:+ CodeGenerator.expressionText (CodeGenerator.indent g) amount +:+ ";" +:+ nl.
Proof.
  intros H n p p1 keyword next amount Hkeyword Hamount Hnext Hnone. split.
  - unfold Parser.moveCommand.
    unfold Parser.bind at 1. unfold Parser.previous. rewrite Hkeyword. cbn [Parser.defined Parser.ret].
    unfold Parser.bind at 1. rewrite Hamount.
    unfold Parser.bind at 1. rewrite (ParserFacts.match_facing _ _ _ Hnext).
    rewrite Hnone, andb_false_r. reflexivity.
  - intros g. apply update_text.
Qed.

(** [animate { move 5 }]: the parser stands after [move], the magnitude is
    followed by the closing brace. *)
Lemma move_without_direction_defaults_to_right_witness :
  let tokens :=
    [Token.mk ANIMATE "animate" 1 1; Token.mk LBRACE "{" 1 9; Token.mk MOVE "move" 1 11;
     Token.mk NUMBER "5" 1 16; Token.mk RBRACE "}" 1 18; Token.mk EOF EmptyString 1 19] in
  Lexer.tokenize (Lexer.new "animate { move 5 }") = Some tokens /\
  Parser.moveCommand (H := integerHost) 7 (Parser.mk tokens 3) =
    (Returned (AST.Move (AST.NumberLiteral 5 1 16) "right" 1 11), Parser.mk tokens 4).
Proof.
  cbv zeta. split; [vm_compute; reflexivity|].
  refine (proj1 (move_without_direction_defaults_to_right integerHost 7
                   (Parser.mk _ 3) (Parser.mk _ 4)
                   (Token.mk MOVE "move" 1 11) (Token.mk RBRACE "}" 1 18)
                   (AST.NumberLiteral 5 1 16) _ _ _ _));
    vm_compute; reflexivity.
Defined.

(** ** Semantic analyzer *)

(** C6, where the code departs from it. [analyzeLetStatement] analyses the
    initializer first, against the scopes as the statement finds them, so
    the new binding is not among them; then it declares the name: when the
    innermost scope does not hold it, that scope holds it afterwards (and
    nothing else has changed), and when it does, the declaration is
    reported and the scopes stay as they were. A scope "holds" a name when
    [scope[name]] is truthy, which is the case for an own entry and for
    every name inherited from [Object.prototype]. Hence, on a new analyzer,
    [let x = y] yields exactly the undefined-variable error at [y] and
    leaves [x] declared when neither name is inherited ([y] may be [x]);
    an inherited [y] is not reported although nothing declares it, and an
    inherited [x] is reported as already declared and is not declared. The
    last part is the run of [let x = valueOf], which compiles. *)
Theorem let_declares_after_its_initializer :
  forall (H : Host) (x : AST.Identifier),
    let symbol := Symbol.mk "variable" (AST.idLine x) (AST.idColumn x) in
    (forall (value : AST.Expression) (a : SemanticAnalyzer.t)
            (scope : gmap string Symbol.t),
        SemanticAnalyzer.currentScope a = Some scope ->
        let found :=
          SemanticAnalyzer.errors a ++
            SemanticAnalyzer.unresolved a (SemanticAnalyzer.identifiersOf value) in
        SemanticAnalyzer.analyzeLetStatement x value a =
          Returned
            (if SemanticAnalyzer.has scope (AST.name x)
             then {| SemanticAnalyzer.scopes := SemanticAnalyzer.scopes a;
                     SemanticAnalyzer.errors :=
                       found ++ [SemanticAnalyzer.alreadyDeclared x] |}
             else {| SemanticAnalyzer.scopes :=
                       removelast (SemanticAnalyzer.scopes a)
                         ++ [<[AST.name x := symbol]> scope];
                     SemanticAnalyzer.errors := found |})) /\
    (forall (y : AST.Identifier) (l c : nat),
        let semanticErrors :=
          (if inheritedKey (AST.name y) then []
           else [SemanticAnalyzer.undefinedVariable y]) ++
          (if inheritedKey (AST.name x) then [SemanticAnalyzer.alreadyDeclared x]
           else []) in
        SemanticAnalyzer.analyze
          (AST.mkProgram [AST.LetStatement x (AST.IdentifierExpr y) l c] 1 1)
          SemanticAnalyzer.new =
          Returned
            (semanticErrors,
             {| SemanticAnalyzer.scopes :=
                  [if inheritedKey (AST.name x) then ∅ else {[ AST.name x := symbol ]}];
                SemanticAnalyzer.errors := semanticErrors |})) /\
    MFlowCompiler.compile (H := integerHost) "let x = valueOf" =
      Some (MFlowCompiler.mkRun
              (CompilationResult.ok
                 (fst (CodeGenerator.generate
                         (AST.mkProgram
                            [AST.LetStatement (AST.mkIdentifier "x" 1 5)
                               (AST.IdentifierExpr (AST.mkIdentifier "valueOf" 1 9)) 1 1]
                            1 1)
                         CodeGenerator.new)))
              []).
Proof.
  intros H x symbol.
  assert (Hlet : forall (value : AST.Expression) (a : SemanticAnalyzer.t)
                        (scope : gmap string Symbol.t),
             SemanticAnalyzer.currentScope a = Some scope ->
             SemanticAnalyzer.analyzeLetStatement x value a =
               Returned
                 (if SemanticAnalyzer.has scope (AST.name x)
                  then {| SemanticAnalyzer.scopes := SemanticAnalyzer.scopes a;
                          SemanticAnalyzer.errors :=
                            (SemanticAnalyzer.errors a ++
                               SemanticAnalyzer.unresolved a
                                 (SemanticAnalyzer.identifiersOf value))
                              ++ [SemanticAnalyzer.alreadyDeclared x] |}
                  else {| SemanticAnalyzer.scopes :=
                            removelast (SemanticAnalyzer.scopes a)
                              ++ [<[AST.name x := symbol]> scope];
                          SemanticAnalyzer.errors :=
                            SemanticAnalyzer.errors a ++
                              SemanticAnalyzer.unresolved a
                                (SemanticAnalyzer.identifiersOf value) |})).
  { intros value a scope Hscope.
    unfold SemanticAnalyzer.analyzeLetStatement.
    rewrite (ScopeFacts.analyzeExpression_reports value a).
    rewrite (ScopeFacts.declare_in scope) by exact Hscope.
    destruct (SemanticAnalyzer.has scope (AST.name x)); reflexivity. }
  split; [exact Hlet|]. split; [|vm_compute; reflexivity].
  intros y l c semanticErrors. subst semanticErrors.
  unfold SemanticAnalyzer.analyze, SemanticAnalyzer.analyzeStatements.
  cbn [AST.body SemanticAnalyzer.forEach SemanticAnalyzer.analyzeStatement].
  rewrite (Hlet _ _ ∅) by reflexivity.
  unfold SemanticAnalyzer.unresolved, SemanticAnalyzer.visible.
  cbn [SemanticAnalyzer.identifiersOf List.filter SemanticAnalyzer.scopes
       SemanticAnalyzer.errors SemanticAnalyzer.new SemanticAnalyzer.enterScope
       app rev existsb removelast].
  rewrite !(AnalyzerFacts.has_empty (AST.name x)), !(AnalyzerFacts.has_empty (AST.name y)).
  destruct (inheritedKey (AST.name y)), (inheritedKey (AST.name x)); reflexivity.
Qed.

(** [let x = x] as the parser builds it, on a new analyzer: the use of [x]
    is reported and [x] is declared afterwards. The programs of the claim
    through the whole pipeline, and the two names that go wrong: [valueOf]
    is never declared and its use is not reported, [toString] cannot be
    declared. *)
Lemma let_declares_after_its_initializer_witness :
  let x := AST.mkIdentifier "x" 1 5 in
  let failure message :=
    Some (MFlowCompiler.mkRun (CompilationResult.failed [message]) []) in
  SemanticAnalyzer.currentScope SemanticAnalyzer.new = Some ∅ /\
  SemanticAnalyzer.analyzeLetStatement (H := integerHost) x
    (AST.IdentifierExpr (AST.mkIdentifier "x" 1 9)) SemanticAnalyzer.new =
    Returned
      {| SemanticAnalyzer.scopes := [ {[ "x" := Symbol.mk "variable" 1 5 ]} ];
         SemanticAnalyzer.errors :=
           [SemanticError.mk "Semantic error at line 1, column 9: Undefined variable 'x'"
              1 9] |} /\
  MFlowCompiler.compile (H := integerHost) "let x = x" =
    failure "Semantic error at line 1, column 9: Undefined variable 'x'" /\
  MFlowCompiler.compile (H := integerHost) "let x = y" =
    failure "Semantic error at line 1, column 9: Undefined variable 'y'" /\
  CompilationResult.success
    <$> (MFlowCompiler.result <$> MFlowCompiler.compile (H := integerHost) "let x = valueOf")
    = Some true /\
  MFlowCompiler.compile (H := integerHost) "let toString = toString" =
    failure ("Semantic error at line 1, column 5: "
               +:+ "Variable 'toString' is already declared in this scope").
Proof.
  cbv zeta. split; [reflexivity|]. split.
  - rewrite (proj1 (let_declares_after_its_initializer integerHost
                      (AST.mkIdentifier "x" 1 5))
               (AST.IdentifierExpr (AST.mkIdentifier "x" 1 9)) SemanticAnalyzer.new ∅
               eq_refl).
    vm_compute. reflexivity.
  - repeat split; vm_compute; reflexivity.
Defined.

(** ** The façade *)

(** C2, where the code departs from it. A call of [g] as the first
    statement of a program is analysed before any declaration is reached:
    [g] is reported as undefined, and the error stays first in the list
    whatever statements follow, a declaration [fn g] among them. (Names that
    every object inherits from [Object.prototype] are found in the empty
    scope and are left out.) *)
Theorem call_before_declaration_is_reported :
  forall (H : Host) (g : AST.Identifier) (arguments : list AST.Expression)
         (rest : list AST.Statement) (callLine callColumn line column : nat)
         (programLine programColumn : nat),
    inheritedKey (AST.name g) = false ->
    exists (more : list SemanticError.t) (a' : SemanticAnalyzer.t),
      SemanticAnalyzer.analyze
        (AST.mkProgram
           (AST.ExpressionStatement
              (AST.CallExpression (AST.IdentifierExpr g) arguments callLine callColumn)
              line column :: rest)
           programLine programColumn)
        SemanticAnalyzer.new =
        Returned
          (SemanticError.new ("Undefined variable '" +:+ AST.name g +:+ "'")
             (AST.idLine g) (AST.idColumn g) :: more, a').
Proof.
  intros H g arguments rest callLine callColumn line column programLine programColumn Hg.
  unfold SemanticAnalyzer.analyze, SemanticAnalyzer.analyzeStatements.
  cbn [AST.body SemanticAnalyzer.forEach SemanticAnalyzer.analyzeStatement
       SemanticAnalyzer.andThen SemanticAnalyzer.analyzeExpression].
  set (start := {| SemanticAnalyzer.scopes := SemanticAnalyzer.scopes SemanticAnalyzer.new;
                   SemanticAnalyzer.errors := [] |}).
  rewrite (AnalyzerFacts.resolve_undefined (AST.name g) (AST.idLine g) (AST.idColumn g) start).
  2:{ subst start. unfold SemanticAnalyzer.new, SemanticAnalyzer.enterScope.
      cbn [SemanticAnalyzer.scopes app rev existsb].
      rewrite AnalyzerFacts.has_empty, Hg. reflexivity. }
  set (reported := SemanticAnalyzer.pushError _ _ _ start).
  set (called := fold_left _ arguments reported).
  assert (Hcalled : SemanticAnalyzer.extends reported called).
  { apply AnalyzerFacts.fold_left_extends, Forall_forall.
    intros argument _ a. apply AnalyzerFacts.analyzeExpression_extends. }
  assert (Hdepth : 0 < SemanticAnalyzer.depth called).
  { unfold SemanticAnalyzer.depth. subst called.
    rewrite AnalyzerFacts.fold_left_scopes.
    - subst reported start. simpl. lia.
    - apply Forall_forall. intros argument _ a. apply AnalyzerFacts.analyzeExpression_scopes. }
  destruct (AnalyzerFacts.forEach_steady SemanticAnalyzer.analyzeStatement rest
              ltac:(apply Forall_forall; intros; apply AnalyzerFacts.analyzeStatement_steady)
              called Hdepth) as (a' & Hrest & _).
  rewrite Hrest.
  apply AnalyzerFacts.forEach_growing in Hrest;
    [|apply Forall_forall; intros; apply AnalyzerFacts.analyzeStatement_growing].
  destruct (AnalyzerFacts.extends_trans _ _ _ Hcalled Hrest) as [more Hmore].
  exists more, a'. rewrite Hmore. reflexivity.
Qed.

(** [g()] on the first line and [fn g() { }] on the second: the program
    the parser builds, its analysis, and the result of [compile]. *)
Lemma call_before_declaration_is_reported_witness :
  let source := "g()" +:+ nl +:+ "fn g() { }" in
  let call :=
    AST.ExpressionStatement (H := integerHost)
      (AST.CallExpression (AST.IdentifierExpr (AST.mkIdentifier "g" 1 1)) [] 1 1) 1 1 in
  let declaration := AST.FunctionDeclaration (AST.mkIdentifier "g" 2 5) [] [] 2 2 in
  (tokens ← Lexer.tokenize (Lexer.new source);
   Some (fst (Parser.parse (Parser.new tokens)))) =
    Some (Returned (AST.mkProgram [call; declaration] 1 1)) /\
  (exists more a',
      SemanticAnalyzer.analyze (AST.mkProgram [call; declaration] 1 1) SemanticAnalyzer.new =
        Returned (SemanticError.mk "Semantic error at line 1, column 1: Undefined variable 'g'"
                    1 1 :: more, a')) /\
  MFlowCompiler.compile source =
    Some (MFlowCompiler.mkRun
            (CompilationResult.failed
               ["Semantic error at line 1, column 1: Undefined variable 'g'"])
            []).
Proof.
  cbv zeta. split; [vm_compute; reflexivity|]. split; [|vm_compute; reflexivity].
  exact (call_before_declaration_is_reported integerHost (AST.mkIdentifier "g" 1 1) []
           [AST.FunctionDeclaration (AST.mkIdentifier "g" 2 5) [] [] 2 2] 1 1 1 1 1 1 eq_refl).
Defined.

(** C1, where the code departs from it. No exception leaves [parse],
    whatever the source: a [ParseError] is caught inside it. But the
    diagnostic is only printed, and [compile] has no test on it: for every
    source the result of [compile] is decided by the semantic errors of the
    program [parse] returned, whatever [parse] printed. [let = 5] is a
    syntax error; the parser prints it with [console.error], drops the
    statement and returns; [compile] then analyses and generates the
    remaining (empty) program and reports success, its output being that of
    the program with no statement. *)
Theorem syntax_error_still_compiles :
  (forall (H : Host) (source : string),
      exists (tokens : list Token.t) (program : AST.Program) (console : list string)
             (semanticErrors : list SemanticError.t) (a' : SemanticAnalyzer.t),
        Lexer.tokenize (Lexer.new source) = Some tokens /\
        Parser.parse (Parser.new tokens) = (Returned program, console) /\
        SemanticAnalyzer.analyze program SemanticAnalyzer.new =
          Returned (semanticErrors, a') /\
        MFlowCompiler.compile source =
          Some (MFlowCompiler.mkRun
                  (if 0 <? length semanticErrors
                   then CompilationResult.failed (map SemanticError.message semanticErrors)
                   else CompilationResult.ok
                          (fst (CodeGenerator.generate program CodeGenerator.new)))
                  console)) /\
  MFlowCompiler.compile (H := integerHost) "let = 5" =
    Some (MFlowCompiler.mkRun
            (CompilationResult.ok
               (fst (CodeGenerator.generate (AST.mkProgram [] 1 1) CodeGenerator.new)))
            ["Parse error at line 1, column 5: Expected variable name"]).
Proof.
  split; [|vm_compute; reflexivity].
  intros H source. apply CompilerFacts.compile_returns.
Qed.

(** C4, where the code departs from it. No token [tokenize] returns is a
    newline token, so the test for one in [synchronize] never succeeds on
    the tokens the façade hands the parser: from every place of the cursor
    recovery returns with the cursor at the end of input or at a statement
    keyword, however many lines lie between. After the syntax error in the
    first line of [let = 1] / [circle at (0, 0) size 1 color #000000] the
    recovery runs past the end of the line to the end of input: the circle
    of the second line, which compiles to a drawing call on its own, is
    lost, and the output is that of the program with no statement. *)
Theorem recovery_runs_past_the_line :
  (forall source : string,
      exists tokens : list Token.t,
        Lexer.tokenize (Lexer.new source) = Some tokens /\
        Forall (fun token => Token.type token <> NEWLINE) tokens /\
        forall cursor : nat,
          cursor < length tokens ->
          exists p' : Parser.t,
            Parser.synchronize (length tokens) (Parser.mk tokens cursor) = (Returned tt, p') /\
            Parser.tokens p' = tokens /\
            Parser.resumes p') /\
  (let circle := "circle at (0, 0) size 1 color #000000" in
   let statement :=
     AST.ExpressionStatement (H := integerHost)
       (AST.Circle (AST.NumberLiteral 0 1 12) (AST.NumberLiteral 0 1 15)
          (AST.NumberLiteral 1 1 23) (AST.ColorLiteral "#000000" 1 31) 1 1) 1 1 in
   MFlowCompiler.compile circle =
     Some (MFlowCompiler.mkRun
             (CompilationResult.ok
                (fst (CodeGenerator.generate (AST.mkProgram [statement] 1 1)
                        CodeGenerator.new)))
             []) /\
   MFlowCompiler.compile ("let = 1" +:+ nl +:+ circle) =
     Some (MFlowCompiler.mkRun
             (CompilationResult.ok
                (fst (CodeGenerator.generate (AST.mkProgram [] 1 1) CodeGenerator.new)))
             ["Parse error at line 1, column 5: Expected variable name"])).
Proof.
  split.
  - intros source.
    destruct (LexerFacts.tokenize_returns (Lexer.new source) (LexerFacts.new_synced source))
      as (body & eof & Hrun & Heof & Hkept).
    exists (body ++ [eof]). split; [assumption|].
    assert (Hnone : Forall (fun token => Token.type token <> NEWLINE) (body ++ [eof])).
    { apply Forall_app. split.
      - eapply Forall_impl; [|exact Hkept]. intros token [_ Hne]. exact Hne.
      - constructor; [|constructor]. rewrite Heof. discriminate. }
    split; [exact Hnone|].
    intros cursor Hcursor. rewrite length_app in Hcursor. cbn [length] in Hcursor.
    assert (Hat : nth_error (body ++ [eof]) (length body) = Some eof).
    { rewrite nth_error_app2 by lia. now rewrite Nat.sub_diag. }
    assert (Hbefore : forall i token,
               i < length body -> nth_error (body ++ [eof]) i = Some token ->
               Token.type token <> EOF).
    { intros i token Hi Hnth. rewrite nth_error_app1 in Hnth by assumption.
      apply nth_error_In in Hnth.
      exact (proj1 (proj1 (Forall_forall _ _) Hkept token Hnth)). }
    destruct (ParserTotality.synchronize_returns (body ++ [eof]) (length body) eof
                Hat Heof Hbefore (S (length body)) (Nat.lt_succ_diag_r _)
                cursor (length (body ++ [eof])) (Parser.mk (body ++ [eof]) cursor))
      as [p' Hp'].
    { unfold Parser.inside. cbn [Parser.tokens Parser.current]. repeat split; lia. }
    { cbn [Parser.current]. rewrite length_app. lia. }
    exists p'. split; [exact Hp'|].
    exact (ParserFacts.synchronize_resumes _ (Parser.mk (body ++ [eof]) cursor) p' tt
             Hnone Hp').
  - cbv zeta. split; vm_compute; reflexivity.
Qed.

(** C9. Calls of [compile] share no state. A call creates its lexer, its
    parser, its analyzer and its generator itself and reaches no instance
    that was on the heap before. Whatever the heap holds when the call
    starts (the instances that earlier calls have left, in whatever state)
    the call returns, with the same result; it leaves those instances as
    they were and adds its own, among them the analyzer with the scopes that
    the analysis has filled. So two calls on the same source, the second in
    the heap that the first has left, return the same result. For a source
    that compiles, the output is the runtime setup, then the text of the
    statements that [parse] returns for the source, then the closing
    line. *)
Theorem compile_is_deterministic :
  forall (H : Host) (source : string),
    exists (tokens : list Token.t) (program : AST.Program) (printed : list string)
           (semanticErrors : list SemanticError.t) (used : SemanticAnalyzer.t)
           (result : CompilationResult.t),
      Lexer.tokenize (Lexer.new source) = Some tokens /\
      Parser.parse (Parser.new tokens) = (Returned program, printed) /\
      SemanticAnalyzer.analyze program SemanticAnalyzer.new =
        Returned (semanticErrors, used) /\
      MFlowCompiler.compile source = Some (MFlowCompiler.mkRun result printed) /\
      CompilationResult.output result =
        (if CompilationResult.success result
         then Some (CodeGenerator.output (CodeGenerator.preamble CodeGenerator.new)
                      +:+ CodeGenerator.blockText 1 (AST.body program)
                      +:+ "})();" +:+ nl)
         else None) /\
      (forall heap : Session.Heap,
          exists (lexer : Lexer.t) (parser : Parser.t) (generator : list CodeGenerator.t),
            Session.compile source heap =
              Some (result,
                    Session.mkHeap
                      (Session.lexers heap ++ [lexer])
                      (Session.parsers heap ++ [parser])
                      (Session.analyzers heap ++ [used])
                      (Session.generators heap ++ generator)
                      (Session.console heap ++ printed))) /\
      (forall heap : Session.Heap,
          exists first second : Session.Heap,
            Session.compile source heap = Some (result, first) /\
            Session.compile source first = Some (result, second)).
Proof.
  intros H source.
  destruct (CompilerFacts.compile_returns source)
    as (tokens & program & printed & semanticErrors & used
        & Hscan & Hparse & Hanalyze & Hrun).
  pose proof (SessionFacts.compile_in source tokens program printed semanticErrors used
                Hscan Hparse Hanalyze) as Hin.
  exists tokens, program, printed, semanticErrors, used.
  eexists. split; [exact Hscan|]. split; [exact Hparse|]. split; [exact Hanalyze|].
  split; [exact Hrun|]. split; [|split].
  - destruct (0 <? length semanticErrors); [reflexivity|].
    cbn [CompilationResult.ok CompilationResult.output CompilationResult.success].
    f_equal.
    rewrite (EmissionFacts.generate_after program CodeGenerator.new
               (CodeGenerator.output (CodeGenerator.preamble CodeGenerator.new)));
      [reflexivity | vm_compute; reflexivity].
  - intros heap. destruct (Hin heap) as (lexer & parser & Hcall).
    exists lexer, parser. eexists. exact Hcall.
  - intros heap. destruct (Hin heap) as (lexer & parser & Hfirst).
    match type of Hfirst with
    | _ = Some (_, ?first) => destruct (Hin first) as (lexer' & parser' & Hsecond)
    end.
    eexists _, _. split; [exact Hfirst | exact Hsecond].
Qed.

(** [let x = 100] compiles, and a second call in the heap that the first
    has left returns the same result. The analyzer that the first call has
    left on that heap holds [x]: the same program analysed by that instance
    is reported, so the second call does not reach it. *)
Lemma compile_is_deterministic_witness :
  exists (program : AST.Program) (used : SemanticAnalyzer.t)
         (result : CompilationResult.t) (first second : Session.Heap),
    CompilationResult.success result = true /\
    Session.compile (H := integerHost) "let x = 100" Session.empty = Some (result, first) /\
    Session.compile (H := integerHost) "let x = 100" first = Some (result, second) /\
    Session.analyzers first = [used] /\
    SemanticAnalyzer.analyze program SemanticAnalyzer.new = Returned ([], used) /\
    (let reported :=
       [SemanticError.mk
          ("Semantic error at line 1, column 5: "
             +:+ "Variable 'x' is already declared in this scope") 1 5] in
     SemanticAnalyzer.analyze program used =
       Returned
         (reported,
          {| SemanticAnalyzer.scopes := SemanticAnalyzer.scopes used;
             SemanticAnalyzer.errors := reported |})).
Proof.
  destruct (compile_is_deterministic integerHost "let x = 100")
    as (tokens & program & printed & semanticErrors & used & result
        & Hscan & Hparse & Hanalyze & Hrun & _ & Hin & Htwice).
  destruct (Htwice Session.empty) as (first & second & Hfirst & Hsecond).
  destruct (Hin Session.empty) as (lexer & parser & generator & Hheap).
  rewrite Hfirst in Hheap. injection Hheap as Hshape.
  vm_compute in Hscan. injection Hscan as <-.
  vm_compute in Hparse. injection Hparse as <- <-.
  pose proof Hanalyze as Hused. vm_compute in Hused. injection Hused as <- <-.
  vm_compute in Hrun. injection Hrun as <-.
  match type of Hanalyze with
  | SemanticAnalyzer.analyze ?program _ = Returned (_, ?used) => exists program, used
  end.
  match type of Hfirst with
  | _ = Some (?result, _) => exists result
  end.
  exists first, second.
  split; [reflexivity|]. split; [exact Hfirst|]. split; [exact Hsecond|].
  split; [now rewrite Hshape|]. split; [exact Hanalyze | vm_compute; reflexivity].
Defined.

(** * Further properties of the code *)

(** ** What the tokens are like *)

Module ScanFacts.
Import Lexer.

Lemma nextToken_Scanned :
  forall (fuel : nat) (l l' : t) (token : Token.t),
    nextToken fuel l = Some (token, l') -> Scanned token.
Proof.
  induction fuel as [|fuel IH]; intros l l' token; cbn [nextToken];
    (destruct (currentChar l) as [c0|]; [|intros [= <- _]; apply ScannedEnd]);
    (destruct (skipWhitespace _ l) as [l1|]; [|discriminate]); cbn [mbind option_bind];
    (destruct (currentChar l1) as [c|] eqn:Hc; [|intros [= <- _]; apply ScannedEnd]);
    (destruct (Ascii.eqb c "/" && isChar "/" (peek l1));
     [| destruct (Ascii.eqb c newline); [intros [= <- _]; apply ScannedNewline|];
        destruct (isDigit c) eqn:Hdigit; [intros Hrun; eapply ScannedNumber; eauto|];
        destruct (Ascii.eqb c quote); [intros Hrun; eapply ScannedString; eauto|];
        destruct (Ascii.eqb c "#"); [intros Hrun; eapply ScannedColor; eauto|];
        destruct (isIdentStart c) eqn:Hword; [intros Hrun; eapply ScannedWord; eauto|];
        intros [= Hop];
        replace token with (fst (readOperator c l1)) by (now rewrite Hop);
        apply ScannedOperator ]).
  - discriminate.
  - destruct (skipComment (S fuel) l1) as [l2|]; [|discriminate]. cbn [mbind option_bind].
    apply IH.
Qed.

Lemma tokenizeLoop_Scanned :
  forall (fuel budget : nat) (tokens out : list Token.t) (token : Token.t) (l l' : t),
    tokenizeLoop fuel budget tokens token l = Some (out, l') ->
    Forall Scanned tokens -> Scanned token -> Forall Scanned out.
Proof.
  induction fuel as [|fuel IH]; intros budget tokens out token l l'; cbn [tokenizeLoop];
    destruct (negb (sameType (Token.type token) EOF)).
  - discriminate.
  - intros [= <- _] Htokens Htoken. apply Forall_app. split; auto.
  - destruct (nextToken budget l) as [[token' l1]|] eqn:Hnext; [|discriminate].
    cbn [mbind option_bind]. intros Hrun Htokens Htoken.
    apply (IH _ _ _ _ _ _ Hrun).
    + destruct (negb (sameType (Token.type token) NEWLINE)); [|assumption].
      apply Forall_app. split; auto.
    + exact (nextToken_Scanned _ _ _ _ Hnext).
  - intros [= <- _] Htokens Htoken. apply Forall_app. split; auto.
Qed.

(** Every token of [tokenize] was made by a branch of [nextToken]. *)
Lemma tokenize_Scanned (source : string) :
  exists tokens, tokenize (new source) = Some tokens /\ Forall Scanned tokens.
Proof.
  destruct (LexerFacts.tokenize_returns (new source) (LexerFacts.new_synced source))
    as (body & eof & Hrun & _).
  exists (body ++ [eof]). split; [exact Hrun|].
  unfold tokenize in Hrun.
  destruct (nextToken (budget (new source)) (new source)) as [[token l1]|] eqn:Hfirst;
    [|discriminate].
  cbn [mbind option_bind] in Hrun.
  destruct (tokenizeLoop _ _ [] token l1) as [[tokens l2]|] eqn:Hloop; [|discriminate].
  cbn [mbind option_bind] in Hrun. injection Hrun as <-.
  apply (tokenizeLoop_Scanned _ _ _ _ _ _ _ Hloop); [constructor|].
  exact (nextToken_Scanned _ _ _ _ Hfirst).
Qed.

(** *** The text each reader collects *)

Lemma chars_append (a b : string) : chars (a +:+ b) = chars a ++ chars b.
Proof.
  unfold chars. induction a as [|c a IH]; [reflexivity|].
  rewrite GeneratorFacts.append_cons. cbn [list_ascii_of_string app]. now rewrite IH.
Qed.

Lemma chars_appendChar (s : string) (c : ascii) : chars (appendChar s c) = chars s ++ [c].
Proof. unfold appendChar. now rewrite chars_append. Qed.

Lemma firstIs_appendChar (test : ascii -> bool) (s : string) (c : ascii) :
  firstIs test s = true -> firstIs test (appendChar s c) = true.
Proof.
  destruct s as [|first rest]; [discriminate|]. unfold appendChar.
  now rewrite GeneratorFacts.append_cons.
Qed.

Lemma appendChar_empty (c : ascii) : appendChar EmptyString c = String c EmptyString.
Proof. reflexivity. Qed.

Lemma readNumberLoop_shape :
  forall (fuel : nat) (numStr : string) (hasDot : bool) (l l' : t) (text : string),
    readNumberLoop fuel numStr hasDot l = Some (text, l') ->
    firstIs isDigit numStr = true ->
    forallb (fun c => isDigit c || Ascii.eqb c ".") (chars numStr) = true ->
    length (List.filter (fun c => Ascii.eqb c ".") (chars numStr))
      <= (if hasDot then 1 else 0) ->
    numberShape text = true.
Proof.
  assert (Hdone : forall (numStr : string) (hasDot : bool),
             firstIs isDigit numStr = true ->
             forallb (fun c => isDigit c || Ascii.eqb c ".") (chars numStr) = true ->
             length (List.filter (fun c => Ascii.eqb c ".") (chars numStr))
               <= (if hasDot then 1 else 0) ->
             numberShape numStr = true).
  { intros numStr hasDot Hfirst Hall Hdots. unfold numberShape.
    rewrite Hfirst, Hall. cbn [andb]. apply Nat.leb_le. destruct hasDot; lia. }
  induction fuel as [|fuel IH]; intros numStr hasDot l l' text; cbn [readNumberLoop];
    (destruct (currentChar l) as [c|]; [|intros [= <- _]; apply Hdone]);
    (destruct (isDigit c || Ascii.eqb c ".") eqn:Hok; [|intros [= <- _]; apply Hdone]);
    (destruct (Ascii.eqb c "." && hasDot) eqn:Hsecond; [intros [= <- _]; apply Hdone|]).
  - discriminate.
  - intros Hrun Hfirst Hall Hdots. apply (IH _ _ _ _ _ Hrun).
    + now apply firstIs_appendChar.
    + rewrite chars_appendChar, forallb_app, Hall. cbn [forallb]. now rewrite Hok.
    + rewrite chars_appendChar, filter_app, length_app. cbn [List.filter].
      destruct (Ascii.eqb c "."); cbn [length andb] in *.
      * subst hasDot. lia.
      * destruct hasDot; lia.
Qed.

Lemma readNumber_shape (fuel : nat) (l l' : t) (c : ascii) (token : Token.t) :
  currentChar l = Some c -> isDigit c = true ->
  readNumber fuel l = Some (token, l') ->
  Token.type token = NUMBER /\ numberShape (Token.value token) = true.
Proof.
  intros Hc Hdigit. unfold readNumber.
  destruct (readNumberLoop fuel EmptyString false l) as [[text l1]|] eqn:Hloop;
    [|discriminate].
  cbn [mbind option_bind]. intros [= <- _]. split; [reflexivity|]. cbn [Token.value].
  destruct fuel as [|fuel]; cbn [readNumberLoop] in Hloop; rewrite Hc, Hdigit in Hloop;
    cbn [orb] in Hloop; rewrite andb_false_r in Hloop; [discriminate|].
  rewrite (LexerFacts.digit_not_dot c Hdigit), appendChar_empty in Hloop.
  apply (readNumberLoop_shape _ _ _ _ _ _ Hloop).
  - exact Hdigit.
  - cbn. now rewrite Hdigit.
  - cbn. rewrite (LexerFacts.digit_not_dot c Hdigit). cbn. lia.
Qed.

Lemma readColorLoop_shape :
  forall (fuel : nat) (colorStr : string) (l l' : t) (text : string),
    readColorLoop fuel colorStr l = Some (text, l') ->
    colorShape colorStr = true -> colorShape text = true.
Proof.
  induction fuel as [|fuel IH]; intros colorStr l l' text; cbn [readColorLoop];
    (destruct (currentChar l) as [c|]; [|now intros [= <- _]]);
    (destruct (isHexDigit c) eqn:Hhex; [|now intros [= <- _]]).
  - discriminate.
  - intros Hrun Hshape. apply (IH _ _ _ _ Hrun).
    destruct colorStr as [|first rest]; [discriminate|].
    unfold appendChar. rewrite GeneratorFacts.append_cons. cbn [colorShape] in *.
    apply andb_true_iff in Hshape as [-> Hrest]. cbn [andb].
    rewrite chars_append, forallb_app, Hrest. cbn. now rewrite Hhex.
Qed.

Lemma readColor_shape (fuel : nat) (l l' : t) (token : Token.t) :
  readColor fuel l = Some (token, l') ->
  Token.type token = COLOR /\ colorShape (Token.value token) = true.
Proof.
  unfold readColor.
  destruct (readColorLoop fuel "#" (advance l)) as [[text l1]|] eqn:Hloop; [|discriminate].
  cbn [mbind option_bind]. intros [= <- _]. split; [reflexivity|].
  now apply (readColorLoop_shape _ _ _ _ _ Hloop).
Qed.

Lemma readIdentifierLoop_shape :
  forall (fuel : nat) (identifier : string) (l l' : t) (text : string),
    readIdentifierLoop fuel identifier l = Some (text, l') ->
    wordShape identifier = true -> wordShape text = true.
Proof.
  induction fuel as [|fuel IH]; intros identifier l l' text; cbn [readIdentifierLoop];
    (destruct (currentChar l) as [c|]; [|now intros [= <- _]]);
    (destruct (isIdentPart c) eqn:Hpart; [|now intros [= <- _]]).
  - discriminate.
  - intros Hrun Hshape. apply (IH _ _ _ _ Hrun).
    unfold wordShape in *. apply andb_true_iff in Hshape as [Hfirst Hall].
    rewrite (firstIs_appendChar _ _ _ Hfirst), chars_appendChar, forallb_app, Hall.
    cbn. now rewrite Hpart.
Qed.

Lemma readIdentifier_shape (fuel : nat) (l l' : t) (c : ascii) (token : Token.t) :
  currentChar l = Some c -> isIdentStart c = true ->
  readIdentifier fuel l = Some (token, l') ->
  Token.type token = keywordOrIdentifier (toLowerCase (Token.value token)) /\
  wordShape (Token.value token) = true.
Proof.
  intros Hc Hstart. unfold readIdentifier.
  destruct (readIdentifierLoop fuel EmptyString l) as [[text l1]|] eqn:Hloop;
    [|discriminate].
  cbn [mbind option_bind]. intros [= <- _]. split; [reflexivity|]. cbn [Token.value].
  assert (Hpart : isIdentPart c = true) by (unfold isIdentPart; now rewrite Hstart).
  destruct fuel as [|fuel]; cbn [readIdentifierLoop] in Hloop; rewrite Hc, Hpart in Hloop;
    [discriminate|].
  rewrite appendChar_empty in Hloop.
  apply (readIdentifierLoop_shape _ _ _ _ _ Hloop).
  unfold wordShape. cbn. now rewrite Hstart, Hpart.
Qed.

Lemma ownKeyword_In (table : list (string * TokenType)) (k : string) (type : TokenType) :
  ownKeyword table k = Some type -> In type (map snd table).
Proof.
  induction table as [|[k' type'] rest IH]; [discriminate|]. cbn [ownKeyword map snd].
  destruct (String.eqb k k'); [intros [= <-]; now left | right; auto].
Qed.

Lemma keywordOrIdentifier_word (k : string) : isWordType (keywordOrIdentifier k) = true.
Proof.
  unfold keywordOrIdentifier.
  destruct (ownKeyword KEYWORDS k) as [type|] eqn:Hown.
  - apply ownKeyword_In in Hown. cbn [map snd KEYWORDS] in Hown.
    repeat (destruct Hown as [<- | Hown]; [reflexivity|]). destruct Hown.
  - destruct (inheritedKey k); reflexivity.
Qed.

Lemma word_tokenShape (type : TokenType) (text : string) (l c : nat) :
  isWordType type = true ->
  tokenShape (Token.mk type text l c) =
    wordShape text && sameType type (keywordOrIdentifier (toLowerCase text)).
Proof. destruct type; try discriminate; reflexivity. Qed.

Lemma readOperator_shape (c : ascii) (l : t) : tokenShape (fst (readOperator c l)) = true.
Proof.
  unfold readOperator.
  repeat match goal with
         | |- context [if Ascii.eqb c ?x then _ else _] => destruct (Ascii.eqb c x)
         end;
    unfold single, withEquals;
    try match goal with
        | |- context [if isChar ?x ?o then _ else _] => destruct (isChar x o)
        end;
    reflexivity.
Qed.

Lemma Scanned_shape (token : Token.t) : Scanned token -> tokenShape token = true.
Proof.
  intros [ l | l | fuel l l' c token' Hc Hdigit Hrun | fuel l l' token' Hrun
         | fuel l l' token' Hrun | fuel l l' c token' Hc Hstart Hrun | l c ].
  - reflexivity.
  - reflexivity.
  - destruct (readNumber_shape _ _ _ _ _ Hc Hdigit Hrun) as [Htype Hshape].
    unfold tokenShape. now rewrite Htype.
  - unfold readString in Hrun.
    destruct (readStringLoop fuel EmptyString (advance l)) as [[str l2]|]; [|discriminate].
    cbn [mbind option_bind] in Hrun. now injection Hrun as <- _.
  - destruct (readColor_shape _ _ _ _ Hrun) as [Htype Hshape].
    unfold tokenShape. now rewrite Htype.
  - destruct (readIdentifier_shape _ _ _ _ _ Hc Hstart Hrun) as [Htype Hshape].
    destruct token' as [type text line column]. cbn [Token.type Token.value] in *.
    rewrite word_tokenShape by (rewrite Htype; apply keywordOrIdentifier_word).
    rewrite Hshape. cbn [andb]. apply LexerFacts.sameType_true. exact Htype.
  - apply readOperator_shape.
Qed.

(** Every token of [tokenize] has the text its type asks for. *)
Lemma tokenize_shape (source : string) :
  exists tokens, tokenize (new source) = Some tokens /\
                 Forall (fun token => tokenShape token = true) tokens.
Proof.
  destruct (tokenize_Scanned source) as (tokens & Hrun & Hscanned).
  exists tokens. split; [exact Hrun|].
  eapply Forall_impl; [|exact Hscanned]. apply Scanned_shape.
Qed.
End ScanFacts.

(** ** Lines and columns *)

Module PositionFacts.
Import Lexer.

Lemma newlinesThrough_S (input : string) (k : nat) :
  newlinesThrough input (S k) =
    newlinesThrough input k ++
      (if isChar newline (String.get (S k) input) then [S k] else []).
Proof.
  unfold newlinesThrough. rewrite seq_S, filter_app. cbn [List.filter Nat.add]. reflexivity.
Qed.

Lemma newlinesThrough_bound (input : string) (k : nat) :
  list_max (newlinesThrough input k) <= k.
Proof.
  apply list_max_le, Forall_forall. intros i Hin.
  unfold newlinesThrough in Hin. apply filter_In in Hin as [Hin _].
  apply in_seq in Hin. lia.
Qed.

Lemma advance_tracks (source : string) (k : nat) :
  let l := Nat.iter k advance (new source) in
  input l = source /\ position l = k /\ currentChar l = String.get k source /\
  line l = 1 + length (newlinesThrough source k) /\
  column l = S k - list_max (newlinesThrough source k).
Proof.
  induction k as [|k IH]; [cbn; repeat split; reflexivity|].
  cbn zeta in *. rewrite Nat.iter_succ.
  destruct (Nat.iter k advance (new source)) as [input0 position0 line0 column0 current0].
  cbn [input position currentChar line column] in IH.
  destruct IH as (-> & -> & _ & -> & ->).
  pose proof (newlinesThrough_bound source k) as Hbound.
  rewrite newlinesThrough_S. unfold advance. cbn [input position currentChar line column].
  destruct (String.length source <=? S k) eqn:Hend.
  - apply Nat.leb_le in Hend. rewrite (LexerFacts.get_ge_None source (S k) Hend).
    cbn [isChar input position currentChar line column]. rewrite app_nil_r.
    repeat split; lia.
  - destruct (isChar newline (String.get (S k) source)) eqn:Hnewline;
      cbn [input position currentChar line column].
    + rewrite length_app, list_max_app.
      change (list_max [S k]) with (Nat.max (S k) 0). cbn [length].
      repeat split; lia.
    + rewrite app_nil_r. repeat split; lia.
Qed.
End PositionFacts.

(** ** The levels of the expression grammar *)

Module PrecedenceFacts.
Import Parser ParserFacts.
Local Open Scope parser_scope.

Lemma ahead_app (xs ys : list Token.t) :
  forall p, ahead (xs ++ ys) p <-> ahead xs p /\ ahead ys (moved (length xs) p).
Proof.
  induction xs as [|x xs IH]; intros p; cbn [app ahead length].
  - rewrite moved_0. tauto.
  - rewrite IH, moved_moved. replace (length xs + 1) with (S (length xs)) by lia. tauto.
Qed.

Section Levels.
Context `{Host}.
Variable ops continues : list TokenType.
Variable operand : M AST.Expression.
Hypothesis operators_end_operands :
  forall token, oneOf ops token = true ->
                oneOf continues token = false /\ sameType (Token.type token) EOF = false.

(** The token after an operand: the next operator or the token that ends
    the level. *)
Lemma after_operand (links : list Link) (stop : Token.t) (p : t) :
  Forall (fun link => oneOf ops (fst link) = true /\
                      reads continues operand (fst (snd link)) (snd (snd link))) links ->
  oneOf (continues ++ ops) stop = false ->
  ahead (linkTokens links ++ [stop]) p ->
  exists next, facing p next /\ oneOf continues next = false.
Proof.
  intros Hlinks Hstop Hahead. destruct links as [|[operator rest] links].
  - exists stop. split; [apply Hahead|].
    rewrite oneOf_app in Hstop. now apply orb_false_elim in Hstop as [? _].
  - exists operator. split; [apply Hahead|].
    inversion Hlinks as [|? ? [Hop _] _]; subst. now apply operators_end_operands.
Qed.

Lemma binaryLoop_links (links : list Link) :
  forall (fuel : nat) (expr : AST.Expression) (stop : Token.t) (p : t),
    Forall (fun link => oneOf ops (fst link) = true /\
                        reads continues operand (fst (snd link)) (snd (snd link))) links ->
    oneOf (continues ++ ops) stop = false ->
    ahead (linkTokens links ++ [stop]) p ->
    length links <= fuel ->
    binaryLoop fuel ops operand expr p =
      (Returned (linkTree expr links), moved (length (linkTokens links)) p).
Proof.
  induction links as [|[operator [ts tree]] rest IH];
    intros fuel expr stop p Hlinks Hstop Hahead Hfuel.
  - cbn. rewrite moved_0.
    apply (binaryLoop_stops _ _ _ _ _ stop); [apply Hahead|].
    rewrite oneOf_app in Hstop. now apply orb_false_elim in Hstop as [_ ?].
  - inversion Hlinks as [|? ? [Hop Hreads] Hrest]; subst. cbn [fst snd] in *.
    unfold linkTokens in Hahead. cbn [flat_map fst snd] in Hahead.
    fold (linkTokens rest) in Hahead.
    rewrite <- app_assoc, <- app_comm_cons in Hahead.
    destruct Hahead as (Hfop & Hahead).
    pose proof Hahead as Hsplit. apply ahead_app in Hsplit as [_ Hafter].
    destruct (after_operand rest stop _ Hrest Hstop Hafter) as (next & Hnext & Hno).
    cbn [length] in Hfuel.
    destruct fuel as [|fuel]; [lia|]. apply le_S_n in Hfuel.
    cbn [binaryLoop]. unfold bind at 1. rewrite (match_facing _ _ _ Hfop).
    destruct (operators_end_operands operator Hop) as [_ Hnoteof].
    rewrite Hop, Hnoteof. cbn [negb andb].
    unfold bind at 1. rewrite (previous_moved p operator Hfop).
    unfold bind at 1. rewrite (Hreads (moved 1 p) next); [|
      apply ahead_app; split; [now apply ahead_app in Hahead as [? _]|];
      cbn [ahead]; split; [exact Hnext | exact I] | exact Hno].
    rewrite (IH fuel _ stop _ Hrest Hstop Hafter Hfuel).
    unfold linkTokens. cbn [flat_map fst snd length linkTree fold_left].
    rewrite length_app, !moved_moved. do 2 f_equal.
    cbn [length]. lia.
Qed.

(** The level built on [operand]: one operand and then the loop. *)
Lemma level_reads (fuel : nat) (ts : list Token.t) (tree : AST.Expression)
  (links : list Link) :
  reads continues operand ts tree ->
  Forall (fun link => oneOf ops (fst link) = true /\
                      reads continues operand (fst (snd link)) (snd (snd link))) links ->
  length links <= fuel ->
  reads (continues ++ ops)
    (expr <- operand ;; binaryLoop fuel ops operand expr)
    (ts ++ linkTokens links) (linkTree tree links).
Proof.
  intros Hfirst Hlinks Hfuel p stop Hahead Hstop.
  rewrite <- app_assoc in Hahead.
  pose proof Hahead as Hsplit. apply ahead_app in Hsplit as [Hts Hafter].
  destruct (after_operand links stop _ Hlinks Hstop Hafter) as (next & Hnext & Hno).
  unfold bind at 1. rewrite (Hfirst p next); [|
    apply ahead_app; split; [exact Hts | cbn [ahead]; split; [exact Hnext | exact I]]
    | exact Hno].
  rewrite (binaryLoop_links links fuel tree stop _ Hlinks Hstop Hafter Hfuel).
  rewrite moved_moved, length_app. do 2 f_equal. lia.
Qed.
End Levels.

Lemma multiplicative_ends_call (token : Token.t) :
  oneOf [MULTIPLY; DIVIDE; MODULO] token = true ->
  oneOf [LPAREN] token = false /\ sameType (Token.type token) EOF = false.
Proof. unfold oneOf. destruct (Token.type token); try discriminate; split; reflexivity. Qed.

Lemma additive_ends_multiplicative (token : Token.t) :
  oneOf [PLUS; MINUS] token = true ->
  oneOf ([LPAREN] ++ [MULTIPLY; DIVIDE; MODULO]) token = false /\
  sameType (Token.type token) EOF = false.
Proof. unfold oneOf. destruct (Token.type token); try discriminate; split; reflexivity. Qed.

Section Ladder.
Context `{Host}.
Variable nested : M AST.Expression.

Lemma call_reads (fuel : nat) (token : Token.t) :
  Token.type token = IDENTIFIER ->
  reads [LPAREN] (call nested fuel) [token] (AST.IdentifierExpr (identifierOf token)).
Proof.
  intros Htype p next (Hf & Hnext & _) Hno. unfold call.
  unfold bind at 1. rewrite (shape_identifier nested p token Hf Htype).
  unfold bind at 1. rewrite (match_facing _ _ _ Hnext), Hno, andb_false_r.
  reflexivity.
Qed.


Lemma productLinks_tokens (links : list (Token.t * Token.t)) :
  linkTokens (productLinks links) = chainTokens links.
Proof.
  induction links as [|[operator operand] rest IH]; [reflexivity|].
  unfold linkTokens, productLinks in *. cbn [map flat_map fst snd chainTokens app].
  now rewrite IH.
Qed.

Lemma productLinks_tree (links : list (Token.t * Token.t)) :
  forall first, linkTree first (productLinks links) =
                fold_left
                  (fun expr link =>
                     AST.BinaryExpression (Token.value (fst link)) expr
                       (AST.IdentifierExpr (identifierOf (snd link)))
                       (Token.line (fst link)) (Token.column (fst link)))
                  links first.
Proof.
  induction links as [|link rest IH]; intros first; [reflexivity|].
  unfold linkTree, productLinks in *. cbn [map fold_left fst snd]. apply IH.
Qed.

Lemma multiplicative_reads (fuel : nat) (product : Product) :
  isProduct product -> length (snd product) <= fuel ->
  reads ([LPAREN] ++ [MULTIPLY; DIVIDE; MODULO]) (multiplicative nested fuel)
    (productTokens product) (productTree product).
Proof.
  destruct product as [first links]. intros [Hfirst Hlinks] Hfuel. cbn [fst snd] in *.
  unfold productTokens, productTree, chainTree. cbn [fst snd].
  rewrite <- productLinks_tokens, <- productLinks_tree.
  apply (level_reads [MULTIPLY; DIVIDE; MODULO] [LPAREN] (call nested fuel)
           multiplicative_ends_call fuel [first]).
  - now apply call_reads.
  - unfold productLinks. apply Forall_map. eapply Forall_impl; [|exact Hlinks].
    intros link [Hop Hid]. cbn [fst snd]. split; [exact Hop | now apply call_reads].
  - unfold productLinks. now rewrite length_map.
Qed.


Lemma additive_reads (fuel : nat) (first : Product) (terms : list (Token.t * Product)) :
  isProduct first -> length (snd first) <= fuel ->
  Forall (fun term => oneOf [PLUS; MINUS] (fst term) = true /\ isProduct (snd term) /\
                      length (snd (snd term)) <= fuel) terms ->
  length terms <= fuel ->
  reads continuesOperand (additive nested fuel)
    (sumTokens first terms) (sumTree first terms).
Proof.
  intros Hfirst Hfuel Hterms Hcount.
  assert (Htokens : sumTokens first terms = productTokens first ++ linkTokens (sumLinks terms)).
  { unfold sumTokens, linkTokens, sumLinks. f_equal.
    induction terms as [|term rest IH]; [reflexivity|].
    inversion Hterms; subst. cbn [map flat_map fst snd]. rewrite IH by (cbn in Hcount; auto; lia).
    reflexivity. }
  assert (Htree : sumTree first terms = linkTree (productTree first) (sumLinks terms)).
  { unfold sumTree, linkTree, sumLinks. generalize (productTree first).
    clear. induction terms as [|term rest IH]; intros e; [reflexivity|].
    cbn [map fold_left fst snd]. apply IH. }
  rewrite Htokens, Htree.
  apply (level_reads [PLUS; MINUS] ([LPAREN] ++ [MULTIPLY; DIVIDE; MODULO])
           (multiplicative nested fuel) additive_ends_multiplicative fuel).
  - now apply multiplicative_reads.
  - unfold sumLinks. apply Forall_map. eapply Forall_impl; [|exact Hterms].
    intros term (Hop & Hproduct & Hlen). cbn [fst snd].
    split; [exact Hop | now apply multiplicative_reads].
  - unfold sumLinks. now rewrite length_map.
Qed.
End Ladder.
End PrecedenceFacts.

(** ** Tokens that start no expression *)

Module RejectFacts.
Import Parser ParserFacts.
Local Open Scope parser_scope.
Section Rejects.
Context `{Host}.
Variable nested : M AST.Expression.

Lemma oneOf_cons (type : TokenType) (types : list TokenType) (token : Token.t) :
  oneOf (type :: types) token = sameType (Token.type token) type || oneOf types token.
Proof. reflexivity. Qed.

Lemma match_misses (types : list TokenType) (p : t) (token : Token.t) :
  facing p token -> oneOf types token = false -> match_ types p = (Returned false, p).
Proof. intros Hf Hno. rewrite (match_facing _ _ _ Hf), Hno, andb_false_r. reflexivity. Qed.

Lemma primary_rejects (p : t) (token : Token.t) :
  facing p token ->
  oneOf [NUMBER; STRING; COLOR; IDENTIFIER; LPAREN] token = false ->
  primary nested p =
    (Thrown (ParseError ("Unexpected token: " +:+ Token.value token)
               (Token.line token) (Token.column token)), p).
Proof.
  intros Hf Hno. rewrite !oneOf_cons in Hno.
  repeat match goal with
         | Hor : (_ || _) = false |- _ => apply orb_false_elim in Hor as [? Hor]
         end.
  unfold primary.
  do 5 (unfold bind at 1; rewrite (match_misses _ p token Hf);
        [|unfold oneOf; cbn [existsb]; rewrite orb_false_r; assumption]).
  unfold bind. rewrite (peek_facing p token Hf). reflexivity.
Qed.

Lemma shape_rejects (p : t) (token : Token.t) :
  facing p token ->
  oneOf [CIRCLE; RECT; LINE; TRIANGLE; NUMBER; STRING; COLOR; IDENTIFIER; LPAREN] token
    = false ->
  shape nested p =
    (Thrown (ParseError ("Unexpected token: " +:+ Token.value token)
               (Token.line token) (Token.column token)), p).
Proof.
  intros Hf Hno. rewrite 4 oneOf_cons in Hno.
  do 4 apply orb_false_elim in Hno as [? Hno].
  unfold shape.
  do 4 (unfold bind at 1; rewrite (match_misses _ p token Hf);
        [|unfold oneOf; cbn [existsb]; rewrite orb_false_r; assumption]).
  now apply primary_rejects.
Qed.

Lemma comparison_rejects (fuel : nat) (p : t) (token : Token.t) :
  facing p token ->
  oneOf [CIRCLE; RECT; LINE; TRIANGLE; NUMBER; STRING; COLOR; IDENTIFIER; LPAREN] token
    = false ->
  comparison nested fuel p =
    (Thrown (ParseError ("Unexpected token: " +:+ Token.value token)
               (Token.line token) (Token.column token)), p).
Proof.
  intros Hf Hno. unfold comparison, additive, multiplicative, call.
  unfold bind at 1. unfold bind at 1. unfold bind at 1. unfold bind at 1.
  now rewrite (shape_rejects p token Hf Hno).
Qed.
End Rejects.
End RejectFacts.

(** ** The loop of [animateBlock] *)

Module AnimateFacts.
Import Parser ParserFacts.
Local Open Scope parser_scope.
Section Animate.
Context `{Host}.
Variable n : nat.

Lemma insideBlock_facing (p : t) (token : Token.t) :
  facing p token ->
  insideBlock p = (Returned (negb (oneOf [RBRACE; EOF] token)), p).
Proof.
  intros Hf. unfold insideBlock. unfold bind at 1.
  rewrite (check_facing p token RBRACE Hf).
  unfold oneOf. cbn [existsb]. rewrite orb_false_r.
  destruct (sameType (Token.type token) EOF) eqn:Hend;
    destruct (sameType (Token.type token) RBRACE) eqn:Hclose; cbn [negb andb orb].
  - apply LexerFacts.sameType_true in Hend, Hclose. congruence.
  - unfold bind. now rewrite (isAtEnd_facing p token Hf), Hend.
  - reflexivity.
  - unfold bind. now rewrite (isAtEnd_facing p token Hf), Hend.
Qed.

(** The loop of [animateBlock] passes over tokens that start no command
    and end no block. *)
Lemma animateLoop_skips (junk : list Token.t) :
  forall (fuel : nat) (animations : list AST.AnimationCommand) (closing : Token.t) (p : t),
    Forall (fun token => oneOf [MOVE; ROTATE; SCALE; FADE; RBRACE; EOF] token = false) junk ->
    oneOf [RBRACE; EOF] closing = true ->
    ahead (junk ++ [closing]) p ->
    length junk <= fuel ->
    animateLoop n fuel animations p = (Returned animations, moved (length junk) p).
Proof.
  induction junk as [|token rest IH]; intros fuel animations closing p Hjunk Hclose Hahead Hfuel.
  - destruct Hahead as [Hf _]. cbn [length]. rewrite moved_0.
    destruct fuel; cbn [animateLoop]; unfold bind at 1;
      rewrite (insideBlock_facing p closing Hf), Hclose; reflexivity.
  - inversion Hjunk as [|? ? Htoken Hrest]; subst.
    destruct Hahead as [Hf Hahead]. cbn [length] in Hfuel.
    destruct fuel as [|fuel]; [lia|]. apply le_S_n in Hfuel.
    rewrite 4 RejectFacts.oneOf_cons in Htoken.
    do 4 apply orb_false_elim in Htoken as [? Htoken].
    cbn [animateLoop]. unfold bind at 1.
    rewrite (insideBlock_facing p token Hf), Htoken. cbn [negb].
    do 4 (unfold bind at 1; rewrite (RejectFacts.match_misses _ p token Hf);
          [|unfold oneOf; cbn [existsb]; rewrite orb_false_r; assumption]).
    unfold bind at 1. rewrite (advance_facing p token Hf).
    + rewrite (IH fuel animations closing _ Hrest Hclose Hahead Hfuel).
      rewrite moved_moved. cbn [length]. do 2 f_equal. lia.
    + unfold oneOf in Htoken. cbn [existsb] in Htoken.
      now apply orb_false_elim in Htoken as [_ Htoken]; rewrite orb_false_r in Htoken.
Qed.
End Animate.
End AnimateFacts.

(** ** The errors [compile] returns *)

Module FacadeFacts.
Import SemanticAnalyzer ScopeFacts.
Section Facade.
Context `{Host}.

Lemma analyze_known (program : AST.Program) (semanticErrors : list SemanticError.t) (a' : t) :
  analyze program new = Returned (semanticErrors, a') -> Forall known semanticErrors.
Proof.
  unfold analyze, analyzeStatements.
  destruct (orderly_forEach analyzeStatement (AST.body program)
              ltac:(apply Forall_forall; intros; apply analyzeStatement_orderly)
              {| scopes := scopes new; errors := [] |} ltac:(unfold depth; cbn; lia))
    as (a1 & more & -> & _ & _ & He & Hk).
  intros [= <- _]. now rewrite He.
Qed.
End Facade.
End FacadeFacts.

(** ** Lexer *)

Section LexerExtras.
Import Lexer.

(** X1. Every [NUMBER] token [tokenize] returns holds a decimal numeral:
    its first character is a digit, every character is a digit or a dot,
    and there is at most one dot. A second dot ends the number. *)
Theorem number_tokens_are_decimal_numerals :
  forall source : string,
    exists tokens : list Token.t,
      tokenize (new source) = Some tokens /\
      Forall (fun token => Token.type token = NUMBER ->
                           numberShape (Token.value token) = true) tokens.
Proof.
  intros source. destruct (ScanFacts.tokenize_shape source) as (tokens & Hrun & Hshape).
  exists tokens. split; [exact Hrun|].
  eapply Forall_impl; [|exact Hshape]. intros token Htoken Htype.
  unfold tokenShape in Htoken. now rewrite Htype in Htoken.
Qed.

(** X2. Every [COLOR] token [tokenize] returns is [#] followed by
    hexadecimal digits only; [readColor] asks for no particular number of
    them, so [#] alone is a color token too. *)
Theorem color_tokens_are_a_hash_and_hexadecimal_digits :
  forall source : string,
    exists tokens : list Token.t,
      tokenize (new source) = Some tokens /\
      Forall (fun token => Token.type token = COLOR ->
                           colorShape (Token.value token) = true) tokens.
Proof.
  intros source. destruct (ScanFacts.tokenize_shape source) as (tokens & Hrun & Hshape).
  exists tokens. split; [exact Hrun|].
  eapply Forall_impl; [|exact Hshape]. intros token Htoken Htype.
  unfold tokenShape in Htoken. now rewrite Htype in Htoken.
Qed.

(** X3. Every token [tokenize] returns that is neither a literal, an
    operator, a delimiter nor a special token is a word: a letter or an
    underscore followed by letters, digits and underscores. Its type is
    what [KEYWORDS] holds for the word in lower case (an identifier when it
    holds nothing), while the token keeps the spelling of the source. *)
Theorem keywords_are_found_whatever_the_case :
  forall source : string,
    exists tokens : list Token.t,
      tokenize (new source) = Some tokens /\
      Forall (fun token =>
                isWordType (Token.type token) = true ->
                wordShape (Token.value token) = true /\
                Token.type token = keywordOrIdentifier (toLowerCase (Token.value token)))
        tokens.
Proof.
  intros source. destruct (ScanFacts.tokenize_shape source) as (tokens & Hrun & Hshape).
  exists tokens. split; [exact Hrun|].
  eapply Forall_impl; [|exact Hshape]. intros [type text l c] Htoken Hword.
  cbn [Token.type Token.value] in *.
  rewrite (ScanFacts.word_tokenShape _ _ _ _ Hword) in Htoken.
  apply andb_true_iff in Htoken as [Hshape' Htype].
  split; [exact Hshape' | now apply LexerFacts.sameType_true].
Qed.

(** X4. The text of every operator or delimiter token [tokenize] returns
    is the symbol of its type: [==] for [EQUAL], [<=] for [LESS_EQUAL], and
    so on. *)
Theorem operator_tokens_carry_their_symbol :
  forall source : string,
    exists tokens : list Token.t,
      tokenize (new source) = Some tokens /\
      Forall (fun token =>
                forall text, operatorText (Token.type token) = Some text ->
                             Token.value token = text) tokens.
Proof.
  intros source. destruct (ScanFacts.tokenize_shape source) as (tokens & Hrun & Hshape).
  exists tokens. split; [exact Hrun|].
  eapply Forall_impl; [|exact Hshape]. intros [type value l c] Htoken text Htext.
  unfold tokenShape in Htoken. cbn [Token.type Token.value] in *.
  destruct type; try discriminate; cbn [operatorText] in *;
    injection Htext as <-; now apply String.eqb_eq.
Qed.

(** X5. After [k] calls of [advance] on a new lexer the position is [k],
    the line is one more than the number of newlines at the places [1] to
    [k] of the input (a newline at place [0] is not counted, and a newline
    belongs to the line it starts), and the column is the distance from the
    last of these newlines, counted from 1. *)
Theorem line_and_column_follow_the_newlines_passed :
  forall (source : string) (k : nat),
    let l := Nat.iter k advance (new source) in
    position l = k /\
    line l = 1 + length (newlinesThrough source k) /\
    column l = S k - list_max (newlinesThrough source k).
Proof.
  intros source k. destruct (PositionFacts.advance_tracks source k) as (_ & ? & _ & ? & ?).
  auto.
Qed.
End LexerExtras.

(** ** Parser *)

Section ParserExtras.
Import Parser.

(** X6. [additive] on a sum of products of identifiers: the operators
    [* / %] bind tighter than [+ -], and both levels nest to the left. The
    operands of [+ -] are the whole products, each product nests its
    factors to the left, and the sum nests the products to the left. *)
Theorem additive_reads_sums_of_products :
  forall (H : Host) (nested : M AST.Expression) (fuel : nat) (first : Product)
         (terms : list (Token.t * Product)) (stop : Token.t) (p : t),
    isProduct first ->
    length (snd first) <= fuel ->
    Forall (fun term => oneOf [PLUS; MINUS] (fst term) = true /\ isProduct (snd term) /\
                        length (snd (snd term)) <= fuel) terms ->
    length terms <= fuel ->
    oneOf continuesOperand stop = false ->
    ahead (sumTokens first terms ++ [stop]) p ->
    additive nested fuel p =
      (Returned (sumTree first terms), moved (length (sumTokens first terms)) p).
Proof.
  intros H nested fuel first terms stop p Hfirst Hfuel Hterms Hcount Hstop Hahead.
  now apply (PrecedenceFacts.additive_reads nested fuel first terms Hfirst Hfuel Hterms
               Hcount p stop).
Qed.

(** [a + b * c - d]: the product is the right operand of [+], and the sum
    is the left operand of [-]. *)
Lemma additive_reads_sums_of_products_witness :
  let a := Token.mk IDENTIFIER "a" 1 1 in
  let plus := Token.mk PLUS "+" 1 3 in
  let b := Token.mk IDENTIFIER "b" 1 5 in
  let times := Token.mk MULTIPLY "*" 1 7 in
  let c := Token.mk IDENTIFIER "c" 1 9 in
  let minus := Token.mk MINUS "-" 1 11 in
  let d := Token.mk IDENTIFIER "d" 1 13 in
  let eof := Token.mk EOF EmptyString 1 14 in
  let tokens := [a; plus; b; times; c; minus; d; eof] in
  let identifier token := AST.IdentifierExpr (H := integerHost) (identifierOf token) in
  Lexer.tokenize (Lexer.new "a + b * c - d") = Some tokens /\
  additive (H := integerHost) (expression 2) 2 (new tokens) =
    (Returned
       (AST.BinaryExpression "-"
          (AST.BinaryExpression "+" (identifier a)
             (AST.BinaryExpression "*" (identifier b) (identifier c) 1 7) 1 3)
          (identifier d) 1 11),
     mk tokens 7).
Proof.
  cbv zeta. split; [vm_compute; reflexivity|].
  apply (additive_reads_sums_of_products integerHost (expression 2) 2
           (Token.mk IDENTIFIER "a" 1 1, [])
           [(Token.mk PLUS "+" 1 3,
             (Token.mk IDENTIFIER "b" 1 5,
              [(Token.mk MULTIPLY "*" 1 7, Token.mk IDENTIFIER "c" 1 9)]));
            (Token.mk MINUS "-" 1 11, (Token.mk IDENTIFIER "d" 1 13, []))]
           (Token.mk EOF EmptyString 1 14)).
  - split; [reflexivity | constructor].
  - simpl. lia.
  - repeat constructor; simpl; lia.
  - simpl. lia.
  - reflexivity.
  - simpl. unfold facing. simpl. repeat split; reflexivity.
Defined.

(** X7. An expression starts with a literal, an identifier, a parenthesis
    or a shape keyword. Facing any other token (an operator such as [-],
    a closing delimiter, a statement keyword, the end of input),
    [expression] throws [Unexpected token] with the text and the place of
    that token, and leaves the cursor on it. *)
Theorem expression_rejects_a_token_that_starts_none :
  forall (H : Host) (fuel : nat) (p : t) (token : Token.t),
    facing p token ->
    oneOf [CIRCLE; RECT; LINE; TRIANGLE; NUMBER; STRING; COLOR; IDENTIFIER; LPAREN] token
      = false ->
    expression (S fuel) p =
      (Thrown (ParseError ("Unexpected token: " +:+ Token.value token)
                 (Token.line token) (Token.column token)), p).
Proof.
  intros H fuel p token Hf Hno. cbn [expression].
  now apply RejectFacts.comparison_rejects.
Qed.

(** There is no unary minus: [-5] is rejected at the [-]. *)
Lemma expression_rejects_a_token_that_starts_none_witness :
  let tokens :=
    [Token.mk MINUS "-" 1 1; Token.mk NUMBER "5" 1 2; Token.mk EOF EmptyString 1 3] in
  Lexer.tokenize (Lexer.new "-5") = Some tokens /\
  expression (H := integerHost) 3 (new tokens) =
    (Thrown (ParseError "Unexpected token: -" 1 1), new tokens).
Proof.
  cbv zeta. split; [vm_compute; reflexivity|].
  apply (expression_rejects_a_token_that_starts_none integerHost 2 (new _)
           (Token.mk MINUS "-" 1 1)); reflexivity.
Defined.

(** X8. Inside the braces of [animate], tokens that start no animation
    command are passed over without an error: a block that holds only such
    tokens parses to an [AnimateBlock] with no command. *)
Theorem animate_block_skips_what_is_no_command :
  forall (H : Host) (n fuel : nat) (keyword opening closing : Token.t)
         (junk : list Token.t) (p : t),
    previousToken p = Some keyword ->
    Token.type opening = LBRACE ->
    Forall (fun token => oneOf [MOVE; ROTATE; SCALE; FADE; RBRACE; EOF] token = false) junk ->
    Token.type closing = RBRACE ->
    ahead (opening :: junk ++ [closing]) p ->
    length junk <= fuel ->
    animateBlock n fuel p =
      (Returned (AST.AnimateBlock [] (Token.line keyword) (Token.column keyword)),
       moved (length junk + 2) p).
Proof.
  intros H n fuel keyword opening closing junk p Hkeyword Hopening Hjunk Hclosing
    [Hfopen Hahead] Hfuel.
  unfold animateBlock. unfold bind at 1. unfold previous. rewrite Hkeyword.
  cbn [defined ret]. unfold bind at 1.
  rewrite (ParserFacts.consume_facing _ _ p opening Hfopen), Hopening.
  change (negb (sameType LBRACE EOF) && sameType LBRACE LBRACE) with true. cbv iota.
  unfold bind at 1.
  rewrite (AnimateFacts.animateLoop_skips n junk fuel [] closing (moved 1 p) Hjunk);
    [| unfold oneOf; rewrite Hclosing; reflexivity | exact Hahead | exact Hfuel].
  apply PrecedenceFacts.ahead_app in Hahead as [_ [Hfclose _]].
  unfold bind at 1.
  rewrite (ParserFacts.consume_facing _ _ _ closing Hfclose), Hclosing.
  change (negb (sameType RBRACE EOF) && sameType RBRACE RBRACE) with true. cbv iota.
  rewrite !ParserFacts.moved_moved. unfold ret. do 2 f_equal. lia.
Qed.

(** [animate { circle 5 foo }]: the three tokens between the braces are
    dropped, and the program compiles without a diagnostic. *)
Lemma animate_block_skips_what_is_no_command_witness :
  let tokens :=
    [Token.mk ANIMATE "animate" 1 1; Token.mk LBRACE "{" 1 9;
     Token.mk CIRCLE "circle" 1 11; Token.mk NUMBER "5" 1 18;
     Token.mk IDENTIFIER "foo" 1 20; Token.mk RBRACE "}" 1 24;
     Token.mk EOF EmptyString 1 25] in
  Lexer.tokenize (Lexer.new "animate { circle 5 foo }") = Some tokens /\
  animateBlock (H := integerHost) 7 7 (mk tokens 1) =
    (Returned (AST.AnimateBlock [] 1 1), mk tokens 6) /\
  option_map
    (fun run => (CompilationResult.success (MFlowCompiler.result run),
                 MFlowCompiler.console run))
    (MFlowCompiler.compile (H := integerHost) "animate { circle 5 foo }") =
    Some (true, []).
Proof.
  cbv zeta. split; [vm_compute; reflexivity|]. split; [|vm_compute; reflexivity].
  apply (animate_block_skips_what_is_no_command integerHost 7 7
           (Token.mk ANIMATE "animate" 1 1) (Token.mk LBRACE "{" 1 9)
           (Token.mk RBRACE "}" 1 24)
           [Token.mk CIRCLE "circle" 1 11; Token.mk NUMBER "5" 1 18;
            Token.mk IDENTIFIER "foo" 1 20]).
  - reflexivity.
  - reflexivity.
  - repeat constructor.
  - reflexivity.
  - simpl. unfold facing. simpl. repeat split; reflexivity.
  - simpl. lia.
Defined.
End ParserExtras.

(** ** Semantic analyzer *)

Section AnalyzerExtras.
Import SemanticAnalyzer ScopeFacts.

Ltac start :=
  unfold diagnostics, analyze, analyzeStatements, new, enterScope;
  cbn [AST.body scopes errors app forEach analyzeStatement andThen analyzeExpression];
  unfold analyzeLetStatement.

Ltac closed :=
  repeat match goal with
         | Hclosed : identifiersOf ?e = [] |- context [analyzeExpression ?e ?a] =>
             rewrite (analyzeExpression_closed e a Hclosed)
         end.

Ltac declared :=
  erewrite declare_in by reflexivity;
  rewrite ?AnalyzerFacts.has_empty.

Ltac stack :=
  unfold setCurrent, pushError, exitScope, enterScope;
  cbn [scopes errors removelast app andThen forEach analyzeStatement analyzeExpression].

(** X9. [analyzeExpression] reports exactly the identifiers of the
    expression that no scope holds, in the order in which it visits them,
    after the errors already there, and it leaves the scopes as they
    were. *)
Theorem analyzeExpression_reports_unresolved_identifiers :
  forall (H : Host) (expr : AST.Expression) (a : t),
    analyzeExpression expr a =
      {| scopes := scopes a;
         errors := errors a ++
                   map undefinedVariable
                     (List.filter (fun id => negb (visible a (AST.name id)))
                        (identifiersOf expr)) |}.
Proof. intros H expr a. apply analyzeExpression_reports. Qed.

(** X10. [analyze] on an analyzer whose scope stack is not empty returns
    (the [TypeError] of [declare] on a missing scope cannot occur): every
    scope entered is left again, so the stack is as deep as before and the
    scopes under the innermost one are unchanged; every error is an
    undefined-variable or an already-declared error at an identifier. *)
Theorem analysis_returns_with_balanced_scopes :
  forall (H : Host) (program : AST.Program) (a : t),
    0 < depth a ->
    exists (semanticErrors : list SemanticError.t) (a' : t),
      analyze program a = Returned (semanticErrors, a') /\
      errors a' = semanticErrors /\
      depth a' = depth a /\
      removelast (scopes a') = removelast (scopes a) /\
      Forall known semanticErrors.
Proof.
  intros H program a Hdepth. unfold analyze, analyzeStatements.
  destruct (orderly_forEach analyzeStatement (AST.body program)
              ltac:(apply Forall_forall; intros; apply analyzeStatement_orderly)
              {| scopes := scopes a; errors := [] |} Hdepth)
    as (a' & more & -> & Hd & Hs & He & Hk).
  exists (errors a'), a'. repeat split; auto. rewrite He. exact Hk.
Qed.

(** A scene that declares a variable, analysed by a new analyzer. *)
Lemma analysis_returns_with_balanced_scopes_witness :
  exists (semanticErrors : list SemanticError.t) (a' : t),
    analyze (H := integerHost)
      (AST.mkProgram
         [AST.SceneBlock "s"
            [AST.LetStatement (AST.mkIdentifier "x" 1 15) (AST.NumberLiteral 1 1 19) 1 11]
            1 1] 1 1) new = Returned (semanticErrors, a') /\
    errors a' = semanticErrors /\
    depth a' = depth new /\
    removelast (scopes a') = removelast (scopes new) /\
    Forall known semanticErrors.
Proof.
  apply (analysis_returns_with_balanced_scopes integerHost _ new).
  unfold depth. simpl. lia.
Defined.

(** X11. What a scene block or a function body declares is dropped at its
    end: after a scene block every scope is as it was before, and after a
    function declaration the scopes are those left by the declaration of
    the function's own name. *)
Theorem scene_and_function_scopes_are_dropped :
  forall (H : Host) (a : t),
    0 < depth a ->
    (forall (name : string) (body : list AST.Statement) (l c : nat),
        exists a', analyzeStatement (AST.SceneBlock name body l c) a = Returned a' /\
                   scopes a' = scopes a) /\
    (forall (name : AST.Identifier) (parameters : list AST.Identifier)
            (body : list AST.Statement) (l c : nat),
        exists a1 a',
          declare (AST.name name) "function" (AST.idLine name) (AST.idColumn name) a
            = Returned a1 /\
          analyzeStatement (AST.FunctionDeclaration name parameters body l c) a
            = Returned a' /\
          scopes a' = scopes a1).
Proof.
  intros H a Hdepth. split.
  - intros name body l c. cbn [analyzeStatement].
    destruct (orderly_scoped (forEach analyzeStatement body)
                (orderly_forEach _ body
                   ltac:(apply Forall_forall; intros; apply analyzeStatement_orderly))
                a Hdepth) as (a' & more & Hrun & Hs & _).
    exists a'. split; [exact Hrun | exact Hs].
  - intros name parameters body l c. cbn [analyzeStatement].
    destruct (orderly_declare (AST.name name) "function" (AST.idLine name)
                (AST.idColumn name) a Hdepth) as (a1 & more1 & Hdeclare & Hd1 & _).
    rewrite Hdeclare. cbn [andThen].
    destruct (orderly_scoped
                (fun a2 => andThen (declareParameters parameters a2)
                             (forEach analyzeStatement body))
                (orderly_then _ _
                   (orderly_forEach _ parameters
                      ltac:(apply Forall_forall; intros; apply orderly_declare))
                   (orderly_forEach _ body
                      ltac:(apply Forall_forall; intros; apply analyzeStatement_orderly)))
                a1 ltac:(lia)) as (a' & more & Hrun & Hs & _).
    rewrite andThen_assoc in Hrun. exists a1, a'. repeat split; [exact Hrun | exact Hs].
Qed.

(** The global scope after [scene s { let x = 1 }] holds no [x]. *)
Lemma scene_and_function_scopes_are_dropped_witness :
  exists a' : t,
    analyzeStatement (H := integerHost)
      (AST.SceneBlock "s"
         [AST.LetStatement (AST.mkIdentifier "x" 1 15) (AST.NumberLiteral 1 1 19) 1 11]
         1 1) new = Returned a' /\
    scopes a' = scopes new.
Proof.
  refine (proj1 (scene_and_function_scopes_are_dropped integerHost new _) "s" _ 1 1).
  unfold depth. simpl. lia.
Defined.

(** X12. The bodies of [repeat] and [if] (and [else]) are analysed in the
    scope the statement is in. A variable declared inside is declared for
    the statements after the block, and declaring inside a [repeat] a name
    the enclosing scope holds is an already-declared error. *)
Theorem repeat_and_if_bodies_share_the_enclosing_scope :
  forall (H : Host) (x use : AST.Identifier) (value times : AST.Expression) (l c : nat),
    AST.name use = AST.name x ->
    inheritedKey (AST.name x) = false ->
    identifiersOf value = [] ->
    identifiersOf times = [] ->
    let reference := AST.ExpressionStatement (AST.IdentifierExpr use) l c in
    diagnostics [AST.RepeatStatement times [AST.LetStatement x value l c] l c; reference]
      = Some [] /\
    diagnostics [AST.IfStatement times [AST.LetStatement x value l c] None l c; reference]
      = Some [] /\
    diagnostics [AST.IfStatement times [] (Some [AST.LetStatement x value l c]) l c;
                 reference]
      = Some [] /\
    diagnostics [AST.LetStatement x value l c;
                 AST.RepeatStatement times [AST.LetStatement use value l c] l c]
      = Some [alreadyDeclared use].
Proof.
  intros H x use value times l c Hname Hx Hvalue Htimes reference. subst reference.
  assert (Hseen : forall es,
             resolve (AST.name use) (AST.idLine use) (AST.idColumn use)
               {| scopes := [<[AST.name x := Symbol.mk "variable" (AST.idLine x)
                                                 (AST.idColumn x)]> ∅];
                  errors := es |} =
             {| scopes := [<[AST.name x := Symbol.mk "variable" (AST.idLine x)
                                                 (AST.idColumn x)]> ∅];
                errors := es |}).
  { intros es. apply resolve_visible. unfold visible. cbn [scopes rev app existsb].
    now rewrite Hname, has_insert_same. }
  repeat split; start; closed; declared; rewrite Hx; cbv iota; stack.
  - now rewrite Hseen.
  - now rewrite Hseen.
  - now rewrite Hseen.
  - unfold analyzeLetStatement. closed. declared.
    unfold alreadyDeclared. rewrite Hname, has_insert_same. reflexivity.
Qed.

(** The [colors] example of the playground declares [x] before a [repeat]
    and again inside it: it does not compile. *)
Lemma repeat_and_if_bodies_share_the_enclosing_scope_witness :
  let x := AST.mkIdentifier "x" 1 5 in
  let again := AST.mkIdentifier "x" 2 16 in
  let one := AST.NumberLiteral (H := integerHost) 1 1 9 in
  diagnostics [AST.LetStatement x one 1 1;
               AST.RepeatStatement one [AST.LetStatement again one 1 1] 1 1]
    = Some [alreadyDeclared again] /\
  option_map (fun run => CompilationResult.errors (MFlowCompiler.result run))
    (MFlowCompiler.compile (H := integerHost)
       ("// Color transitions" +:+ nl +:+ "let x = 100" +:+ nl +:+ "repeat 5 {" +:+ nl
          +:+ "  circle at (x, 250) size 30 color #00FFFF" +:+ nl
          +:+ "  let x = x + 80" +:+ nl +:+ "}")) =
    Some (Some ["Semantic error at line 5, column 8: Variable 'x' is already declared in this scope"]).
Proof.
  cbv zeta. split; [|vm_compute; reflexivity].
  exact (proj2 (proj2 (proj2
           (repeat_and_if_bodies_share_the_enclosing_scope integerHost
              (AST.mkIdentifier "x" 1 5) (AST.mkIdentifier "x" 2 16)
              (AST.NumberLiteral 1 1 9) (AST.NumberLiteral 1 1 9) 1 1
              eq_refl eq_refl eq_refl eq_refl)))).
Defined.

(** X13. A scene body has a scope of its own: a variable declared inside
    is undefined after the block, and a name of the enclosing scope can be
    declared again inside. *)
Theorem scene_body_has_a_scope_of_its_own :
  forall (H : Host) (x use : AST.Identifier) (value : AST.Expression) (name : string)
         (l c : nat),
    AST.name use = AST.name x ->
    inheritedKey (AST.name x) = false ->
    identifiersOf value = [] ->
    diagnostics [AST.SceneBlock name [AST.LetStatement x value l c] l c;
                 AST.ExpressionStatement (AST.IdentifierExpr use) l c]
      = Some [undefinedVariable use] /\
    diagnostics [AST.LetStatement x value l c;
                 AST.SceneBlock name [AST.LetStatement use value l c] l c]
      = Some [].
Proof.
  intros H x use value name l c Hname Hx Hvalue.
  split; start; closed; declared; rewrite Hx; cbv iota; stack.
  - rewrite resolve_hidden; [reflexivity|].
    unfold visible. cbn [scopes rev app existsb].
    now rewrite AnalyzerFacts.has_empty, Hname, Hx.
  - unfold analyzeLetStatement. closed. declared. rewrite Hname, Hx. reflexivity.
Qed.

(** [scene s { let x = 1 }] followed by [x]. *)
Lemma scene_body_has_a_scope_of_its_own_witness :
  let x := AST.mkIdentifier "x" 1 15 in
  let use := AST.mkIdentifier "x" 2 1 in
  let one := AST.NumberLiteral (H := integerHost) 1 1 19 in
  diagnostics [AST.SceneBlock "s" [AST.LetStatement x one 1 1] 1 1;
               AST.ExpressionStatement (AST.IdentifierExpr use) 1 1]
    = Some [undefinedVariable use] /\
  option_map (fun run => CompilationResult.errors (MFlowCompiler.result run))
    (MFlowCompiler.compile (H := integerHost) ("scene s { let x = 1 }" +:+ nl +:+ "x")) =
    Some (Some ["Semantic error at line 2, column 2: Undefined variable 'x'"]).
Proof.
  cbv zeta. split; [|vm_compute; reflexivity].
  exact (proj1 (scene_body_has_a_scope_of_its_own integerHost
                  (AST.mkIdentifier "x" 1 15) (AST.mkIdentifier "x" 2 1)
                  (AST.NumberLiteral 1 1 19) "s" 1 1 eq_refl eq_refl eq_refl)).
Defined.


(** X14. In the body of a function the function's own name and its
    parameters are declared: a body that calls the function with its
    parameters as arguments is analysed without an error. *)
Theorem function_body_sees_the_name_and_the_parameters :
  forall (H : Host) (f : AST.Identifier) (parameters : list AST.Identifier) (l c : nat),
    inheritedKey (AST.name f) = false ->
    NoDup (map AST.name parameters) ->
    Forall (fun param => inheritedKey (AST.name param) = false) parameters ->
    diagnostics
      [AST.FunctionDeclaration f parameters
         [AST.ExpressionStatement
            (AST.CallExpression (AST.IdentifierExpr f)
               (map AST.IdentifierExpr parameters) l c) l c] l c]
      = Some [].
Proof.
  intros H f parameters l c Hf Hdistinct Hfresh.
  start. declared. rewrite Hf. cbv iota. stack.
  set (global := <[AST.name f := Symbol.mk "function" (AST.idLine f) (AST.idColumn f)]> ∅).
  destruct (declare_all parameters ∅ {| scopes := [global; ∅]; errors := [] |}
              eq_refl Hdistinct) as (a' & scope' & -> & He & Hs & Hd & Htop & Hall & _).
  { eapply Forall_impl; [|exact Hfresh]. intros param Hparam. cbv beta.
    now rewrite AnalyzerFacts.has_empty. }
  cbn [andThen forEach analyzeStatement].
  pose proof (analyzeExpression_reports
                (AST.CallExpression (AST.IdentifierExpr f)
                   (map AST.IdentifierExpr parameters) l c) a') as Hcall.
  cbn [analyzeExpression identifiersOf] in Hcall. rewrite Hcall. clear Hcall.
  rewrite identifiers_of_identifiers.
  rewrite unresolved_none.
  - cbn [errors]. rewrite He. reflexivity.
  - constructor.
    + apply visible_below; [rewrite Hd; unfold depth; cbn; lia|].
      rewrite Hs. cbn [scopes removelast existsb]. subst global.
      now rewrite has_insert_same.
    + apply Forall_forall. intros param Hin. apply (visible_top a' scope' _ Htop).
      now apply Hall.
Qed.

(** [fn f(a, b) { f(a, b) }] *)
Lemma function_body_sees_the_name_and_the_parameters_witness :
  let f := AST.mkIdentifier "f" 1 4 in
  let a := AST.mkIdentifier "a" 1 6 in
  let b := AST.mkIdentifier "b" 1 9 in
  diagnostics (H := integerHost)
    [AST.FunctionDeclaration f [a; b]
       [AST.ExpressionStatement
          (AST.CallExpression (AST.IdentifierExpr f)
             [AST.IdentifierExpr a; AST.IdentifierExpr b] 1 1) 1 1] 1 1]
    = Some [].
Proof.
  cbv zeta.
  apply (function_body_sees_the_name_and_the_parameters integerHost
           (AST.mkIdentifier "f" 1 4)
           [AST.mkIdentifier "a" 1 6; AST.mkIdentifier "b" 1 9] 1 1).
  - reflexivity.
  - simpl. refine (bool_decide_unpack _ _). vm_compute. reflexivity.
  - repeat constructor.
Defined.

(** X15. A parameter named like the parameter before it is reported as
    already declared, before any error of the body. *)
Theorem repeated_parameter_name_is_reported :
  forall (H : Host) (f first second : AST.Identifier) (body : list AST.Statement)
         (l c : nat),
    inheritedKey (AST.name f) = false ->
    inheritedKey (AST.name first) = false ->
    AST.name second = AST.name first ->
    exists more,
      diagnostics [AST.FunctionDeclaration f [first; second] body l c]
        = Some (alreadyDeclared second :: more).
Proof.
  intros H f first second body l c Hf Hfirst Hname.
  start. declared. rewrite Hf. cbv iota. stack.
  unfold declareParameters. cbn [forEach].
  declared. rewrite Hfirst. cbv iota. stack.
  declared. rewrite Hname, has_insert_same. cbv iota. stack.
  match goal with
  | |- context [forEach analyzeStatement body ?a] =>
      destruct (orderly_forEach analyzeStatement body
                  ltac:(apply Forall_forall; intros; apply analyzeStatement_orderly)
                  a ltac:(unfold depth; cbn; lia))
        as (a' & more & -> & _ & _ & He & _)
  end.
  cbn [andThen errors]. rewrite He. cbn [errors app].
  exists more. unfold alreadyDeclared. now rewrite Hname.
Qed.

(** [fn f(a, a) { }] *)
Lemma repeated_parameter_name_is_reported_witness :
  exists more,
    diagnostics (H := integerHost)
      [AST.FunctionDeclaration (AST.mkIdentifier "f" 1 4)
         [AST.mkIdentifier "a" 1 6; AST.mkIdentifier "a" 1 9] [] 1 1]
      = Some (alreadyDeclared (AST.mkIdentifier "a" 1 9) :: more).
Proof.
  apply (repeated_parameter_name_is_reported integerHost (AST.mkIdentifier "f" 1 4)
           (AST.mkIdentifier "a" 1 6) (AST.mkIdentifier "a" 1 9) [] 1 1);
    reflexivity.
Defined.

(** X16. Scopes are object literals, so a name every object inherits from
    [Object.prototype] (such as [toString]) is found in every scope: using
    it undeclared is no error, and declaring it is an already-declared
    error even in the empty global scope. *)
Theorem names_of_Object_prototype_are_always_found :
  forall (H : Host) (id : AST.Identifier) (value : AST.Expression) (l c : nat),
    inheritedKey (AST.name id) = true ->
    identifiersOf value = [] ->
    diagnostics [AST.ExpressionStatement (AST.IdentifierExpr id) l c] = Some [] /\
    diagnostics [AST.LetStatement id value l c] = Some [alreadyDeclared id].
Proof.
  intros H id value l c Hid Hvalue. split; start.
  - rewrite resolve_visible; [reflexivity|].
    unfold visible. cbn [scopes rev app existsb].
    now rewrite AnalyzerFacts.has_empty, Hid.
  - closed. declared. rewrite Hid. reflexivity.
Qed.

(** [toString] is an identifier for the lexer (no key of [KEYWORDS] or of
    [Object.prototype] is spelled [tostring]), and every scope holds it:
    [let toString = 1] does not compile, and [let y = valueOf] does. *)
Lemma names_of_Object_prototype_are_always_found_witness :
  let name := AST.mkIdentifier "toString" 1 5 in
  diagnostics [AST.LetStatement name (AST.NumberLiteral (H := integerHost) 1 1 16) 1 1]
    = Some [alreadyDeclared name] /\
  option_map (fun run => CompilationResult.errors (MFlowCompiler.result run))
    (MFlowCompiler.compile (H := integerHost) "let toString = 1") =
    Some (Some ["Semantic error at line 1, column 5: Variable 'toString' is already declared in this scope"]) /\
  option_map (fun run => CompilationResult.success (MFlowCompiler.result run))
    (MFlowCompiler.compile (H := integerHost) "let y = valueOf") = Some true.
Proof.
  cbv zeta. split; [|split; vm_compute; reflexivity].
  exact (proj2 (names_of_Object_prototype_are_always_found integerHost
                  (AST.mkIdentifier "toString" 1 5) (AST.NumberLiteral 1 1 16) 1 1
                  eq_refl eq_refl)).
Defined.

(** X17. [analyze] empties the errors but keeps the scopes: analysing the
    same [let] a second time with the same analyzer reports the variable
    as already declared. *)
Theorem second_analysis_keeps_the_scopes_of_the_first :
  forall (H : Host) (x : AST.Identifier) (value : AST.Expression) (l c : nat),
    inheritedKey (AST.name x) = false ->
    identifiersOf value = [] ->
    exists a1 a2,
      analyze (AST.mkProgram [AST.LetStatement x value l c] 1 1) new = Returned ([], a1) /\
      analyze (AST.mkProgram [AST.LetStatement x value l c] 1 1) a1
        = Returned ([alreadyDeclared x], a2).
Proof.
  intros H x value l c Hx Hvalue. eexists _, _. split.
  - unfold diagnostics, analyze, analyzeStatements, new, enterScope.
    cbn [AST.body scopes errors app forEach analyzeStatement andThen].
    unfold analyzeLetStatement. closed. declared. rewrite Hx. cbv iota. stack.
    reflexivity.
  - unfold analyze, analyzeStatements.
    cbn [AST.body scopes errors app forEach analyzeStatement andThen].
    unfold analyzeLetStatement. closed. declared. rewrite has_insert_same. reflexivity.
Qed.

(** [let x = 1], twice with one analyzer. *)
Lemma second_analysis_keeps_the_scopes_of_the_first_witness :
  let x := AST.mkIdentifier "x" 1 5 in
  let program :=
    AST.mkProgram [AST.LetStatement x (AST.NumberLiteral (H := integerHost) 1 1 9) 1 1] 1 1 in
  exists a1 a2,
    analyze program new = Returned ([], a1) /\
    analyze program a1 = Returned ([alreadyDeclared x], a2).
Proof.
  cbv zeta.
  apply (second_analysis_keeps_the_scopes_of_the_first integerHost
           (AST.mkIdentifier "x" 1 5) (AST.NumberLiteral (H := integerHost) 1 1 9) 1 1);
    reflexivity.
Defined.

(** X18. The errors of a program begin with the errors of each of its
    prefixes: statements added at the end add errors at the end. *)
Theorem earlier_errors_are_kept :
  forall (H : Host) (body rest : list AST.Statement),
    exists (semanticErrors more : list SemanticError.t) (a1 a2 : t),
      analyze (AST.mkProgram body 1 1) new = Returned (semanticErrors, a1) /\
      analyze (AST.mkProgram (body ++ rest) 1 1) new = Returned (semanticErrors ++ more, a2).
Proof.
  intros H body rest. unfold analyze, analyzeStatements. cbn [AST.body].
  rewrite forEach_app.
  destruct (orderly_forEach analyzeStatement body
              ltac:(apply Forall_forall; intros; apply analyzeStatement_orderly)
              {| scopes := scopes new; errors := [] |} ltac:(unfold depth; cbn; lia))
    as (a1 & es & -> & Hd1 & _ & He1 & _).
  cbn [andThen].
  destruct (orderly_forEach analyzeStatement rest
              ltac:(apply Forall_forall; intros; apply analyzeStatement_orderly)
              a1 ltac:(rewrite Hd1; unfold depth; cbn; lia))
    as (a2 & more & -> & _ & _ & He2 & _).
  exists (errors a1), more, a1, a2. split; [reflexivity|]. now rewrite He2.
Qed.
End AnalyzerExtras.

(** ** Code generator *)

Section GeneratorExtras.
Context `{Host}.
Import CodeGenerator.

Ltac texts :=
  unfold statementText, fresh;
  cbn [generateStatement];
  repeat change (forEach generateStatement ?b) with (generateStatements b);
  unfold generateAnimateBlock, emitLine, emitIndent;
  repeat first
    [ rewrite GeneratorFacts.generateExpression_output
    | rewrite GeneratorFacts.generateStatements_output
    | progress (unfold emit, indentMore, indentLess; cbn [output indent pred]) ];
  unfold pad; rewrite ?GeneratorFacts.append_assoc.

(** X19. [generateStatement] leaves the indentation as it found it and
    appends to the buffer; what it appends depends on the statement and on
    the indentation only, not on what the buffer holds. *)
Theorem statement_emission_is_context_free :
  forall (stmt : AST.Statement) (g : t),
    indent (generateStatement stmt g) = indent g /\
    output (generateStatement stmt g) = output g +:+ statementText (indent g) stmt.
Proof.
  intros stmt g. rewrite GeneratorFacts.generateStatement_output. split; reflexivity.
Qed.

(** X20. The text of a list of statements is the concatenation of the
    texts of the statements, in their order. *)
Theorem block_text_is_concatenation :
  forall (i : nat) (stmts : list AST.Statement),
    blockText i stmts =
      fold_right (fun stmt text => statementText i stmt +:+ text) EmptyString stmts.
Proof.
  intros i stmts. induction stmts as [|stmt rest IH]; [reflexivity|].
  rewrite EmissionFacts.blockText_cons, IH. reflexivity.
Qed.

(** X21. Whatever the generator held before, [generate] returns the
    runtime setup, then the text of the statements at indentation 1, then
    the line that closes and calls [main]; it leaves the indentation at 0
    and the same text in the buffer. *)
Theorem generate_wraps_the_statements :
  forall (program : AST.Program) (g : t),
    generate program g =
      (output (preamble new) +:+ blockText 1 (AST.body program) +:+ "})();" +:+ nl,
       {| indent := 0;
          output := output (preamble new) +:+ blockText 1 (AST.body program)
                      +:+ "})();" +:+ nl |}).
Proof.
  intros program g. apply EmissionFacts.generate_after. vm_compute. reflexivity.
Qed.

(** X22. A call is emitted as the callee, an opening parenthesis, the
    arguments separated by a comma and a space (none before the first,
    none after the last), and a closing parenthesis. *)
Theorem call_arguments_are_comma_separated :
  forall (i : nat) (callee : AST.Expression) (arguments : list AST.Expression) (l c : nat),
    expressionText i (AST.CallExpression callee arguments l c) =
      expressionText i callee +:+ "(" +:+ join ", " (map (expressionText i) arguments)
        +:+ ")".
Proof.
  intros i callee arguments l c. unfold expressionText at 1, fresh.
  cbn [generateExpression]. rewrite GeneratorFacts.generateExpression_output.
  unfold emit at 1. cbn [output].
  rewrite (EmissionFacts.arguments_text i); [|reflexivity].
  cbn [output indent emit]. rewrite !GeneratorFacts.append_assoc. reflexivity.
Qed.

(** X23. An [if] statement is emitted as a JavaScript [if] whose branches
    are indented one level deeper; the [else] part is emitted when the node
    has an else branch, also when that branch is empty. *)
Theorem if_statement_text :
  forall (i : nat) (condition : AST.Expression) (thenBranch : list AST.Statement)
         (elseBranch : option (list AST.Statement)) (l c : nat),
    statementText i (AST.IfStatement condition thenBranch elseBranch l c) =
      pad i +:+ "if (" +:+ expressionText i condition +:+ ") {" +:+ nl
        +:+ blockText (S i) thenBranch
        +:+ match elseBranch with
            | Some stmts => pad i +:+ "} else {" +:+ nl +:+ blockText (S i) stmts
            | None => EmptyString
            end
        +:+ pad i +:+ "}" +:+ nl.
Proof.
  intros i condition thenBranch [stmts|] l c; texts; reflexivity.
Qed.

(** X24. A function declaration is emitted as a JavaScript function of
    the same name, its parameters separated by a comma and a space, its
    body indented one level deeper. *)
Theorem function_declaration_text :
  forall (i : nat) (name : AST.Identifier) (parameters : list AST.Identifier)
         (body : list AST.Statement) (l c : nat),
    statementText i (AST.FunctionDeclaration name parameters body l c) =
      pad i +:+ "function " +:+ AST.name name +:+ "("
        +:+ join ", " (map AST.name parameters) +:+ ") {" +:+ nl
        +:+ blockText (S i) body
        +:+ pad i +:+ "}" +:+ nl.
Proof.
  intros i name parameters body l c. texts. reflexivity.
Qed.

(** X25. A scene block is emitted as a comment, a function
    [scene_<name>] holding the body one level deeper, and a call of that
    function. *)
Theorem scene_block_text :
  forall (i : nat) (name : string) (body : list AST.Statement) (l c : nat),
    statementText i (AST.SceneBlock name body l c) =
      pad i +:+ "// Scene: " +:+ name +:+ nl
        +:+ pad i +:+ "function scene_" +:+ name +:+ "() {" +:+ nl
        +:+ blockText (S i) body
        +:+ pad i +:+ "}" +:+ nl
        +:+ pad i +:+ "scene_" +:+ name +:+ "();" +:+ nl.
Proof.
  intros i name body l c. texts. reflexivity.
Qed.

(** X26. An [animate] block is emitted as a function [animate] that
    clears the canvas, runs the commands in their order and asks for the
    next frame, followed by a first call of [animate]. *)
Theorem animate_block_text :
  forall (i : nat) (animations : list AST.AnimationCommand) (l c : nat),
    statementText i (AST.AnimateBlock animations l c) =
      pad i +:+ "// Animation loop" +:+ nl
        +:+ pad i +:+ "function animate() {" +:+ nl
        +:+ pad (S i) +:+ "clear();" +:+ nl
        +:+ fold_right (fun cmd text => commandText (S i) cmd +:+ text) EmptyString animations
        +:+ pad (S i) +:+ "requestAnimationFrame(animate);" +:+ nl
        +:+ pad i +:+ "}" +:+ nl
        +:+ pad i +:+ "animate();" +:+ nl.
Proof.
  intros i animations l c. unfold statementText, fresh. cbn [generateStatement].
  unfold generateAnimateBlock, emitLine. rewrite EmissionFacts.commands_text.
  unfold emit, indentMore, indentLess, pad. cbn [output indent pred].
  rewrite !GeneratorFacts.append_assoc. reflexivity.
Qed.
End GeneratorExtras.

(** ** The façade *)

Section FacadeExtras.
Import SemanticAnalyzer.

(** X27. For every source [compile] returns, and what it returns is decided
    by the program that [parse] returns on the tokens of the source: a
    success carrying the text [generate] gives for that program when
    [analyze] reports no error for it, and otherwise a failure carrying the
    messages of the errors [analyze] reports, each an undefined-variable or
    an already-declared error. The failure of the [catch] never occurs. *)
Theorem compile_succeeds_or_reports_semantic_errors :
  forall (H : Host) (source : string),
    exists (tokens : list Token.t) (program : AST.Program) (printed : list string)
           (semanticErrors : list SemanticError.t) (a' : t),
      Lexer.tokenize (Lexer.new source) = Some tokens /\
      Parser.parse (Parser.new tokens) = (Returned program, printed) /\
      analyze program new = Returned (semanticErrors, a') /\
      Forall known semanticErrors /\
      MFlowCompiler.compile source =
        Some (MFlowCompiler.mkRun
                (match semanticErrors with
                 | [] =>
                     CompilationResult.ok
                       (fst (CodeGenerator.generate program CodeGenerator.new))
                 | _ :: _ =>
                     CompilationResult.failed (map SemanticError.message semanticErrors)
                 end)
                printed).
Proof.
  intros H source.
  destruct (CompilerFacts.compile_returns source)
    as (tokens & program & printed & semanticErrors & a' & Hscan & Hparse & Hanalyze & Hrun).
  exists tokens, program, printed, semanticErrors, a'.
  repeat split; try assumption.
  - exact (FacadeFacts.analyze_known program _ _ Hanalyze).
  - rewrite Hrun. now destruct semanticErrors.
Qed.
End FacadeExtras.
